(** * Asset build pipeline of bmarwell.de: a shallow embedding

    The development follows the build scripts of the site:

    - [scripts/download-avatar.js] (latest revision): the source fetcher
      [downloadAvatar], the classifier and optimizer [optimizeImage], the
      variant generator [createWebP], the reference rewriter
      [updateHTMLReferences] and the script's [main];
    - [scripts/compress-brotli.js], [scripts/compress-gzip.js] and
      [scripts/compress-zstd.js]: the compression stage;
    - [scripts/copy-fonts.js], [scripts/build-html.js] and
      [scripts/generate-sitemap.js]: the scripts that fill the build
      directory and can fail the build.

    JavaScript strings are lists of UTF-16 code units and Node buffers are
    lists of bytes, both carried by [list N].  The file system is a finite
    map from paths to the bytes of the files; a file read or written as
    text is decoded from, and encoded to, UTF-8.  The codecs ([imagemin],
    [sharp], the compressors) and the network are parameters of the
    model: the scripts only call them. *)

From Stdlib Require Import NArith ZArith String Ascii Lia.
From stdpp Require Import base option list sorting gmap.

Open Scope N_scope.

(** ** JavaScript strings, paths and regular expressions *)

Module JS.

(** A string literal of the source, as code units. *)
Fixpoint str (s : string) : list N :=
  match s with
  | EmptyString => []
  | String a s' => N_of_ascii a :: str s'
  end.

Arguments str : simpl never.

(** [`${n}`] for a non-negative integer [n]: its decimal digits. *)
Fixpoint dec_digits (fuel : nat) (n : N) (acc : list N) : list N :=
  let acc' := (48 + n mod 10) :: acc in
  match fuel with
  | O => acc'
  | S f => if n / 10 =? 0 then acc' else dec_digits f (n / 10) acc'
  end.

Definition dec (n : N) : list N := dec_digits (N.to_nat (N.log2 n)) n [].

(** [path.join(dir, file)] for a normalized [dir] without trailing
    separator and a plain file name. *)
Definition path_join (dir file : list N) : list N := dir ++ str "/" ++ file.

(** [path.basename(p)]: what follows the last separator. *)
Fixpoint basename (p : list N) : list N :=
  match p with
  | [] => []
  | c :: p' =>
      if bool_decide (47 ∈ p') then basename p'
      else if c =? 47 then p' else p
  end.

(** The fragment of regular expressions the scripts use.  [Many cls least]
    is the greedy [cls*] ([least = 0]) or [cls+] ([least = 1]); [OneOf]
    is an alternation of literals, tried in order; [Eos] is [$]. *)
Inductive atom :=
| Chr (c : N)
| Many (cls : N → bool) (least : nat)
| OneOf (alts : list (list N))
| Eos.

Abbreviation regex := (list atom).

Definition lit (s : string) : regex := Chr <$> str s.

(** [\s] and [\d] on code units. *)
Definition is_space (c : N) : bool :=
  bool_decide (c ∈ [9; 10; 11; 12; 13; 32; 160; 5760; 8232; 8233; 8239;
                    8287; 12288; 65279])
  || ((8192 <=? c) && (c <=? 8202)).

Definition is_digit (c : N) : bool := (48 <=? c) && (c <=? 57).

Fixpoint starts_with (l s : list N) : bool :=
  match l, s with
  | [], _ => true
  | a :: l', b :: s' => (a =? b) && starts_with l' s'
  | _ :: _, [] => false
  end.

(** Number of leading code units of [s] in the class. *)
Fixpoint run (cls : N → bool) (s : list N) : nat :=
  match s with
  | c :: s' => if cls c then S (run cls s') else O
  | [] => O
  end.

(** Greedy repetition with backtracking: the longest run first, then
    shorter ones down to [least], until the rest of the pattern
    matches. *)
Fixpoint backtrack (k least : nat) (cont : list N → option nat)
    (s : list N) : option nat :=
  if (k <? least)%nat then None
  else match cont (drop k s) with
       | Some n => Some (k + n)%nat
       | None =>
           match k with
           | O => None
           | S k' => backtrack k' least cont s
           end
       end.

Fixpoint first_alt (alts : list (list N)) (cont : list N → option nat)
    (s : list N) : option nat :=
  match alts with
  | [] => None
  | a :: alts' =>
      if starts_with a s then
        match cont (drop (length a) s) with
        | Some n => Some (length a + n)%nat
        | None => first_alt alts' cont s
        end
      else first_alt alts' cont s
  end.

(** [matches p s]: the length of the match of [p] at the head of [s], if
    there is one.  None of the patterns looks behind, so a match at a
    position depends on the text from that position on only. *)
Fixpoint matches (p : regex) (s : list N) : option nat :=
  match p with
  | [] => Some O
  | Chr c :: p' =>
      match s with
      | x :: s' => if x =? c then S <$> matches p' s' else None
      | [] => None
      end
  | Many cls least :: p' => backtrack (run cls s) least (matches p') s
  | OneOf alts :: p' => first_alt alts (matches p') s
  | Eos :: p' =>
      match s with
      | [] => matches p' []
      | _ :: _ => None
      end
  end.

(** [s.replace(/p/, r)]: the leftmost match is replaced.  The replacement
    texts of the scripts hold no [$], so they are inserted as they are. *)
Fixpoint replace (p : regex) (r s : list N) : list N :=
  match matches p s with
  | Some n => r ++ drop n s
  | None =>
      match s with
      | [] => []
      | c :: s' => c :: replace p r s'
      end
  end.

(** [s.replace(/p/g, r)]: every match, left to right, without overlap;
    [skip] counts the code units of the current match still to pass. *)
Fixpoint replace_from (p : regex) (r : list N) (skip : nat) (s : list N)
    : list N :=
  match s with
  | [] =>
      match skip, matches p [] with
      | O, Some _ => r
      | _, _ => []
      end
  | c :: s' =>
      match skip with
      | S k => replace_from p r k s'
      | O =>
          match matches p s with
          | Some (S n) => r ++ replace_from p r n s'
          | Some O => r ++ c :: replace_from p r O s'
          | None => c :: replace_from p r O s'
          end
      end
  end.

Definition replaceAll (p : regex) (r s : list N) : list N :=
  replace_from p r O s.

(** UTF-8, as [buffer.toString('utf8')] decodes it and as a string is
    encoded when it is written to a file.  The decoder puts U+FFFD in
    the place of every maximal part of an ill-formed sequence and goes on
    with the byte that broke it; the encoder puts U+FFFD in the place of
    a surrogate that lacks its partner. *)
Definition between (lo hi b : N) : bool := (lo <=? b) && (b <=? hi).

(** The bounds of the byte that follows the lead byte [b0]: they shut
    out overlong forms, the surrogates and what lies beyond U+10FFFF. *)
Definition lower (b0 : N) : N :=
  if b0 =? 0xE0 then 0xA0 else if b0 =? 0xF0 then 0x90 else 0x80.
Definition upper (b0 : N) : N :=
  if b0 =? 0xED then 0x9F else if b0 =? 0xF4 then 0x8F else 0xBF.

(** The code points of a sequence of bytes. *)
Fixpoint utf8_points (bytes : list N) : list N :=
  match bytes with
  | [] => []
  | b0 :: rest =>
      if b0 <? 0x80 then b0 :: utf8_points rest
      else if between 0xC2 0xDF b0 then
        match rest with
        | b1 :: rest1 =>
            if between 0x80 0xBF b1
            then (b0 - 0xC0) * 0x40 + (b1 - 0x80) :: utf8_points rest1
            else 0xFFFD :: utf8_points rest
        | [] => [0xFFFD]
        end
      else if between 0xE0 0xEF b0 then
        match rest with
        | b1 :: rest1 =>
            if between (lower b0) (upper b0) b1 then
              match rest1 with
              | b2 :: rest2 =>
                  if between 0x80 0xBF b2
                  then (b0 - 0xE0) * 0x1000 + (b1 - 0x80) * 0x40
                       + (b2 - 0x80) :: utf8_points rest2
                  else 0xFFFD :: utf8_points rest1
              | [] => [0xFFFD]
              end
            else 0xFFFD :: utf8_points rest
        | [] => [0xFFFD]
        end
      else if between 0xF0 0xF4 b0 then
        match rest with
        | b1 :: rest1 =>
            if between (lower b0) (upper b0) b1 then
              match rest1 with
              | b2 :: rest2 =>
                  if between 0x80 0xBF b2 then
                    match rest2 with
                    | b3 :: rest3 =>
                        if between 0x80 0xBF b3
                        then (b0 - 0xF0) * 0x40000 + (b1 - 0x80) * 0x1000
                             + (b2 - 0x80) * 0x40 + (b3 - 0x80)
                             :: utf8_points rest3
                        else 0xFFFD :: utf8_points rest2
                    | [] => [0xFFFD]
                    end
                  else 0xFFFD :: utf8_points rest1
              | [] => [0xFFFD]
              end
            else 0xFFFD :: utf8_points rest
        | [] => [0xFFFD]
        end
      else 0xFFFD :: utf8_points rest
  end.

(** The code units of a code point: itself, or a surrogate pair. *)
Definition units (cp : N) : list N :=
  if cp <? 0x10000 then [cp]
  else [0xD800 + (cp - 0x10000) / 0x400;
        0xDC00 + (cp - 0x10000) mod 0x400].

Definition utf8_decode (bytes : list N) : list N :=
  utf8_points bytes ≫= units.

Definition is_high (c : N) : bool := between 0xD800 0xDBFF c.
Definition is_low (c : N) : bool := between 0xDC00 0xDFFF c.

(** The code points of a string. *)
Fixpoint code_points (s : list N) : list N :=
  match s with
  | [] => []
  | c :: s' =>
      if is_high c then
        match s' with
        | d :: s'' =>
            if is_low d
            then 0x10000 + (c - 0xD800) * 0x400 + (d - 0xDC00)
                 :: code_points s''
            else 0xFFFD :: code_points s'
        | [] => [0xFFFD]
        end
      else if is_low c then 0xFFFD :: code_points s'
      else c :: code_points s'
  end.

(** The bytes of a code point. *)
Definition encode_point (cp : N) : list N :=
  if cp <? 0x80 then [cp]
  else if cp <? 0x800 then [0xC0 + cp / 0x40; 0x80 + cp mod 0x40]
  else if cp <? 0x10000 then
    [0xE0 + cp / 0x1000; 0x80 + cp / 0x40 mod 0x40; 0x80 + cp mod 0x40]
  else
    [0xF0 + cp / 0x40000; 0x80 + cp / 0x1000 mod 0x40;
     0x80 + cp / 0x40 mod 0x40; 0x80 + cp mod 0x40].

Definition utf8_encode (s : list N) : list N :=
  code_points s ≫= encode_point.

End JS.

(** ** Outcomes and the state-and-exception monad of the scripts *)

(** An awaited call returns a value, throws (a rejected promise), or never
    settles. *)
Inductive outcome (A : Type) :=
| Val (a : A)
| Throw (message : list N)
| Pending.
Arguments Val {A} a.
Arguments Throw {A} message.
Arguments Pending {A}.

(** What a codec of the libraries delivers: its result, or an error. *)
Inductive result (A : Type) :=
| Ok (a : A)
| Error (message : list N).
Arguments Ok {A} a.
Arguments Error {A} message.

Section Monad.
Context {S : Type}.

Definition M (A : Type) : Type := S → outcome A * S.

Definition ret {A} (a : A) : M A := λ st, (Val a, st).

Definition bind {A B} (m : M A) (k : A → M B) : M B := λ st,
  match m st with
  | (Val a, st') => k a st'
  | (Throw e, st') => (Throw e, st')
  | (Pending, st') => (Pending, st')
  end.

Definition throw {A} (e : list N) : M A := λ st, (Throw e, st).

Definition lift {A} (o : outcome A) : M A := λ st, (o, st).

(** [await] of a library call. *)
Definition await {A} (r : result A) : M A := λ st,
  match r with
  | Ok a => (Val a, st)
  | Error e => (Throw e, st)
  end.

(** [try { m } catch (error) { h error }] *)
Definition try_catch {A} (m : M A) (h : list N → M A) : M A := λ st,
  match m st with
  | (Throw e, st') => h e st'
  | r => r
  end.

Definition get : M S := λ st, (Val st, st).
Definition modify (f : S → S) : M unit := λ st, (Val tt, f st).
End Monad.
Arguments M : clear implicits.

Notation "'let!' x ':=' m 'in' k" := (bind m (λ x, k))
  (at level 10, x name, m at level 100, k at level 200).
Notation "m >>> k" := (bind m (λ _, k))
  (at level 100, k at level 200, right associativity).


(** ** Scripts that can end the process

    A script runs to its end, or the process ends with an exit code: on
    [process.exit], or on an exception that nothing catches, which node
    reports before it exits with code 1.  Nothing of the script runs after
    that. *)

Inductive completion (A : Type) :=
| Returned (a : A)
| Exited (code : N).
Arguments Returned {A} a.
Arguments Exited {A} code.

Section Process.
Context {S : Type}.

Definition process_exit {A} (code : N) : M S (completion A) :=
  ret (Exited code).

(** A computation that does not exit. *)
Definition returning {A} (m : M S A) : M S (completion A) :=
  let! a := m in ret (Returned a).

(** What follows a computation that may have exited. *)
Definition and_then {A B} (m : M S (completion A))
    (k : A → M S (completion B)) : M S (completion B) :=
  let! r := m in
  match r with
  | Returned a => k a
  | Exited code => ret (Exited code)
  end.
End Process.

(** ** The avatar script, [scripts/download-avatar.js] *)

Module Avatar.
Import JS.

(** Plugins handed to [imagemin.buffer]. *)
Inductive plugin :=
| imageminOptipng (optimizationLevel : N)
| imageminMozjpeg (quality : N) (progressive : bool).

(** The [sharp] chains of the script, applied to a source file. *)
Inductive pipeline :=
| webp (quality effort : N)
| resize_jpeg (size quality : N) (mozjpeg : bool)
| resize_webp (size quality effort : N).

(** What [https.get] does with a URL: it throws, when the URL does not
    parse or names another protocol; or it sends a request, which is
    answered by a response (status line, [Location] header, body chunks)
    or by an ['error'] event.  [complete] tells whether the body arrives
    whole, so that the response emits ['end']; a body that is cut off
    emits no ['end'] and, the response having no ['error'] listener,
    nothing else. *)
Inductive response :=
| Response (statusCode : N) (statusMessage : list N)
    (location : option (list N)) (chunks : list (list N)) (complete : bool)
| NetError (message : list N)
| Thrown (message : list N).

Inductive format := PNG | JPEG | unknown.

(** Lines of the console, by the template that prints them; the banner
    that opens a stage is left out. *)
Inductive line :=
| FollowingRedirect (redirectUrl : option (list N))
| Downloaded (size : nat)
| FormatDetected (f : format)
| Renamed (name : list N)
| Optimized (originalSize optimizedSize : nat)
| AlreadyOptimal (originalSize : nat)
| WebPCreated (originalSize webpSize : nat) (quality : N)
| WebPQualityFailed (quality : N) (message : list N)
| WebPNotSmaller (originalSize : nat)
| SizedVariant (name : list N) (size : nat)
| Using (avatarPath : list N) (avatarWebpPath : option (list N))
| Dimensions (width height : N)
| UpdatedHTML (picture : bool)
| UpdatedDimensions (width height : N)
| AvatarReady
| NotPreCompressed
| FailedToDownload (message : list N)
| KeepingExternalURL
| SiteStillWorks.

(** The effects of the script, in the order they happen. *)
Inductive event :=
| Request (url : option (list N))
| Imagemin (input : list N) (plugins : list plugin)
| Sharp (sourcePath : list N) (p : pipeline)
| Metadata (sourcePath : list N)
| RenameFile (oldPath newPath : list N)
| WriteFile (path content : list N)
| Console (l : line).

(** The file system and the script's module-level [let] variables. *)
Record state := State {
  fs : gmap (list N) (list N);
  AVATAR_FILENAME : list N;
  AVATAR_WEBP_FILENAME : list N;
  AVATAR_DEST : list N;
  trace : list event
}.

Definition with_fs (f : gmap (list N) (list N) → gmap (list N) (list N))
    (st : state) : state :=
  State (f (fs st)) (AVATAR_FILENAME st) (AVATAR_WEBP_FILENAME st)
    (AVATAR_DEST st) (trace st).
Definition set_AVATAR_FILENAME (v : list N) (st : state) : state :=
  State (fs st) v (AVATAR_WEBP_FILENAME st) (AVATAR_DEST st) (trace st).
Definition set_AVATAR_WEBP_FILENAME (v : list N) (st : state) : state :=
  State (fs st) (AVATAR_FILENAME st) v (AVATAR_DEST st) (trace st).
Definition set_AVATAR_DEST (v : list N) (st : state) : state :=
  State (fs st) (AVATAR_FILENAME st) (AVATAR_WEBP_FILENAME st) v (trace st).
Definition record (e : event) (st : state) : state :=
  State (fs st) (AVATAR_FILENAME st) (AVATAR_WEBP_FILENAME st)
    (AVATAR_DEST st) (trace st ++ [e]).

Definition emit (e : event) : M state unit := modify (record e).
Definition console_log (l : line) : M state unit := emit (Console l).

(** [fs.promises]: reading or renaming a missing file rejects; the target
    directory exists, so writes go through.  [readFile] and [writeFile]
    are the calls on buffers; the page is read and written as text. *)
Definition ENOENT : list N := str "ENOENT: no such file or directory".

Definition readFile (path : list N) : M state (list N) :=
  let! st := get in
  match fs st !! path with
  | Some content => ret content
  | None => throw ENOENT
  end.

Definition writeFile (path content : list N) : M state unit :=
  emit (WriteFile path content) >>> modify (with_fs <[path := content]>).

(** [fs.readFile(path, 'utf-8')] and [fs.writeFile(path, data)] for a
    string [data]. *)
Definition readFile_utf8 (path : list N) : M state (list N) :=
  let! buffer := readFile path in ret (utf8_decode buffer).

Definition writeFile_utf8 (path data : list N) : M state unit :=
  writeFile path (utf8_encode data).

Definition rename (oldPath newPath : list N) : M state unit :=
  let! content := readFile oldPath in
  emit (RenameFile oldPath newPath) >>>
  modify (with_fs (λ m, <[newPath := content]> (delete oldPath m))).

Definition AVATAR_URL : list N := str "https://github.com/bmarwell.png".

(** [ext] is the image-extension pattern as [optimizeImage] writes it,
    [ext'] as [createWebP] writes it. *)
Definition ext : regex :=
  lit "." ++ [OneOf [str "png"; str "jpg"; str "jpeg"]; Eos].
Definition ext' : regex :=
  lit "." ++ [OneOf [str "jpg"; str "jpeg"; str "png"]; Eos].

(** A text in double quotes, and a pattern in double quotes. *)
Definition dq (s : list N) : list N := [34] ++ s ++ [34].
Definition rdq (p : regex) : regex := [Chr 34] ++ p ++ [Chr 34].

(** The patterns of [updateHTMLReferences] and the texts put in their
    place. *)
Definition re_url : regex := rdq (lit "https://github.com/bmarwell.png").
Definition re_srcset : regex := lit "srcset=" ++ re_url.
Definition re_src : regex := lit "src=" ++ re_url.
Definition re_content : regex := lit "content=" ++ re_url.
Definition re_image : regex :=
  rdq (lit "image") ++ lit ":" ++ [Many is_space 0] ++ re_url.
Definition re_og (dimension : string) : regex :=
  lit "<meta property=" ++ rdq (lit dimension) ++ lit " content="
  ++ rdq [Many is_digit 1] ++ lit ">".
Definition re_og_width : regex := re_og "og:image:width".
Definition re_og_height : regex := re_og "og:image:height".

Definition sizes_attr : list N :=
  str " sizes="
  ++ dq (str "(max-width: 460px) 150px, (max-width: 768px) 300px, 460px").
Definition new_srcset : list N :=
  str "srcset="
  ++ dq (str "/avatar-150w.webp 150w, /avatar-300w.webp 300w, "
         ++ str "/avatar-460w.webp 460w")
  ++ sizes_attr.
Definition new_src (avatarPath : list N) : list N :=
  str "srcset="
  ++ dq (str "/avatar-150w.jpg 150w, /avatar-300w.jpg 300w, "
         ++ str "/avatar-460w.jpg 460w")
  ++ sizes_attr ++ str " src=" ++ dq avatarPath.
Definition new_content (avatarFullUrl : list N) : list N :=
  str "content=" ++ dq avatarFullUrl.
Definition new_image (avatarFullUrl : list N) : list N :=
  dq (str "image") ++ str ":" ++ dq avatarFullUrl.
Definition new_og (dimension : string) (pixels : N) : list N :=
  str "<meta property=" ++ dq (str dimension) ++ str " content="
  ++ dq (dec pixels) ++ str ">".
Definition new_og_width : N → list N := new_og "og:image:width".
Definition new_og_height : N → list N := new_og "og:image:height".

Section Script.
(** [path.join(__dirname, '../dist')] *)
Variable AVATAR_DEST_DIR : list N.
(** The network and the codecs. *)
Variable https_get : option (list N) → response.
Variable imagemin_buffer : list N → list plugin → result (list N).
Variable sharp_toBuffer : list N → pipeline → result (list N).
Variable sharp_metadata : list N → result (N * N).

Definition HTML_FILE : list N := path_join AVATAR_DEST_DIR (str "index.html").

(** The state the module starts in, over the files already built. *)
Definition initial (files : gmap (list N) (list N)) : state :=
  State files (str "avatar.png") (str "avatar.webp")
    (path_join AVATAR_DEST_DIR (str "avatar.png")) [].

(** [sharp(sourcePath). ... .toBuffer()] *)
Definition sharp (sourcePath : list N) (p : pipeline)
    : M state (list N) :=
  emit (Sharp sourcePath p) >>>
  let! input := readFile sourcePath in
  await (sharp_toBuffer input p).

(** The inner [download] of [downloadAvatar]; [fuel] bounds the number
    of calls of [https.get], and the promise is still pending when it
    runs out.

    [in_callback] tells a call made from the response callback from the
    first call, which the executor of the promise makes.  What
    [https.get] throws in the executor rejects the promise; what it
    throws in the callback nothing catches, and the process ends.

    With [undefined] for a URL, which is what a redirect without
    [Location] header hands on, [https.get] drops the callback it is
    given: the request goes to the default host without a response
    callback, and only its ['error'] event is listened to. *)
Fixpoint download (fuel : nat) (in_callback : bool)
    (url : option (list N)) : M state (completion (list N)) :=
  match fuel with
  | O => lift Pending
  | S fuel' =>
      match https_get url with
      | Thrown e => if in_callback then process_exit 1 else throw e
      | NetError e => emit (Request url) >>> throw e
      | Response statusCode statusMessage location chunks complete =>
          emit (Request url) >>>
          match url with
          | None => lift Pending
          | Some _ =>
              if (statusCode =? 301) || (statusCode =? 302) then
                let redirectUrl := location in
                console_log (FollowingRedirect redirectUrl) >>>
                download fuel' true redirectUrl
              else if negb (statusCode =? 200) then
                throw (str "HTTP " ++ dec statusCode ++ str ": "
                       ++ statusMessage)
              else if complete then ret (Returned (concat chunks))
              else lift Pending
          end
      end
  end.

Definition downloadAvatar (fuel : nat) : M state (completion (list N)) :=
  download fuel false (Some AVATAR_URL).

(** The quality loop of [createWebP]; the result tells whether the loop
    was left by [break]. *)
Fixpoint quality_loop (qualities : list N) (sourcePath webpPath : list N)
    (originalSize : nat) : M state unit :=
  match qualities with
  | [] => ret tt
  | quality :: rest =>
      let! broke :=
        try_catch
          (let! webpBuffer := sharp sourcePath (webp quality 6) in
           if (length webpBuffer <? originalSize)%nat then
             writeFile webpPath webpBuffer >>>
             console_log
               (WebPCreated originalSize (length webpBuffer) quality) >>>
             modify (set_AVATAR_WEBP_FILENAME (basename webpPath)) >>>
             ret true
           else ret false)
          (λ error,
             console_log (WebPQualityFailed quality error) >>> ret false)
      in
      if broke then ret tt
      else quality_loop rest sourcePath webpPath originalSize
  end.

Fixpoint sizes_loop (sizes : list N) (sourcePath : list N)
    : M state unit :=
  match sizes with
  | [] => ret tt
  | size :: rest =>
      let jpgPath :=
        replace ext' (str "-" ++ dec size ++ str "w.jpg") sourcePath in
      let webpResPath :=
        replace ext' (str "-" ++ dec size ++ str "w.webp") sourcePath in
      let! jpgBuffer := sharp sourcePath (resize_jpeg size 85 true) in
      writeFile jpgPath jpgBuffer >>>
      console_log (SizedVariant (basename jpgPath) (length jpgBuffer)) >>>
      let! webpResBuffer := sharp sourcePath (resize_webp size 75 6) in
      writeFile webpResPath webpResBuffer >>>
      console_log
        (SizedVariant (basename webpResPath) (length webpResBuffer)) >>>
      sizes_loop rest sourcePath
  end.

Definition createWebP (sourcePath : list N) (originalSize : nat)
    : M state unit :=
  let webpPath := replace ext' (str ".webp") sourcePath in
  let qualities := [80; 75; 70; 65; 60] in
  quality_loop qualities sourcePath webpPath originalSize >>>
  let! st := get in
  (if bool_decide (AVATAR_WEBP_FILENAME st = [])
   then console_log (WebPNotSmaller originalSize)
   else ret tt) >>>
  let sizes := [150; 300; 460] in
  sizes_loop sizes sourcePath.

Definition isPNG (originalBuffer : list N) : bool :=
  bool_decide (originalBuffer !! 0%nat = Some 0x89)
  && bool_decide (originalBuffer !! 1%nat = Some 0x50).
Definition isJPEG (originalBuffer : list N) : bool :=
  bool_decide (originalBuffer !! 0%nat = Some 0xFF)
  && bool_decide (originalBuffer !! 1%nat = Some 0xD8).

(** The two [if]s that follow [let format = 'unknown'; let extension =
    '.png']. *)
Definition detect (originalBuffer : list N) : format * list N :=
  let fe := (unknown, str ".png") in
  let fe := if isPNG originalBuffer then (PNG, str ".png") else fe in
  let fe := if isJPEG originalBuffer then (JPEG, str ".jpg") else fe in
  fe.

Definition plugins (originalBuffer : list N) : list plugin :=
  if isPNG originalBuffer then [imageminOptipng 7]
  else [imageminMozjpeg 85 true].

Definition optimizeImage (filePath : list N) : M state unit :=
  let! originalBuffer := readFile filePath in
  let originalSize := length originalBuffer in
  let '(format, extension) := detect originalBuffer in
  console_log (FormatDetected format) >>>
  let correctPath := replace ext extension filePath in
  (if bool_decide (correctPath ≠ filePath) then
     rename filePath correctPath >>>
     console_log (Renamed (basename correctPath)) >>>
     modify (set_AVATAR_FILENAME (basename correctPath)) >>>
     modify (set_AVATAR_DEST correctPath)
   else ret tt) >>>
  emit (Imagemin originalBuffer (plugins originalBuffer)) >>>
  let! optimized :=
    await (imagemin_buffer originalBuffer (plugins originalBuffer)) in
  (if (length optimized <? originalSize)%nat then
     writeFile correctPath optimized >>>
     console_log (Optimized originalSize (length optimized))
   else console_log (AlreadyOptimal originalSize)) >>>
  createWebP correctPath originalSize.

(** [sharp(sourcePath).metadata()], of which the script reads [width]
    and [height]. *)
Definition metadata (sourcePath : list N) : M state (N * N) :=
  emit (Metadata sourcePath) >>>
  let! input := readFile sourcePath in
  await (sharp_metadata input).

(** The six substitutions of [updateHTMLReferences], in their order. *)
Definition rewriteReferences (avatarPath : list N)
    (avatarWebpPath : option (list N)) (avatarFullUrl : list N)
    (width height : N) (html : list N) : list N :=
  let html :=
    if avatarWebpPath is Some _ then replaceAll re_srcset new_srcset html
    else html in
  let html := replaceAll re_src (new_src avatarPath) html in
  let html := replaceAll re_content (new_content avatarFullUrl) html in
  let html := replaceAll re_image (new_image avatarFullUrl) html in
  let html := replaceAll re_og_width (new_og_width width) html in
  let html := replaceAll re_og_height (new_og_height height) html in
  html.

Definition updateHTMLReferences : M state unit :=
  let! html := readFile_utf8 HTML_FILE in
  let! st := get in
  let avatarPath := str "/" ++ AVATAR_FILENAME st in
  let avatarWebpPath :=
    if bool_decide (AVATAR_WEBP_FILENAME st ≠ [])
    then Some (str "/" ++ AVATAR_WEBP_FILENAME st) else None in
  let avatarFullUrl := str "https://bmarwell.de" ++ avatarPath in
  let! wh := metadata (AVATAR_DEST st) in
  let '(width, height) := wh in
  console_log (Using avatarPath avatarWebpPath) >>>
  console_log (Dimensions width height) >>>
  let html :=
    rewriteReferences avatarPath avatarWebpPath avatarFullUrl
      width height html in
  writeFile_utf8 HTML_FILE html >>>
  console_log (UpdatedHTML (bool_decide (is_Some avatarWebpPath))) >>>
  console_log (UpdatedDimensions width height).

(** [main]; its [catch] keeps the external URL as fallback and the
    build going. *)
Definition main (fuel : nat) : M state (completion unit) :=
  try_catch
    (and_then (downloadAvatar fuel)
       (λ imageData,
          returning
            (let! st := get in
             writeFile (AVATAR_DEST st) imageData >>>
             console_log (Downloaded (length imageData)) >>>
             optimizeImage (AVATAR_DEST st) >>>
             updateHTMLReferences >>>
             console_log AvatarReady >>>
             console_log NotPreCompressed)))
    (λ error,
       console_log (FailedToDownload error) >>>
       console_log KeepingExternalURL >>>
       console_log SiteStillWorks >>>
       ret (Returned tt)).
End Script.
End Avatar.

(** ** The compression stage: [compress-brotli.js], [compress-gzip.js] and
    [compress-zstd.js]

    The three scripts have the same shape; they differ in the library call,
    the suffix, the default level, the environment variable and the list of
    files, which [algorithm] indexes. *)

Module Compress.
Import JS.

Inductive algorithm := Brotli | Gzip | Zstd.

(** The library call of each script, with the options it passes. *)
Inductive call :=
| brotli_compress (mode quality lgwin : N)
| pako_gzip (level memLevel strategy : N)
| zstd_compress (level : N).

Inductive line :=
| Compressing (a : algorithm) (level : N)
| Compressed (name : list N) (originalSize compressedSize : nat)
| FailedToCompress (filePath message : list N)
| Skipping (file : list N)
| Blank.

Inductive event :=
| WriteFile (path content : list N)
| Console (l : line).

Record state := State {
  fs : gmap (list N) (list N);
  trace : list event
}.

Definition with_fs (f : gmap (list N) (list N) → gmap (list N) (list N))
    (st : state) : state :=
  State (f (fs st)) (trace st).
Definition record (e : event) (st : state) : state :=
  State (fs st) (trace st ++ [e]).

Definition emit (e : event) : M state unit := modify (record e).
Definition console (l : line) : M state unit := emit (Console l).

Definition ENOENT : list N := str "ENOENT: no such file or directory".

Definition readFile (path : list N) : M state (list N) :=
  let! st := get in
  match fs st !! path with
  | Some content => ret content
  | None => throw ENOENT
  end.

Definition access (path : list N) : M state unit :=
  readFile path >>> ret tt.

Definition writeFile (path content : list N) : M state unit :=
  emit (WriteFile path content) >>> modify (with_fs <[path := content]>).

Definition DIST_DIR : list N := str "dist".

Definition FILES_TO_COMPRESS (a : algorithm) : list (list N) :=
  match a with
  | Brotli => [str "index.html"; str "bmarwell.asc"]
  | Gzip =>
      [str "index.html"; str "bmarwell-apache.asc";
       str "bmarwell-personal.asc"]
  | Zstd =>
      [str "index.html"; str "bmarwell-apache.asc";
       str "bmarwell-personal.asc"]
  end.

Definition suffix (a : algorithm) : list N :=
  match a with
  | Brotli => str ".br"
  | Gzip => str ".gz"
  | Zstd => str ".zst"
  end.

Definition default_level (a : algorithm) : N :=
  match a with
  | Brotli => 11
  | Gzip => 9
  | Zstd => 22
  end.

Section Stage.
(** [process.env.BROTLI_LEVEL], [GZIP_LEVEL], [ZSTD_LEVEL]. *)
Variable env : algorithm → option (list N).
Variable parseInt : list N → N.
(** The compression libraries. *)
Variable compress : call → list N → result (list N).

Definition COMPRESSION_LEVEL (a : algorithm) : N :=
  match env a with
  | Some (c :: v) => parseInt (c :: v)
  | _ => default_level a
  end.

Definition library_call (a : algorithm) : call :=
  match a with
  | Brotli => brotli_compress 0 (COMPRESSION_LEVEL Brotli) 24
  | Gzip => pako_gzip (COMPRESSION_LEVEL Gzip) 9 0
  | Zstd => zstd_compress (COMPRESSION_LEVEL Zstd)
  end.

Definition compressFile (a : algorithm) (filePath : list N)
    : M state unit :=
  try_catch
    (let! content := readFile filePath in
     let! compressed := await (compress (library_call a) content) in
     let outputPath := filePath ++ suffix a in
     writeFile outputPath compressed >>>
     let originalSize := length content in
     let compressedSize := length compressed in
     console
       (Compressed (basename filePath ++ suffix a)
          originalSize compressedSize))
    (λ error, console (FailedToCompress filePath error)).

Fixpoint for_files (a : algorithm) (files : list (list N))
    : M state unit :=
  match files with
  | [] => ret tt
  | file :: rest =>
      let filePath := path_join DIST_DIR file in
      try_catch
        (access filePath >>> compressFile a filePath)
        (λ error, console (Skipping file)) >>>
      for_files a rest
  end.

Definition main (a : algorithm) : M state unit :=
  console (Compressing a (COMPRESSION_LEVEL a)) >>>
  for_files a (FILES_TO_COMPRESS a) >>>
  console Blank.
End Stage.
End Compress.

(** ** Vocabulary of the statements

    What the theorems say about the scripts is phrased with the notions
    below: observations on traces and states, and the behaviour expected of
    a loop, stated without the loop. *)

(** [m] moves every state to an [R]-related one, whatever it returns. *)
Definition guarantees {S A} (R : S → S → Prop) (m : M S A) : Prop :=
  ∀ st, R st (m st).2.

Module Patterns.
Import JS.

(** Whether a pattern matches somewhere in a text. *)
Fixpoint has_match (p : regex) (s : list N) : bool :=
  match matches p s with
  | Some _ => true
  | None =>
      match s with
      | [] => false
      | _ :: s' => has_match p s'
      end
  end.

(** A pattern atom that cannot match the code unit [a]. *)
Definition avoids (a : N) (x : atom) : Prop :=
  match x with
  | Chr c => c ≠ a
  | Many cls _ => cls a = false
  | OneOf _ | Eos => False
  end.

(** A text that is empty or starts with the anchor. *)
Definition at_anchor (a : N) (y : list N) : Prop :=
  match y with
  | [] => True
  | c :: _ => c = a
  end.

(** The replacement of the match at the head of a piece, if any. *)
Definition step (p : regex) (r c : list N) : list N :=
  match matches p c with
  | Some n => r ++ drop n c
  | None => c
  end.

(** The pieces of a text: what precedes the first anchor, then one piece
    per anchor. *)
Fixpoint pieces (a : N) (s : list N) : list (list N) :=
  match s with
  | [] => [[]]
  | c :: s' =>
      match pieces a s' with
      | [] => [[c]]
      | h :: t => if c =? a then [] :: (c :: h) :: t else (c :: h) :: t
      end
  end.

Definition well_cut (a : N) (cs : list (list N)) : Prop :=
  match cs with
  | [] => False
  | h :: t => (a ∉ h) ∧ Forall (λ c, ∃ c', c = a :: c' ∧ (a ∉ c')) t
  end.
End Patterns.

(** ** Vocabulary on texts and their encoding *)

Module Texts.
Import JS.

(** A Unicode scalar value: a code point that is no surrogate. *)
Definition scalar (cp : N) : bool :=
  (cp <? 0xD800) || between 0xE000 0x10FFFF cp.

(** A string in which every surrogate has its partner: the strings that
    texts are. *)
Fixpoint well_formed (s : list N) : bool :=
  match s with
  | [] => true
  | c :: s' =>
      if is_high c then
        match s' with
        | d :: s'' => is_low d && well_formed s''
        | [] => false
        end
      else negb (is_low c) && (c <? 0x10000) && well_formed s'
  end.

(** Well-formed UTF-8: the sequences of bytes in which the decoder finds
    nothing to replace. *)
Fixpoint utf8_valid (bytes : list N) : bool :=
  match bytes with
  | [] => true
  | b0 :: rest =>
      if b0 <? 0x80 then utf8_valid rest
      else if between 0xC2 0xDF b0 then
        match rest with
        | b1 :: rest1 => between 0x80 0xBF b1 && utf8_valid rest1
        | [] => false
        end
      else if between 0xE0 0xEF b0 then
        match rest with
        | b1 :: b2 :: rest2 =>
            between (lower b0) (upper b0) b1 && between 0x80 0xBF b2
            && utf8_valid rest2
        | _ => false
        end
      else if between 0xF0 0xF4 b0 then
        match rest with
        | b1 :: b2 :: b3 :: rest3 =>
            between (lower b0) (upper b0) b1 && between 0x80 0xBF b2
            && between 0x80 0xBF b3 && utf8_valid rest3
        | _ => false
        end
      else false
  end.

(** A code unit of the surrogate range. *)
Definition surrogate (c : N) : bool := between 0xD800 0xDFFF c.

(** [q] occurs in [s]. *)
Definition occurs (q s : list N) : Prop := ∃ a b, s = a ++ q ++ b.

(** Of two texts, one starts with the other. *)
Definition agree (x y : list N) : bool :=
  starts_with x y || starts_with y x.

(** The non-empty tails of a text. *)
Fixpoint tails (l : list N) : list (list N) :=
  match l with
  | [] => []
  | _ :: l' => l :: tails l'
  end.

(** [q] and [r] cannot overlap: however one is laid over the other, they
    differ at a place they share. *)
Definition apart (q r : list N) : bool :=
  forallb (λ t, negb (agree t q)) (tails r)
  && forallb (λ t, negb (agree t r)) (tails q).

(** Around [r], every occurrence of [q] lies before [r] or after it. *)
Definition isolated (q r : list N) : Prop :=
  ∀ a b, occurs q (a ++ r ++ b) → occurs q a ∨ occurs q b.
End Texts.

Module Observe.
Import JS Avatar.

(** The requests of a trace, in order. *)
Definition requests (t : list event) : list (option (list N)) :=
  omap (λ e, match e with Request url => Some url | _ => None end) t.

(** A 301 or 302 response. *)
Definition redirect (r : response) : bool :=
  match r with
  | Response statusCode _ _ _ _ => (statusCode =? 301) || (statusCode =? 302)
  | NetError _ | Thrown _ => false
  end.

(** The target of a 301 or 302 response that has a [Location] header. *)
Definition followed (r : response) : option (list N) :=
  if redirect r then
    match r with
    | Response _ _ location _ _ => location
    | NetError _ | Thrown _ => None
    end
  else None.


(** What becomes of the promise on a final response. *)
Definition settle (r : response) : outcome (completion (list N)) :=
  match r with
  | NetError e | Thrown e => Throw e
  | Response statusCode statusMessage _ chunks complete =>
      if statusCode =? 200 then
        if complete then Val (Returned (concat chunks)) else Pending
      else Throw (str "HTTP " ++ dec statusCode ++ str ": "
                  ++ statusMessage)
  end.

Section Network.
Variable https_get : option (list N) → response.

(** [redirects u us v]: from the URL [u], the 301 and 302 answers lead
    through the URLs [us] to the URL [v]. *)
Inductive redirects : list N → list (list N) → list N → Prop :=
| redirects_here u : redirects u [] u
| redirects_hop u location us v :
    followed (https_get (Some u)) = Some location →
    redirects location us v →
    redirects u (u :: us) v.
End Network.

(** The extensions of the pattern [ext]. *)
Definition image_extensions : list (list N) :=
  [str "png"; str "jpg"; str "jpeg"].

(** The events a stage may add when it encodes with the pipelines in [E]
    and writes to the paths in [W] only: encodings in [E], writes inside
    [W], console lines. *)
Definition quiet (E : pipeline → Prop) (W : list N → Prop) (e : event)
    : Prop :=
  match e with
  | WriteFile path _ => W path
  | Sharp _ p => E p
  | Console _ => True
  | _ => False
  end.

Definition only_writes (E : pipeline → Prop) (W : list N → Prop)
    (st st' : state) : Prop :=
  (∀ p, ¬ W p → fs st' !! p = fs st !! p)
  ∧ AVATAR_FILENAME st' = AVATAR_FILENAME st
  ∧ AVATAR_DEST st' = AVATAR_DEST st
  ∧ ∃ t, trace st' = trace st ++ t ∧ Forall (quiet E W) t.

(** The state after the rename of [optimizeImage], if there is one. *)
Definition moved (filePath correctPath original : list N) (st : state)
    : state :=
  if bool_decide (correctPath ≠ filePath) then
    set_AVATAR_DEST correctPath
      (set_AVATAR_FILENAME (basename correctPath)
         (record (Console (Renamed (basename correctPath)))
            (with_fs (λ m, <[correctPath := original]> (delete filePath m))
               (record (RenameFile filePath correctPath) st))))
  else st.

(** The state after the size check of [optimizeImage]. *)
Definition kept (correctPath original optimized : list N) (st : state)
    : state :=
  if (length optimized <? length original)%nat then
    record (Console (Optimized (length original) (length optimized)))
      (with_fs <[correctPath := optimized]>
         (record (WriteFile correctPath optimized) st))
  else record (Console (AlreadyOptimal (length original))) st.

(** Events that rename a file or call [imagemin]. *)
Definition renames_or_optimizes (e : event) : Prop :=
  match e with
  | RenameFile _ _ | Imagemin _ _ => True
  | _ => False
  end.

(** The quality levels at which a trace encodes the full-size WebP, and
    the contents a trace writes to a path, both in order. *)
Definition attempts (t : list event) : list N :=
  omap (λ e, match e with
             | Sharp _ (webp quality _) => Some quality
             | _ => None
             end) t.

Definition writes (path : list N) (t : list event) : list (list N) :=
  omap (λ e, match e with
             | WriteFile p content =>
                 if bool_decide (p = path) then Some content else None
             | _ => None
             end) t.

Section Search.
Variable sharp_toBuffer : list N → pipeline → result (list N).
(** The content of the source file, if there is one, and the size to
    beat. *)
Variable source : option (list N).
Variable originalSize : nat.

(** The encoding of the source at a level, when the encoder delivers
    one that is strictly smaller than [originalSize]. *)
Definition accepted (quality : N) : option (list N) :=
  match source with
  | Some input =>
      match sharp_toBuffer input (webp quality 6) with
      | Ok webpBuffer =>
          if (length webpBuffer <? originalSize)%nat
          then Some webpBuffer else None
      | Error _ => None
      end
  | None => None
  end.

(** The levels up to and including the first accepted one. *)
Fixpoint tried (qualities : list N) : list N :=
  match qualities with
  | [] => []
  | quality :: rest =>
      quality :: if accepted quality is Some _ then [] else tried rest
  end.

(** The encoding at the first accepted level. *)
Fixpoint found (qualities : list N) : option (list N) :=
  match qualities with
  | [] => None
  | quality :: rest =>
      match accepted quality with
      | Some webpBuffer => Some webpBuffer
      | None => found rest
      end
  end.
End Search.

(** The quality levels of [createWebP]. *)
Definition qualities : list N := [80; 75; 70; 65; 60].

(** The pipelines of the sized variants. *)
Definition sized (p : pipeline) : Prop :=
  match p with
  | webp _ _ => False
  | _ => True
  end.

(** The patterns on the remote URL. *)
Definition placeholders : list regex :=
  [re_srcset; re_src; re_content; re_image].

(** The three of them that are literals, as texts. *)
Definition q_srcset : list N := str "srcset=" ++ dq AVATAR_URL.
Definition q_src : list N := str "src=" ++ dq AVATAR_URL.
Definition q_content : list N := str "content=" ++ dq AVATAR_URL.

(** The names under which the script stores the avatar. *)
Definition names : list (list N) := [str "avatar.png"; str "avatar.jpg"].

(** The [og:image] patterns and replacements, split at the digits. *)
Definition og_head (dimension : string) : list N :=
  str "<meta property=" ++ dq (str dimension) ++ str " content=" ++ [34].

(** Both patterns are anchored on ["<"], and so are the tags put in
    their place. *)
Definition og_tail (dimension : string) : regex := tail (re_og dimension).
Definition new_og_tail (dimension : string) (pixels : N) : list N :=
  tail (og_head dimension) ++ dec pixels ++ [34; 62].
End Observe.

Module Turns.
Import JS Compress.

(** What one turn of the loop of [main] does to a file. *)
Definition turn (compress : call → list N → result (list N)) (c : call)
    (a : algorithm) (file : list N) (st : state) : state :=
  let filePath := path_join DIST_DIR file in
  match fs st !! filePath with
  | None => record (Console (Skipping file)) st
  | Some content =>
      match compress c content with
      | Ok compressed =>
          record
            (Console (Compressed (basename filePath ++ suffix a)
                        (length content) (length compressed)))
            (with_fs <[filePath ++ suffix a := compressed]>
               (record (WriteFile (filePath ++ suffix a) compressed) st))
      | Error e => record (Console (FailedToCompress filePath e)) st
      end
  end.

(** What the stage has done for a file when the loop is over. *)
Definition done_with (compress : call → list N → result (list N))
    (c : call) (a : algorithm) (file : list N) (st st' : state) : Prop :=
  let filePath := path_join DIST_DIR file in
  match fs st !! filePath with
  | None =>
      Console (Skipping file) ∈ trace st'
      ∧ fs st' !! (filePath ++ suffix a) = fs st !! (filePath ++ suffix a)
  | Some content =>
      match compress c content with
      | Ok compressed => fs st' !! (filePath ++ suffix a) = Some compressed
      | Error e =>
          Console (FailedToCompress filePath e) ∈ trace st'
          ∧ fs st' !! (filePath ++ suffix a)
            = fs st !! (filePath ++ suffix a)
      end
  end.
End Turns.

(** ** Sample environments

    Concrete networks and codecs, on which the theorems below are run. *)

Module Sample.
Import JS Avatar.

Definition cdn : list N := str "https://avatars.githubusercontent.com/u/1".
Definition dist : list N := str "/site/dist".

(** The avatar URL answers 302 towards a CDN which has no such file. *)
Definition gone (url : option (list N)) : response :=
  if bool_decide (url = Some AVATAR_URL)
  then Response 302 (str "Found") (Some cdn) [] true
  else Response 404 (str "Not Found") None [str "nothing here"] true.


(** Two URLs that answer 302 towards each other. *)
Definition cycle (url : option (list N)) : response :=
  if bool_decide (url = Some AVATAR_URL)
  then Response 302 (str "Found") (Some cdn) [] true
  else Response 301 (str "Moved Permanently") (Some AVATAR_URL) [] true.

(** An optimizer that shaves two bytes off with [optipng] and adds one
    with [mozjpeg]. *)
Definition imagemin (input : list N) (plugins : list plugin)
    : result (list N) :=
  match plugins with
  | [imageminOptipng _] => Ok (drop 2 input)
  | _ => Ok (input ++ [0])
  end.

(** An encoder whose WebP output doubles the input above quality 75,
    fails at quality 75 and is one byte long from quality 70 down. *)
Definition sharp (input : list N) (p : pipeline) : result (list N) :=
  match p with
  | webp quality _ =>
      if 75 <? quality then Ok (input ++ input)
      else if quality =? 75 then Error (str "out of memory")
      else Ok (take 1 input)
  | resize_jpeg size _ _ => Ok [0xFF; 0xD8; size]
  | resize_webp size _ _ => Ok [0x52; 0x49; size]
  end.

(** An encoder whose WebP output is one byte longer than its input. *)
Definition padding (input : list N) (p : pipeline) : result (list N) :=
  match p with
  | webp _ _ => Ok (input ++ [0])
  | resize_jpeg size _ _ => Ok [0xFF; 0xD8; size]
  | resize_webp size _ _ => Ok [0x52; 0x49; size]
  end.

(** An encoder whose WebP output is more than twice its input. *)
Definition bulky (input : list N) (p : pipeline) : result (list N) :=
  match p with
  | webp _ _ => Ok (input ++ input ++ [0])
  | resize_jpeg size _ _ => Ok [0xFF; 0xD8; size]
  | resize_webp size _ _ => Ok [0x52; 0x49; size]
  end.

Definition metadata (input : list N) : result (N * N) := Ok (460, 460).

Definition png : list N := [0x89; 0x50; 0x4E; 0x47; 0x0D; 0x0A].
Definition gif : list N := [0x47; 0x49; 0x46; 0x38].

(** The avatar URL answers 302 towards a CDN which serves a PNG. *)
Definition serving (url : option (list N)) : response :=
  if bool_decide (url = Some AVATAR_URL)
  then Response 302 (str "Found") (Some cdn) [] true
  else Response 200 (str "OK") None [[0x89; 0x50; 0x4E]; [0x47; 0x0D; 0x0A]]
         true.

(** A page with a [picture] element on the remote avatar. *)
Definition page : list N :=
  str "<picture><source type=" ++ dq (str "image/webp") ++ str " srcset="
  ++ dq AVATAR_URL ++ str "><img src=" ++ dq AVATAR_URL
  ++ str "></picture>".

(** Two structured-data image entries, the second without its opening
    quote, so that it starts where the first one ends. *)
Definition adjacent : list N :=
  dq (str "image") ++ str ":" ++ dq AVATAR_URL
  ++ str "image" ++ [34] ++ str ":" ++ dq AVATAR_URL.

(** The build directory with a page and the stored master. *)
Definition built (html : list N) : state :=
  initial dist
    {[ HTML_FILE dist := html; path_join dist (str "avatar.png") := png ]}.

(** The state of [main] once it has stored the fetched bytes. *)
Definition fetched (imageData : list N) : state :=
  with_fs <[path_join dist (str "avatar.png") := imageData]>
    (initial dist ∅).
End Sample.

Module SampleCodec.
Import JS Compress.

(** A compressor that stores its input behind a one-byte header, and its
    inverse. *)
Definition store (c : call) (content : list N) : result (list N) :=
  Ok (0 :: content).

Definition unstore (a : algorithm) (compressed : list N)
    : option (list N) :=
  match compressed with
  | 0 :: content => Some content
  | _ => None
  end.

(** The same compressor, which gives up on empty input. *)
Definition picky (c : call) (content : list N) : result (list N) :=
  match content with
  | [] => Error (str "nothing to compress")
  | _ :: _ => Ok (0 :: content)
  end.

Definition no_env (a : algorithm) : option (list N) := None.
Definition parseInt (v : list N) : N := 0.

(** A build with the page (empty, or not) and one key file. *)
Definition dist (html : list N) : state :=
  State {[ str "dist/index.html" := html;
           str "dist/bmarwell-apache.asc" := str "-----BEGIN PGP" ]} [].
End SampleCodec.

(** ** The file system calls of [copy-fonts.js], [build-html.js] and
    [generate-sitemap.js] *)

Module Build.
Import JS.

(** Lines of the console that carry data, by the script and template that
    prints them. *)
Inductive line :=
| FontCopied (font : list N) (size : nat)
| FontFailed (font message : list N)
| FontsFatal (message : list N)
| StaticCopied (file : list N)
| BuildFailed (message : list N)
| NoGitLastmod
| SitemapWritten (lastmod : list N)
| SitemapFailed (message : list N).

Inductive event :=
| Mkdir (path : list N)
| WriteFile (path content : list N)
| CopyFile (src dest : list N)
| Unlink (path : list N)
| Minify (input : list N)
| GitLog
| Console (l : line).

Record state := State {
  fs : gmap (list N) (list N);
  trace : list event
}.

Definition with_fs (f : gmap (list N) (list N) → gmap (list N) (list N))
    (st : state) : state :=
  State (f (fs st)) (trace st).
Definition record (e : event) (st : state) : state :=
  State (fs st) (trace st ++ [e]).

Definition emit (e : event) : M state unit := modify (record e).
Definition console (l : line) : M state unit := emit (Console l).

(** [fs.promises]: a call on a missing file rejects.  Directories are
    not part of the model: [mkdir] with [recursive: true] always goes
    through, and every script writes below a directory it has made or
    that the build has made before. *)
Definition ENOENT : list N := str "ENOENT: no such file or directory".

Definition mkdir (path : list N) : M state unit := emit (Mkdir path).

Definition readFile (path : list N) : M state (list N) :=
  let! st := get in
  match fs st !! path with
  | Some content => ret content
  | None => throw ENOENT
  end.

Definition writeFile (path content : list N) : M state unit :=
  emit (WriteFile path content) >>> modify (with_fs <[path := content]>).

Definition copyFile (src dest : list N) : M state unit :=
  let! content := readFile src in
  emit (CopyFile src dest) >>> modify (with_fs <[dest := content]>).

(** [(await fs.stat(path)).size] *)
Definition stat_size (path : list N) : M state nat :=
  let! content := readFile path in ret (length content).

Definition unlink (path : list N) : M state unit :=
  readFile path >>> emit (Unlink path) >>> modify (with_fs (delete path)).
End Build.

(** ** [scripts/copy-fonts.js] *)

Module Fonts.
Import JS Build.

Definition FONTS_TO_COPY : list (list N) :=
  [str "roboto-latin-300-normal.woff2";
   str "roboto-latin-400-normal.woff2";
   str "roboto-latin-500-normal.woff2"].

Section Script.
(** [path.join(__dirname, '../node_modules/@fontsource/roboto/files')]
    and [path.join(__dirname, '../dist/fonts')] *)
Variables FONT_SOURCE FONT_DEST : list N.

(** The loop of [copyFonts]; its [catch] ends the process. *)
Fixpoint for_fonts (fonts : list (list N)) : M state (completion unit) :=
  match fonts with
  | [] => ret (Returned tt)
  | font :: rest =>
      let src := path_join FONT_SOURCE font in
      let dest := path_join FONT_DEST font in
      and_then
        (try_catch
           (copyFile src dest >>>
            let! size := stat_size dest in
            console (FontCopied font size) >>>
            ret (Returned tt))
           (λ error,
              console (FontFailed font error) >>>
              process_exit 1))
        (λ _, for_fonts rest)
  end.

Definition copyFonts : M state (completion unit) :=
  mkdir FONT_DEST >>> for_fonts FONTS_TO_COPY.

(** [copyFonts().catch(...)], the script as node runs it. *)
Definition script : M state (completion unit) :=
  try_catch copyFonts
    (λ error, console (FontsFatal error) >>> process_exit 1).
End Script.
End Fonts.

(** ** [scripts/build-html.js] *)

Module Html.
Import JS Build.

Definition YEAR : regex := lit "{{YEAR}}".

Definition staticFiles : list (list N) :=
  [str ".htaccess"; str "robots.txt"; str "bmarwell.asc"].

Section Script.
(** [path.join(__dirname, '../src/main/html')] and
    [path.join(__dirname, '../dist')] *)
Variables SRC_DIR DIST_DIR : list N.
(** [new Date().getFullYear()] *)
Variable currentYear : N.
(** [html-minifier-terser] with the options of the script, as a function
    of the text of its input file. *)
Variable html_minifier_terser : list N → result (list N).

(** [execSync('html-minifier-terser ... -o output input')]: the minifier
    reads its input file and writes its output file, or fails (a non-zero
    exit status, which [execSync] throws) and writes nothing. *)
Definition execSync_minify (output input : list N) : M state unit :=
  let! source := readFile input in
  emit (Minify source) >>>
  let! minified := await (html_minifier_terser source) in
  modify (with_fs <[output := minified]>).

Fixpoint for_static (files : list (list N)) : M state unit :=
  match files with
  | [] => ret tt
  | file :: rest =>
      let src := path_join SRC_DIR file in
      let dest := path_join DIST_DIR file in
      copyFile src dest >>>
      console (StaticCopied file) >>>
      for_static rest
  end.

Definition main : M state unit :=
  mkdir DIST_DIR >>>
  let! html := readFile (path_join SRC_DIR (str "index.html")) in
  let html := replaceAll YEAR (dec currentYear) html in
  let tempFile := path_join DIST_DIR (str "index.temp.html") in
  writeFile tempFile html >>>
  execSync_minify (DIST_DIR ++ str "/index.html") tempFile >>>
  unlink tempFile >>>
  for_static staticFiles.

(** [main().catch(...)], the script as node runs it. *)
Definition script : M state (completion unit) :=
  try_catch (returning main)
    (λ error, console (BuildFailed error) >>> process_exit 1).
End Script.
End Html.

(** ** [scripts/generate-sitemap.js] *)

Module Sitemap.
Import JS Build.

(** [String.prototype.trim]: white space and line terminators, which are
    the code units of [\s], are dropped at both ends. *)
Fixpoint trimStart (s : list N) : list N :=
  match s with
  | c :: s' => if is_space c then trimStart s' else s
  | [] => []
  end.

Fixpoint trimEnd (s : list N) : list N :=
  match s with
  | [] => []
  | c :: s' =>
      match trimEnd s' with
      | [] => if is_space c then [] else [c]
      | t => c :: t
      end
  end.

Definition trim (s : list N) : list N := trimEnd (trimStart s).

(** The template of the sitemap. *)
Definition sitemap (lastmod : list N) : list N :=
  str "<?xml version=" ++ Avatar.dq (str "1.0") ++ str " encoding="
  ++ Avatar.dq (str "UTF-8") ++ str "?>" ++ [10]
  ++ str "<urlset xmlns="
  ++ Avatar.dq (str "http://www.sitemaps.org/schemas/sitemap/0.9")
  ++ str ">" ++ [10]
  ++ str "  <url>" ++ [10]
  ++ str "    <loc>https://bmarwell.de/</loc>" ++ [10]
  ++ str "    <lastmod>" ++ lastmod ++ str "</lastmod>" ++ [10]
  ++ str "    <changefreq>monthly</changefreq>" ++ [10]
  ++ str "    <priority>1.0</priority>" ++ [10]
  ++ str "  </url>" ++ [10]
  ++ str "</urlset>".

Section Script.
(** [path.join(__dirname, '../dist')] *)
Variable DIST_DIR : list N.
(** What [git log -1 --format="%aI" -- src/main/html/index.html] prints,
    or the failure of the command. *)
Variable git_log : result (list N).
(** [new Date().toISOString()] *)
Variable toISOString : list N.

Definition main : M state unit :=
  let! lastmod :=
    try_catch
      (emit GitLog >>>
       let! output := await git_log in
       ret (trim output))
      (λ error, console NoGitLastmod >>> ret toISOString)
  in
  writeFile (path_join DIST_DIR (str "sitemap.xml")) (sitemap lastmod) >>>
  console (SitemapWritten lastmod).

(** [main().catch(...)], the script as node runs it. *)
Definition script : M state (completion unit) :=
  try_catch (returning main)
    (λ error, console (SitemapFailed error) >>> process_exit 1).
End Script.
End Sitemap.

(** ** Further vocabulary: settling, the sized variants, the fetcher's
    events *)

(** [m] settles: it returns or throws, from every state. *)
Definition settles {S A} (m : M S A) : Prop :=
  ∀ st, (m st).1 ≠ Pending.

Module Variants.
Import JS Avatar.

(** The sizes of the responsive variants of [createWebP], and the two
    paths of a size next to a source path without its extension. *)
Definition sizes : list N := [150; 300; 460].

Definition jpgPath (base : list N) (size : N) : list N :=
  base ++ str "-" ++ dec size ++ str "w.jpg".
Definition webpResPath (base : list N) (size : N) : list N :=
  base ++ str "-" ++ dec size ++ str "w.webp".

(** The two encodings of a size, in the order the loop makes them. *)
Definition sized_pipelines (size : N) : list pipeline :=
  [resize_jpeg size 85 true; resize_webp size 75 6].

(** The state after the two encodings of a size have been written. *)
Definition variant_written (sourcePath base : list N) (size : N)
    (jpgBuffer webpResBuffer : list N) (st : state) : state :=
  record
    (Console (SizedVariant (basename (webpResPath base size))
                (length webpResBuffer)))
    (with_fs <[webpResPath base size := webpResBuffer]>
       (record (WriteFile (webpResPath base size) webpResBuffer)
          (record (Sharp sourcePath (resize_webp size 75 6))
             (record
                (Console (SizedVariant (basename (jpgPath base size))
                            (length jpgBuffer)))
                (with_fs <[jpgPath base size := jpgBuffer]>
                   (record (WriteFile (jpgPath base size) jpgBuffer)
                      (record (Sharp sourcePath (resize_jpeg size 85 true))
                         st))))))).

(** The first error in a sequence of results. *)
Fixpoint first_error {A} (rs : list (result A)) : option (list N) :=
  match rs with
  | [] => None
  | Ok _ :: rs' => first_error rs'
  | Error e :: _ => Some e
  end.

(** Events of the fetcher: a request, or the line that announces a
    redirect. *)
Definition fetches (e : event) : Prop :=
  match e with
  | Request _ | Console (FollowingRedirect _) => True
  | _ => False
  end.

(** Events other than the warning that no WebP file could be created. *)
Definition not_warning (e : event) : Prop :=
  match e with
  | Console (WebPNotSmaller _) => False
  | _ => True
  end.

(** A stage that leaves the WebP file name as it was or sets it to [v],
    and adds no warning to the trace. *)
Definition webp_named (v : list N) (st st' : state) : Prop :=
  (AVATAR_WEBP_FILENAME st' = AVATAR_WEBP_FILENAME st
   ∨ AVATAR_WEBP_FILENAME st' = v)
  ∧ ∃ t, trace st' = trace st ++ t ∧ Forall not_warning t.

(** The URL of a sized variant, and the value of a [srcset] attribute
    that offers every size in one format: the candidates, each with its
    width descriptor, separated by commas. *)
Definition candidate (format : string) (size : N) : list N :=
  str "/avatar-" ++ dec size ++ str "w." ++ str format.

Fixpoint join (separator : list N) (items : list (list N)) : list N :=
  match items with
  | [] => []
  | [item] => item
  | item :: rest => item ++ separator ++ join separator rest
  end.

Definition srcset_value (format : string) : list N :=
  join (str ", ")
    ((λ size, candidate format size ++ str " " ++ dec size ++ str "w")
     <$> sizes).

(** The file name of the master for fetched bytes. *)
Definition master_name (imageData : list N) : list N :=
  str "avatar" ++ (detect imageData).2.

(** The master the optimizer stores for fetched bytes and the output of
    [imagemin]. *)
Definition master (imageData optimized : list N) : list N :=
  if (length optimized <? length imageData)%nat then optimized
  else imageData.
End Variants.

(** ** The artifacts of the compression stage *)

Module Artifacts.
Import JS Compress.

(** The artifact of a file, the artifacts of an algorithm's list, and the
    content of an artifact once the stage has run over the files [m]. *)
Definition artifact (a : algorithm) (file : list N) : list N :=
  path_join DIST_DIR file ++ suffix a.

Definition artifacts (a : algorithm) : list (list N) :=
  artifact a <$> FILES_TO_COMPRESS a.

Definition artifact_after (compress : call → list N → result (list N))
    (c : call) (a : algorithm) (file : list N)
    (m : gmap (list N) (list N)) : option (list N) :=
  match m !! path_join DIST_DIR file with
  | Some content =>
      match compress c content with
      | Ok compressed => Some compressed
      | Error _ => m !! artifact a file
      end
  | None => m !! artifact a file
  end.
End Artifacts.

(** ** Vocabulary for the copying scripts *)

Module Copies.
Import JS Build.

(** The files of a list up to the first one that is missing from a
    directory. *)
Fixpoint leading (m : gmap (list N) (list N)) (dir : list N)
    (files : list (list N)) : list (list N) :=
  match files with
  | [] => []
  | file :: rest =>
      match m !! path_join dir file with
      | Some _ => file :: leading m dir rest
      | None => []
      end
  end.

(** The copies a trace makes, and the texts it hands to the minifier, in
    order. *)
Definition copied (t : list event) : list (list N * list N) :=
  omap (λ e, match e with
             | CopyFile src dest => Some (src, dest)
             | _ => None
             end) t.

Definition minified (t : list event) : list (list N) :=
  omap (λ e, match e with Minify input => Some input | _ => None end) t.

(** The state after a font has been copied and reported. *)
Definition font_copied (src dest font content : list N) (st : state)
    : state :=
  record (Console (FontCopied font (length content)))
    (with_fs <[dest := content]> (record (CopyFile src dest) st)).

End Copies.

(** ** Further sample environments *)

Module Cases.
Import JS Avatar.

(** The first bytes of a JPEG file. *)
Definition jpeg : list N := [0xFF; 0xD8; 0xFF; 0xE0].

(** The avatar URL serves a JPEG. *)
Definition serving_jpeg (url : option (list N)) : response :=
  Response 200 (str "OK") None [[0xFF; 0xD8]; [0xFF; 0xE0]] true.


(** The avatar URL answers 302 without a [Location]; the default host
    serves a page. *)
Definition bare (url : option (list N)) : response :=
  if bool_decide (url = Some AVATAR_URL)
  then Response 302 (str "Found") None [] true
  else Response 200 (str "OK") None [str "It works!"] true.

(** An encoder that fails on the WebP variant of width 300. *)
Definition flaky (input : list N) (p : pipeline) : result (list N) :=
  match p with
  | resize_webp size _ _ =>
      if size =? 300 then Error (str "out of memory")
      else Ok [0x52; 0x49; size]
  | _ => Sample.sharp input p
  end.

(** A page with the two [og:image] dimension tags, and a page that
    refers to nothing the rewriter looks for. *)
Definition tagged : list N :=
  str "<meta property=" ++ dq (str "og:image:width") ++ str " content="
  ++ dq (str "1") ++ str "><meta property=" ++ dq (str "og:image:height")
  ++ str " content=" ++ dq (str "1") ++ str ">".

Definition plain : list N := str "<html><body>hello</body></html>".

(** A page saved as Latin-1: the byte of its accented letter is no
    UTF-8. *)
Definition latin1 : list N := str "<p>caf" ++ [0xE9] ++ str "</p>".

(** The build directory with a page, before the avatar is fetched. *)
Definition site (html : list N) : state :=
  initial Sample.dist {[ HTML_FILE Sample.dist := html ]}.
End Cases.

Module BuildCases.
Import JS Build.

Definition src : list N := str "/site/src/main/html".
Definition dist : list N := str "/site/dist".
Definition fontsource : list N :=
  str "/site/node_modules/@fontsource/roboto/files".
Definition fonts : list N := str "/site/dist/fonts".





(** The installed fonts, and the same without the weight 400. *)
Definition installed : state :=
  State {[ path_join fontsource (str "roboto-latin-300-normal.woff2")
             := [0x77; 0x4F; 0x46; 0x32; 3];
           path_join fontsource (str "roboto-latin-400-normal.woff2")
             := [0x77; 0x4F; 0x46; 0x32; 4];
           path_join fontsource (str "roboto-latin-500-normal.woff2")
             := [0x77; 0x4F; 0x46; 0x32; 5] ]} [].

Definition installed_without_400 : state :=
  with_fs
    (delete (path_join fontsource (str "roboto-latin-400-normal.woff2")))
    installed.
End BuildCases.

(** ** Reasoning about the monad *)

Section MonadFacts.
Context {S : Type} {R : S → S → Prop} `{!PreOrder R}.

Lemma guarantees_ret {A} (a : A) : guarantees R (ret a).
Proof. intros st. reflexivity. Qed.

Lemma guarantees_throw {A} e : guarantees R (@throw S A e).
Proof. intros st. reflexivity. Qed.

Lemma guarantees_lift {A} (o : outcome A) : guarantees R (lift o).
Proof. intros st. reflexivity. Qed.

Lemma guarantees_await {A} (r : result A) : guarantees R (await r).
Proof. intros st. unfold await. destruct r; reflexivity. Qed.

Lemma guarantees_get : guarantees R get.
Proof. intros st. reflexivity. Qed.

Lemma guarantees_modify f : (∀ st, R st (f st)) → guarantees R (modify f).
Proof. intros H st. apply H. Qed.

Lemma guarantees_bind {A B} (m : M S A) (k : A → M S B) :
  guarantees R m → (∀ a, guarantees R (k a)) → guarantees R (bind m k).
Proof.
  intros Hm Hk st. unfold bind. specialize (Hm st).
  destruct (m st) as [[a|e|] st']; simpl in *; [|done..].
  etransitivity; [exact Hm | apply Hk].
Qed.

Lemma guarantees_try_catch {A} (m : M S A) h :
  guarantees R m → (∀ e, guarantees R (h e)) →
  guarantees R (try_catch m h).
Proof.
  intros Hm Hh st. unfold try_catch. specialize (Hm st).
  destruct (m st) as [[a|e|] st']; simpl in *; [done| |done].
  etransitivity; [exact Hm | apply Hh].
Qed.
End MonadFacts.

(** Splits a frame goal along the structure of the program. *)
Ltac frame_step :=
  first
    [ apply guarantees_ret | apply guarantees_throw | apply guarantees_lift
    | apply guarantees_await | apply guarantees_get
    | apply guarantees_bind; [|intros ?]
    | apply guarantees_try_catch; [|intros ?] ].

(** ** The source fetcher *)

Module Fetcher.
Import JS Avatar Observe.

Lemma requests_app t1 t2 : requests (t1 ++ t2) = requests t1 ++ requests t2.
Proof. apply omap_app. Qed.

Section Network.
Variable https_get : option (list N) → response.

Lemma download_followed fuel in_callback url location st :
  followed (https_get (Some url)) = Some location →
  download https_get (S fuel) in_callback (Some url) st
  = download https_get fuel true (Some location)
      (record (Console (FollowingRedirect (Some location)))
         (record (Request (Some url)) st)).
Proof.
  intros H. cbn [download]. unfold followed, redirect in H.
  destruct (https_get (Some url)) as [code msg loc chunks complete|e|e];
    [|done..].
  unfold bind at 1. cbn [emit modify].
  destruct ((code =? 301) || (code =? 302)); [|done].
  by simplify_eq.
Qed.


(** A redirect without [Location] header hands [undefined] on. *)
Lemma download_no_location fuel in_callback url code msg chunks complete
    st :
  https_get (Some url) = Response code msg None chunks complete →
  (code =? 301) || (code =? 302) = true →
  download https_get (S fuel) in_callback (Some url) st
  = download https_get fuel true None
      (record (Console (FollowingRedirect None))
         (record (Request (Some url)) st)).
Proof.
  intros H Hcode. cbn [download]. rewrite H.
  unfold bind at 1. cbn [emit modify]. by rewrite Hcode.
Qed.

(** The request without a URL has no response callback. *)
Lemma download_undefined fuel in_callback st :
  download https_get (S fuel) in_callback None st
  = match https_get None with
    | Response _ _ _ _ _ => (Pending, record (Request None) st)
    | NetError e => (Throw e, record (Request None) st)
    | Thrown e => (if in_callback then Val (Exited 1) else Throw e, st)
    end.
Proof.
  cbn [download].
  destruct (https_get None) as [code msg loc chunks complete|e|e];
    [done|done|by destruct in_callback].
Qed.


(** A chain of redirects is followed to its end. *)
Lemma download_chain u us v fuel in_callback st :
  redirects https_get u us v →
  ∃ st',
    download https_get (length us + fuel) in_callback (Some u) st
    = download https_get fuel
        (in_callback || bool_decide (us ≠ [])) (Some v) st'
    ∧ fs st' = fs st
    ∧ requests (trace st') = requests (trace st) ++ (Some <$> us).
Proof.
  intros Hchain. revert in_callback st.
  induction Hchain as [u|u location us v Hu _ IH]; intros in_callback st.
  - exists st. rewrite orb_false_r, app_nil_r. done.
  - cbn [length Nat.add]. rewrite (download_followed _ _ _ _ _ Hu).
    destruct (IH true
                (record (Console (FollowingRedirect (Some location)))
                   (record (Request (Some u)) st)))
      as (st' & Hrun & Hfs & Hreq).
    exists st'. rewrite Hrun, Hfs, Hreq, orb_true_l.
    rewrite (bool_decide_eq_true_2 (u :: us ≠ [])) by done.
    rewrite orb_true_r. split; [done|]. split; [done|].
    cbn [trace record]. rewrite !requests_app. cbn.
    by rewrite app_nil_r, <- app_assoc.
Qed.
End Network.




(** C10: the redirect recursion has no hop bound.  When the URLs that can
    be reached from the avatar URL all answer 301 or 302 with a
    [Location] (a redirect cycle), the promise of [downloadAvatar] is
    still pending after any number of requests, and every one of them has
    been issued. *)
Theorem downloadAvatar_redirect_cycle_never_settles
    (https_get : option (list N) → response)
    (closed : list N → Prop) :
  closed AVATAR_URL →
  (∀ u, closed u →
        ∃ v, followed (https_get (Some u)) = Some v ∧ closed v) →
  ∀ fuel st,
    (downloadAvatar https_get fuel st).1 = Pending
    ∧ length (requests (trace (downloadAvatar https_get fuel st).2))
      = (length (requests (trace st)) + fuel)%nat.
Proof.
  intros H0 Hclosed fuel. unfold downloadAvatar.
  generalize false. generalize AVATAR_URL H0. clear H0.
  induction fuel as [|fuel IH]; intros u Hu in_callback st.
  - simpl. split; [done | lia].
  - destruct (Hclosed u Hu) as (v & Hv & Hcv).
    rewrite (download_followed _ _ _ _ _ _ Hv).
    destruct (IH v Hcv true
                (record (Console (FollowingRedirect (Some v)))
                   (record (Request (Some u)) st))) as [-> ->].
    split; [done|]. cbn [trace record].
    rewrite !requests_app, !length_app. simpl. lia.
Qed.

Lemma downloadAvatar_redirect_cycle_never_settles_witness :
  (downloadAvatar Sample.cycle 1000 (initial Sample.dist ∅)).1 = Pending
  ∧ length (requests (trace (downloadAvatar Sample.cycle 1000
                               (initial Sample.dist ∅)).2))
    = (0 + 1000)%nat.
Proof.
  apply (downloadAvatar_redirect_cycle_never_settles Sample.cycle
           (λ u, u = AVATAR_URL ∨ u = Sample.cdn)).
  - by left.
  - intros u [->| ->].
    + exists Sample.cdn. split; [reflexivity | by right].
    + exists AVATAR_URL. split; [reflexivity | by left].
Defined.
End Fetcher.

(** ** Facts on strings and patterns *)

Module JSFacts.
Import JS.

Lemma starts_with_spec l s : starts_with l s = true ↔ ∃ t, s = l ++ t.
Proof.
  revert s. induction l as [|a l IH]; intros s; simpl.
  - split; [by exists s | done].
  - destruct s as [|b s].
    + split; [done | by intros [t ?]].
    + rewrite andb_true_iff, N.eqb_eq, IH. split.
      * intros [-> [t ->]]. by exists t.
      * intros [t Ht]. simplify_eq. split; [done | by exists t].
Qed.

Lemma matches_Eos s : matches [Eos] s = if s is [] then Some O else None.
Proof. by destruct s. Qed.

(** An alternation of literals before [$] matches exactly the literals. *)
Lemma first_alt_Eos_Some alts s n :
  first_alt alts (matches [Eos]) s = Some n → s ∈ alts ∧ n = length s.
Proof.
  induction alts as [|a alts IH]; cbn [first_alt]; [done|].
  destruct (starts_with a s) eqn:Ha.
  - apply starts_with_spec in Ha as [t ->].
    rewrite drop_app_length, matches_Eos. destruct t.
    + intros ?; simplify_eq. rewrite app_nil_r. split; [left | lia].
    + intros [? ?]%IH. split; [by right | done].
  - intros [? ?]%IH. split; [by right | done].
Qed.

Lemma first_alt_Eos_elem alts s :
  s ∈ alts → first_alt alts (matches [Eos]) s = Some (length s).
Proof.
  induction alts as [|a alts IH]; cbn [first_alt];
    [by intros ?%elem_of_nil|].
  intros Hs. destruct (starts_with a s) eqn:Ha.
  - apply starts_with_spec in Ha as [t ->].
    rewrite drop_app_length. rewrite matches_Eos. destruct t as [|c t].
    + by rewrite app_nil_r, Nat.add_0_r.
    + apply IH. apply elem_of_cons in Hs as [Hs|Hs]; [|done].
      apply (f_equal length) in Hs. rewrite length_app in Hs.
      simpl in Hs. lia.
  - apply IH. apply elem_of_cons in Hs as [->|Hs]; [|done].
    assert (starts_with a a = true) as Haa
      by (apply starts_with_spec; exists []; by rewrite app_nil_r).
    congruence.
Qed.

Lemma matches_extension alts c s :
  matches [Chr 46; OneOf alts; Eos] (c :: s)
  = if c =? 46 then S <$> first_alt alts (matches [Eos]) s else None.
Proof. done. Qed.

(** [path.replace(/\.(a|b|c)$/, r)] on a path that ends in one of the
    extensions swaps the extension for [r]. *)
Lemma replace_extension alts r base a :
  (∀ a', a' ∈ alts → 46 ∉ a') →
  a ∈ alts →
  replace [Chr 46; OneOf alts; Eos] r (base ++ 46 :: a) = base ++ r.
Proof.
  intros Hdot Ha. induction base as [|c base IH].
  - cbn [app replace]. rewrite matches_extension, N.eqb_refl.
    rewrite (first_alt_Eos_elem _ _ Ha). cbn [fmap option_fmap option_map].
    cbn [drop]. by rewrite drop_all, app_nil_r.
  - cbn [app replace].
    destruct (matches _ (c :: base ++ 46 :: a)) as [n|] eqn:Hm.
    + exfalso. rewrite matches_extension in Hm. destruct (c =? 46); [|done].
      destruct (first_alt _ _ _) as [k|] eqn:Hk; [|done].
      apply first_alt_Eos_Some in Hk as [Hk _].
      apply (Hdot _ Hk). set_solver.
    + by rewrite IH.
Qed.

(** Without an image extension the path is left as it is. *)
Lemma replace_extension_none alts r s :
  (∀ t a, a ∈ alts → s ≠ t ++ 46 :: a) →
  replace [Chr 46; OneOf alts; Eos] r s = s.
Proof.
  induction s as [|c s IH]; intros Hs; [done|].
  cbn [replace].
  destruct (matches _ (c :: s)) as [n|] eqn:Hm.
  - exfalso. rewrite matches_extension in Hm.
    destruct (c =? 46) eqn:Hc; [|done].
    apply N.eqb_eq in Hc as ->.
    destruct (first_alt _ _ _) as [k|] eqn:Hk; [|done].
    apply first_alt_Eos_Some in Hk as [Hk _].
    by apply (Hs [] s).
  - rewrite IH; [done|]. intros t a Ha ->. by apply (Hs (c :: t) a).
Qed.
End JSFacts.

(** ** The optimizer and the variant generator *)

Module Optimizer.
Import JS JSFacts Avatar Observe.

#[export] Instance only_writes_preorder E W : PreOrder (only_writes E W).
Proof.
  split.
  - intros st. repeat split; try done. exists []. by rewrite app_nil_r.
  - intros st1 st2 st3 (Hf1 & Hn1 & Hd1 & t1 & Ht1 & Hq1)
      (Hf2 & Hn2 & Hd2 & t2 & Ht2 & Hq2).
    split; [|split; [|split]].
    + intros p Hp. by rewrite Hf2, Hf1.
    + congruence.
    + congruence.
    + exists (t1 ++ t2). split.
      * by rewrite Ht2, Ht1, app_assoc.
      * by apply Forall_app.
Qed.

Section Frame.
Variable E : pipeline → Prop.
Variable W : list N → Prop.

Lemma emit_quiet e : quiet E W e → guarantees (only_writes E W) (emit e).
Proof.
  intros He. apply guarantees_modify. intros st.
  repeat split; try done. exists [e]. split; [done|]. by constructor.
Qed.

Lemma console_log_quiet l : guarantees (only_writes E W) (console_log l).
Proof. by apply emit_quiet. Qed.

Lemma readFile_quiet p : guarantees (only_writes E W) (readFile p).
Proof.
  unfold readFile. apply guarantees_bind; [apply guarantees_get|].
  intros st. destruct (fs st !! p); frame_step.
Qed.

Lemma writeFile_quiet p c :
  W p → guarantees (only_writes E W) (writeFile p c).
Proof.
  intros Hp. apply guarantees_bind; [by apply emit_quiet|].
  intros _. apply guarantees_modify. intros st.
  repeat split; try done.
  - intros p' Hp'. simpl. apply lookup_insert_ne. by intros ->.
  - exists []. by rewrite app_nil_r.
Qed.

Lemma set_AVATAR_WEBP_FILENAME_quiet v :
  guarantees (only_writes E W) (modify (set_AVATAR_WEBP_FILENAME v)).
Proof.
  apply guarantees_modify. intros st. repeat split; try done.
  exists []. by rewrite app_nil_r.
Qed.

Lemma sharp_quiet sharp_toBuffer p pl :
  E pl → guarantees (only_writes E W) (sharp sharp_toBuffer p pl).
Proof.
  intros Hpl. apply guarantees_bind; [by apply emit_quiet|]. intros _.
  apply guarantees_bind; [apply readFile_quiet|]. intros b.
  apply guarantees_await.
Qed.

Ltac frame :=
  repeat first
    [ apply console_log_quiet | apply readFile_quiet
    | apply set_AVATAR_WEBP_FILENAME_quiet
    | apply sharp_quiet; solve [auto]
    | apply writeFile_quiet; solve [auto] | frame_step ].

Lemma quality_loop_quiet sharp_toBuffer qualities sourcePath webpPath
    originalSize :
  (∀ quality, E (webp quality 6)) →
  W webpPath →
  guarantees (only_writes E W)
    (quality_loop sharp_toBuffer qualities sourcePath webpPath
       originalSize).
Proof.
  intros He Hw. induction qualities as [|quality rest IH]; simpl.
  - apply guarantees_ret.
  - apply guarantees_bind.
    + apply guarantees_try_catch.
      * apply guarantees_bind; [by apply sharp_quiet|].
        intros b. destruct (_ <? _)%nat; frame.
      * intros e. frame.
    + intros [|]; [frame | apply IH].
Qed.

Lemma sizes_loop_quiet sharp_toBuffer sizes sourcePath :
  (∀ size quality mozjpeg, E (resize_jpeg size quality mozjpeg)) →
  (∀ size quality effort, E (resize_webp size quality effort)) →
  (∀ r, head r = Some 45 → W (replace ext' r sourcePath)) →
  guarantees (only_writes E W)
    (sizes_loop sharp_toBuffer sizes sourcePath).
Proof.
  intros Hj Hp Hw. induction sizes as [|size rest IH]; simpl.
  - apply guarantees_ret.
  - apply guarantees_bind; [by apply sharp_quiet|]. intros b.
    apply guarantees_bind; [by apply writeFile_quiet, Hw|].
    intros _. apply guarantees_bind; [apply console_log_quiet|].
    intros _. apply guarantees_bind; [by apply sharp_quiet|].
    intros b'.
    apply guarantees_bind; [by apply writeFile_quiet, Hw|].
    intros _. apply guarantees_bind; [apply console_log_quiet|].
    intros _. apply IH.
Qed.

Lemma createWebP_quiet sharp_toBuffer sourcePath originalSize :
  (∀ p, E p) →
  W (replace ext' (str ".webp") sourcePath) →
  (∀ r, head r = Some 45 → W (replace ext' r sourcePath)) →
  guarantees (only_writes E W)
    (createWebP sharp_toBuffer sourcePath originalSize).
Proof.
  intros He Hw Hs. unfold createWebP.
  apply guarantees_bind; [by apply quality_loop_quiet|].
  intros _. apply guarantees_bind; [apply guarantees_get|].
  intros st. apply guarantees_bind.
  - case_bool_decide; frame.
  - intros _. by apply sizes_loop_quiet.
Qed.
End Frame.

(** Settles a property of every element of a list of literals. *)
Ltac decide_forall :=
  apply Forall_forall; apply (bool_decide_unpack _); vm_compute.

Lemma replace_ext r base a :
  a ∈ image_extensions → replace ext r (base ++ 46 :: a) = base ++ r.
Proof.
  intros Ha. apply (replace_extension image_extensions); [|done].
  by decide_forall.
Qed.

Lemma replace_ext' r base a :
  a ∈ [str "jpg"; str "jpeg"; str "png"] →
  replace ext' r (base ++ 46 :: a) = base ++ r.
Proof.
  intros Ha. apply (replace_extension [str "jpg"; str "jpeg"; str "png"]);
    [|done].
  by decide_forall.
Qed.

Lemma moved_master filePath correctPath original st :
  fs st !! filePath = Some original →
  AVATAR_DEST st = filePath →
  fs (moved filePath correctPath original st) !! correctPath
  = Some original
  ∧ AVATAR_DEST (moved filePath correctPath original st) = correctPath.
Proof.
  intros Hfile Hdest. unfold moved. case_bool_decide as Hpath; simpl.
  - by rewrite lookup_insert_eq.
  - by rewrite Hpath.
Qed.

Lemma detect_extension original :
  ∃ x, (detect original).2 = 46 :: x ∧ x ∈ [str "png"; str "jpg"].
Proof.
  unfold detect.
  destruct (isJPEG original), (isPNG original); simpl; eexists;
    (split; [done|]); set_solver.
Qed.

Section Run.
Variable imagemin_buffer : list N → list plugin → result (list N).
Variable sharp_toBuffer : list N → pipeline → result (list N).

Lemma optimizeImage_run filePath original st :
  fs st !! filePath = Some original →
  optimizeImage imagemin_buffer sharp_toBuffer filePath st
  = let correctPath := replace ext (detect original).2 filePath in
    let st3 :=
      record (Imagemin original (plugins original))
        (moved filePath correctPath original
           (record (Console (FormatDetected (detect original).1)) st)) in
    match imagemin_buffer original (plugins original) with
    | Ok optimized =>
        createWebP sharp_toBuffer correctPath (length original)
          (kept correctPath original optimized st3)
    | Error e => (Throw e, st3)
    end.
Proof.
  intros Hfile. unfold optimizeImage, moved, kept.
  unfold bind at 1. unfold readFile at 1, bind at 1, get at 1.
  rewrite Hfile. cbn [ret].
  destruct (detect original) as [format extension]. cbn [fst snd].
  unfold bind at 1. cbn [console_log emit modify].
  unfold bind at 1.
  case_bool_decide.
  - unfold rename, readFile, bind, get, emit, modify, await, console_log.
    cbn -[str replace ext Nat.ltb basename].
    rewrite Hfile. cbn -[str replace ext Nat.ltb basename].
    destruct (imagemin_buffer _ _) as [optimized|]; [|done].
    by destruct (_ <? _)%nat.
  - unfold bind, emit, modify, await, console_log, ret.
    cbn -[str replace ext Nat.ltb basename].
    destruct (imagemin_buffer _ _) as [optimized|]; [|done].
    by destruct (_ <? _)%nat.
Qed.

(** [createWebP] on a path with an image extension leaves that file
    alone. *)
Lemma createWebP_source base x originalSize :
  x ∈ [str "png"; str "jpg"] →
  guarantees (only_writes (λ _, True) (λ p, p ≠ base ++ 46 :: x))
    (createWebP sharp_toBuffer (base ++ 46 :: x) originalSize).
Proof.
  intros Hx.
  assert (∀ r, r ≠ 46 :: x →
            replace ext' r (base ++ 46 :: x) ≠ base ++ 46 :: x) as Hne.
  { intros r Hr. rewrite replace_ext'.
    - by intros ?%(inj (app base)).
    - clear Hr. revert x Hx. by decide_forall. }
  apply createWebP_quiet; [done| |].
  - apply Hne. clear Hne. revert x Hx. by decide_forall.
  - intros r Hr. apply Hne. by intros ->.
Qed.
End Run.

(** C1: the optimizer never stores a master that is larger than the
    fetched bytes.  Whatever the codecs do, after [optimizeImage] the
    master file holds the output of [imagemin] when that is strictly
    smaller than the original, and the original bytes otherwise. *)
Theorem stored_master_never_exceeds_original
    (imagemin_buffer : list N → list plugin → result (list N))
    (sharp_toBuffer : list N → pipeline → result (list N))
    (st : state) (base a original : list N) :
  a ∈ image_extensions →
  AVATAR_DEST st = base ++ str "." ++ a →
  fs st !! (base ++ str "." ++ a) = Some original →
  let st' :=
    (optimizeImage imagemin_buffer sharp_toBuffer
       (base ++ str "." ++ a) st).2 in
  let stored :=
    match imagemin_buffer original (plugins original) with
    | Ok optimized =>
        if (length optimized <? length original)%nat
        then optimized else original
    | Error _ => original
    end in
  fs st' !! AVATAR_DEST st' = Some stored
  ∧ (length stored ≤ length original)%nat.
Proof.
  intros Ha Hdest Hfile. change (str "." ++ a) with (46 :: a) in *.
  cbv zeta.
  rewrite (optimizeImage_run imagemin_buffer sharp_toBuffer _ original)
    by done.
  destruct (detect_extension original) as (x & -> & Hx).
  rewrite replace_ext by done. cbv zeta.
  set (st2 := moved _ _ _ _).
  assert (fs st2 !! (base ++ 46 :: x) = Some original
          ∧ AVATAR_DEST st2 = base ++ 46 :: x) as [Hfs2 Hdest2]
    by (by apply moved_master).
  destruct (imagemin_buffer _ _) as [optimized|e]; simpl.
  - destruct (createWebP_source sharp_toBuffer base x (length original) Hx
                (kept (base ++ 46 :: x) original optimized
                   (record (Imagemin original (plugins original)) st2)))
      as (Hfs & _ & -> & _).
    replace (AVATAR_DEST (kept _ _ _ _)) with (base ++ 46 :: x)
      by (unfold kept; by destruct (_ <? _)%nat).
    rewrite Hfs by (intros Hne; by apply Hne). unfold kept.
    destruct (_ <? _)%nat eqn:Hlt; simpl.
    + rewrite lookup_insert_eq. split; [done|].
      apply Nat.ltb_lt in Hlt. lia.
    + by rewrite Hfs2.
  - by rewrite Hdest2, Hfs2.
Qed.

Lemma stored_master_never_exceeds_original_witness :
  let st' :=
    (optimizeImage Sample.imagemin Sample.sharp
       (str "/site/dist/avatar" ++ str "." ++ str "png")
       (Sample.fetched Sample.png)).2 in
  fs st' !! AVATAR_DEST st' = Some [0x4E; 0x47; 0x0D; 0x0A]
  ∧ (length [0x4E; 0x47; 0x0D; 0x0A] ≤ length Sample.png)%nat.
Proof.
  apply (stored_master_never_exceeds_original Sample.imagemin Sample.sharp
           (Sample.fetched Sample.png) (str "/site/dist/avatar")
           (str "png") Sample.png).
  - apply (bool_decide_unpack _). by vm_compute.
  - reflexivity.
  - by vm_compute.
Defined.

Lemma quiet_not_renames E W t :
  Forall (quiet E W) t → Forall (λ e, ¬ renames_or_optimizes e) t.
Proof.
  intros Ht. eapply Forall_impl; [exact Ht|].
  intros [] Hq Hr; simpl in *; done.
Qed.

(** C9: bytes that start with neither magic number are classified as
    unknown; the file keeps its [.png] name (nothing is renamed and the
    globals stay as they are) and its bytes go through the JPEG
    compressor, [imageminMozjpeg], the one call to [imagemin]. *)
Theorem unknown_format_keeps_png_name_and_uses_mozjpeg
    (imagemin_buffer : list N → list plugin → result (list N))
    (sharp_toBuffer : list N → pipeline → result (list N))
    (st : state) (base original : list N) :
  isPNG original = false →
  isJPEG original = false →
  fs st !! (base ++ str ".png") = Some original →
  let st' :=
    (optimizeImage imagemin_buffer sharp_toBuffer
       (base ++ str ".png") st).2 in
  ∃ rest,
    trace st'
    = trace st
      ++ [Console (FormatDetected unknown);
          Imagemin original [imageminMozjpeg 85 true]]
      ++ rest
    ∧ Forall (λ e, ¬ renames_or_optimizes e) rest
    ∧ AVATAR_FILENAME st' = AVATAR_FILENAME st
    ∧ AVATAR_DEST st' = AVATAR_DEST st
    ∧ is_Some (fs st' !! (base ++ str ".png")).
Proof.
  intros Hpng Hjpeg Hfile. cbv zeta.
  rewrite (optimizeImage_run imagemin_buffer sharp_toBuffer _ original)
    by done.
  unfold detect, plugins. rewrite Hpng, Hjpeg. cbn [fst snd].
  change (str ".png") with (46 :: str "png") in *.
  rewrite replace_ext by (apply (bool_decide_unpack _); by vm_compute).
  cbv zeta. unfold moved. rewrite bool_decide_eq_false_2 by (by intros []).
  destruct (imagemin_buffer _ _) as [optimized|e].
  - destruct (createWebP_source sharp_toBuffer base (str "png")
                (length original)
                ltac:(apply (bool_decide_unpack _); by vm_compute)
                (kept (base ++ 46 :: str "png") original optimized
                   (record
                      (Imagemin original [imageminMozjpeg 85 true])
                      (record (Console (FormatDetected unknown)) st))))
      as (Hfs & -> & -> & t & -> & Ht).
    rewrite Hfs by (intros Hne; by apply Hne).
    apply quiet_not_renames in Ht. unfold kept.
    destruct (_ <? _)%nat; simpl.
    + eexists (_ :: _ :: t). rewrite <- !app_assoc. simpl.
      split; [done|]. split; [|by rewrite lookup_insert_eq].
      repeat constructor; auto.
    + eexists (_ :: t). rewrite <- !app_assoc. simpl.
      split; [done|]. split; [|by rewrite Hfile].
      repeat constructor; auto.
  - exists []. simpl. rewrite <- !app_assoc. simpl. by rewrite Hfile.
Qed.

Lemma unknown_format_keeps_png_name_and_uses_mozjpeg_witness :
  let st := Sample.fetched Sample.gif in
  let st' :=
    (optimizeImage Sample.imagemin Sample.sharp
       (str "/site/dist/avatar" ++ str ".png") st).2 in
  ∃ rest,
    trace st'
    = trace st
      ++ [Console (FormatDetected unknown);
          Imagemin Sample.gif [imageminMozjpeg 85 true]]
      ++ rest
    ∧ Forall (λ e, ¬ renames_or_optimizes e) rest
    ∧ AVATAR_FILENAME st' = AVATAR_FILENAME st
    ∧ AVATAR_DEST st' = AVATAR_DEST st
    ∧ is_Some (fs st' !! (str "/site/dist/avatar" ++ str ".png")).
Proof.
  apply (unknown_format_keeps_png_name_and_uses_mozjpeg Sample.imagemin
           Sample.sharp (Sample.fetched Sample.gif)
           (str "/site/dist/avatar") Sample.gif).
  - reflexivity.
  - reflexivity.
  - by vm_compute.
Defined.
End Optimizer.

(** ** The quality search of the variant generator *)

Module QualitySearch.
Import JS JSFacts Avatar Observe Optimizer.

Lemma attempts_snoc t e :
  attempts (t ++ [e])
  = attempts t ++ match e with
                  | Sharp _ (webp quality _) => [quality]
                  | _ => []
                  end.
Proof.
  unfold attempts. rewrite omap_app. f_equal.
  by destruct e as [| | ? []| | | |].
Qed.

Lemma writes_snoc path t e :
  writes path (t ++ [e])
  = writes path t ++ match e with
                     | WriteFile p content =>
                         if bool_decide (p = path) then [content] else []
                     | _ => []
                     end.
Proof.
  unfold writes. rewrite omap_app. f_equal.
  destruct e; try done. simpl. by case_bool_decide.
Qed.

Section Search.
Variable sharp_toBuffer : list N → pipeline → result (list N).
(** The content of the source file, if there is one, and the size to
    beat. *)
Variable source : option (list N).
Variable originalSize : nat.

Local Abbreviation accepted :=
  (Observe.accepted sharp_toBuffer source originalSize).
Local Abbreviation tried := (Observe.tried sharp_toBuffer source originalSize).
Local Abbreviation found := (Observe.found sharp_toBuffer source originalSize).

Lemma tried_subseteq qualities : tried qualities ⊆ qualities.
Proof.
  induction qualities as [|q rest IH]; [done|]. simpl.
  intros Q [->|HQ]%elem_of_cons; [left|]. right.
  destruct (accepted q); [by apply elem_of_nil in HQ | by apply IH].
Qed.

Lemma tried_halts qualities Q1 Q2 :
  StronglySorted (λ a b, b < a) qualities →
  Q1 ∈ qualities → Q2 < Q1 → is_Some (accepted Q1) →
  Q2 ∉ tried qualities.
Proof.
  induction 1 as [|q rest Hsorted IH Hq]; [by intros ?%elem_of_nil|].
  intros HQ1 Hlt Hacc. simpl. rewrite Forall_forall in Hq.
  apply elem_of_cons in HQ1 as [->|HQ1].
  - destruct Hacc as [b ->]. apply not_elem_of_cons. split; [lia|].
    apply not_elem_of_nil.
  - apply not_elem_of_cons. split.
    + specialize (Hq _ HQ1). lia.
    + destruct (accepted q); [apply not_elem_of_nil | by apply IH].
Qed.

Lemma tried_absorbs qualities Q :
  StronglySorted (λ a b, b < a) qualities →
  Q ∈ qualities →
  (∀ Q', Q' ∈ qualities → Q < Q' → accepted Q' = None) →
  Q ∈ tried qualities.
Proof.
  induction 1 as [|q rest Hsorted IH Hq]; [by intros ?%elem_of_nil|].
  intros HQ Habove. simpl. rewrite Forall_forall in Hq.
  apply elem_of_cons in HQ as [->|HQ]; [left|].
  right. rewrite (Habove q); [|left|by apply Hq].
  apply IH; [done|]. intros Q' HQ' Hlt. apply Habove; [by right|done].
Qed.

Lemma found_None qualities :
  found qualities = None ↔ ∀ Q, Q ∈ qualities → accepted Q = None.
Proof.
  induction qualities as [|q rest IH]; simpl.
  - split; [by intros _ Q ?%elem_of_nil | done].
  - destruct (accepted q) as [b|] eqn:Hq.
    + split; [done|]. intros H. specialize (H q). rewrite Hq in H.
      discriminate H. left.
    + rewrite IH. split.
      * intros H Q [->|?]%elem_of_cons; auto.
      * intros H Q HQ. apply H. by right.
Qed.

(** One turn of the loop. *)
Lemma quality_loop_step quality rest sourcePath webpPath st :
  quality_loop sharp_toBuffer (quality :: rest) sourcePath webpPath
    originalSize st
  = let st1 := record (Sharp sourcePath (webp quality 6)) st in
    let next :=
      quality_loop sharp_toBuffer rest sourcePath webpPath originalSize in
    match fs st !! sourcePath with
    | Some input =>
        match sharp_toBuffer input (webp quality 6) with
        | Ok webpBuffer =>
            if (length webpBuffer <? originalSize)%nat then
              (Val tt,
               set_AVATAR_WEBP_FILENAME (basename webpPath)
                 (record
                    (Console (WebPCreated originalSize
                                (length webpBuffer) quality))
                    (with_fs <[webpPath := webpBuffer]>
                       (record (WriteFile webpPath webpBuffer) st1))))
            else next st1
        | Error e =>
            next (record (Console (WebPQualityFailed quality e)) st1)
        end
    | None =>
        next (record (Console (WebPQualityFailed quality ENOENT)) st1)
    end.
Proof.
  cbn [quality_loop].
  unfold sharp, readFile, writeFile, console_log, emit, modify, get,
    await, ret, throw.
  unfold bind, try_catch. cbv beta iota. cbn [record fs].
  destruct (fs st !! sourcePath) as [input|]; [|done].
  destruct (sharp_toBuffer input (webp quality 6)) as [webpBuffer|e];
    [|done].
  by destruct (_ <? _)%nat.
Qed.

(** The loop, level by level. *)
Lemma quality_loop_run qualities sourcePath webpPath st :
  fs st !! sourcePath = source →
  let st' :=
    (quality_loop sharp_toBuffer qualities sourcePath webpPath
       originalSize st).2 in
  attempts (trace st') = attempts (trace st) ++ tried qualities
  ∧ writes webpPath (trace st')
    = writes webpPath (trace st) ++ option_list (found qualities)
  ∧ fs st' !! webpPath
    = match found qualities with
      | Some webpBuffer => Some webpBuffer
      | None => fs st !! webpPath
      end.
Proof.
  revert st. induction qualities as [|quality rest IH]; intros st Hsrc.
  { simpl. by rewrite !app_nil_r. }
  cbv zeta. rewrite quality_loop_step. cbn [tried found].
  unfold Observe.accepted. rewrite Hsrc. cbv zeta.
  destruct source as [input|].
  - destruct (sharp_toBuffer input (webp quality 6)) as [webpBuffer|e].
    + destruct (_ <? _)%nat.
      * cbn [snd trace fs record set_AVATAR_WEBP_FILENAME with_fs].
        rewrite !attempts_snoc, !writes_snoc.
        rewrite bool_decide_eq_true_2 by done.
        rewrite lookup_insert_eq. cbn [option_list].
        by rewrite !app_nil_r.
      * edestruct IH as (-> & -> & ->); [by cbn|].
        cbn [trace fs record].
        rewrite !attempts_snoc, !writes_snoc.
        by rewrite app_nil_r, <- app_assoc.
    + edestruct IH as (-> & -> & ->); [by cbn|].
      cbn [trace fs record].
      rewrite !attempts_snoc, !writes_snoc.
      by rewrite !app_nil_r, <- app_assoc.
  - edestruct IH as (-> & -> & ->); [by cbn|].
    cbn [trace fs record].
    rewrite !attempts_snoc, !writes_snoc.
    by rewrite !app_nil_r, <- app_assoc.
Qed.

Lemma quality_loop_returns qualities sourcePath webpPath st :
  (quality_loop sharp_toBuffer qualities sourcePath webpPath
     originalSize st).1 = Val tt.
Proof.
  revert st. induction qualities as [|quality rest IH]; intros st;
    [done|].
  rewrite quality_loop_step. cbv zeta.
  destruct (fs st !! sourcePath) as [input|]; [|apply IH].
  destruct (sharp_toBuffer input (webp quality 6)); [|apply IH].
  destruct (_ <? _)%nat; [done | apply IH].
Qed.

Lemma found_Some qualities webpBuffer :
  StronglySorted (λ a b, b < a) qualities →
  found qualities = Some webpBuffer →
  ∃ Q, Q ∈ qualities ∧ accepted Q = Some webpBuffer
       ∧ ∀ Q', Q' ∈ qualities → Q < Q' → accepted Q' = None.
Proof.
  induction 1 as [|q rest Hsorted IH Hq]; [done|]. simpl.
  rewrite Forall_forall in Hq.
  destruct (accepted q) as [b|] eqn:Hacc.
  - intros ?; simplify_eq. exists q. split; [left|]. split; [done|].
    intros Q' [->|HQ']%elem_of_cons Hlt; [lia|].
    specialize (Hq _ HQ'). lia.
  - intros (Q & HQ & HQacc & Habove)%IH. exists Q.
    split; [by right|]. split; [done|].
    intros Q' [->|HQ']%elem_of_cons Hlt; [done | by apply Habove].
Qed.
End Search.

Lemma quiet_attempts E W t :
  (∀ quality effort, ¬ E (webp quality effort)) →
  Forall (quiet E W) t → attempts t = [].
Proof.
  intros HE. induction 1 as [|e t He _ IH]; [done|].
  change (e :: t) with ([e] ++ t). unfold attempts in *.
  rewrite omap_app, IH, app_nil_r.
  destruct e as [| | ? []| | | |]; try done. by apply HE in He.
Qed.

Lemma quiet_writes E W path t :
  ¬ W path → Forall (quiet E W) t → writes path t = [].
Proof.
  intros HW. induction 1 as [|e t He _ IH]; [done|].
  change (e :: t) with ([e] ++ t). unfold writes in *.
  rewrite omap_app, IH, app_nil_r.
  destruct e; try done. simpl. case_bool_decide; [|done].
  simpl in He. by subst.
Qed.

Lemma qualities_descending : StronglySorted (λ a b, b < a) qualities.
Proof. repeat constructor; lia. Qed.

(** After the quality loop, [createWebP] encodes sized variants only and
    does not write to the full-size WebP path. *)
Lemma createWebP_run sharp_toBuffer base a originalSize st :
  a ∈ image_extensions →
  let sourcePath := base ++ 46 :: a in
  let webpPath := base ++ str ".webp" in
  let st1 :=
    (quality_loop sharp_toBuffer qualities sourcePath webpPath
       originalSize st).2 in
  only_writes sized (λ p, p ≠ webpPath) st1
    (createWebP sharp_toBuffer sourcePath originalSize st).2.
Proof.
  intros Ha. cbv zeta. unfold createWebP.
  assert (a ∈ [str "jpg"; str "jpeg"; str "png"]) as Ha'.
  { revert a Ha. by decide_forall. }
  rewrite replace_ext' by done. fold qualities.
  unfold bind at 1.
  pose proof (quality_loop_returns sharp_toBuffer originalSize qualities
                (base ++ 46 :: a) (base ++ str ".webp") st) as Hret.
  destruct (quality_loop _ _ _ _ _ st) as [o st1]. simpl in Hret. subst o.
  cbn [snd].
  revert st1. apply guarantees_bind; [apply guarantees_get|].
  intros st1. apply guarantees_bind.
  - case_bool_decide; [apply console_log_quiet | apply guarantees_ret].
  - intros _. apply sizes_loop_quiet; [done..|].
    intros r Hr. rewrite replace_ext' by done.
    intros Heq%(inj (app base)). by subst.
Qed.

Lemma detected_image x :
  x ∈ [str "png"; str "jpg"] → x ∈ image_extensions.
Proof. revert x. by decide_forall. Qed.

Lemma webp_not_image a : a ∈ image_extensions → str ".webp" ≠ 46 :: a.
Proof. revert a. by decide_forall. Qed.

(** The search of [createWebP], against the size it is given. *)
Lemma createWebP_search sharp_toBuffer st base a originalSize :
  a ∈ image_extensions →
  let sourcePath := base ++ 46 :: a in
  let webpPath := base ++ str ".webp" in
  let st' := (createWebP sharp_toBuffer sourcePath originalSize st).2 in
  attempts (trace st')
  = attempts (trace st)
    ++ tried sharp_toBuffer (fs st !! sourcePath) originalSize qualities
  ∧ writes webpPath (trace st')
    = writes webpPath (trace st)
      ++ option_list
           (found sharp_toBuffer (fs st !! sourcePath) originalSize
              qualities)
  ∧ fs st' !! webpPath
    = match found sharp_toBuffer (fs st !! sourcePath) originalSize
              qualities with
      | Some webpBuffer => Some webpBuffer
      | None => fs st !! webpPath
      end.
Proof.
  intros Ha. cbv zeta.
  destruct (createWebP_run sharp_toBuffer base a originalSize st Ha)
    as (Hfs & _ & _ & t & Ht & Hquiet).
  destruct (quality_loop_run sharp_toBuffer (fs st !! (base ++ 46 :: a))
              originalSize qualities (base ++ 46 :: a)
              (base ++ str ".webp") st eq_refl)
    as (Hattempts & Hwrites & Hfound).
  split; [|split].
  - rewrite Ht. unfold attempts at 1. rewrite omap_app.
    fold (attempts t). rewrite (quiet_attempts _ _ _ (λ _ _ H, H) Hquiet).
    by rewrite app_nil_r.
  - rewrite Ht. unfold writes at 1. rewrite omap_app.
    fold (writes (base ++ str ".webp") t).
    rewrite (quiet_writes sized (λ p, p ≠ base ++ str ".webp") _ _
               (λ H, H eq_refl) Hquiet).
    by rewrite app_nil_r.
  - rewrite Hfs by (intros Hne; by apply Hne). done.
Qed.

(** The size check of [optimizeImage] neither encodes nor touches the
    WebP path. *)
Lemma kept_search correctPath webpPath original optimized st :
  webpPath ≠ correctPath →
  attempts (trace (kept correctPath original optimized st))
  = attempts (trace st)
  ∧ writes webpPath (trace (kept correctPath original optimized st))
    = writes webpPath (trace st)
  ∧ fs (kept correctPath original optimized st) !! webpPath
    = fs st !! webpPath.
Proof.
  intros Hne. unfold kept. destruct (_ <? _)%nat;
    cbn [trace fs record with_fs];
    rewrite !attempts_snoc, !writes_snoc, ?app_nil_r.
  - rewrite bool_decide_eq_false_2 by done.
    by rewrite app_nil_r, lookup_insert_ne.
  - done.
Qed.

Lemma moved_search filePath correctPath webpPath original st :
  webpPath ≠ correctPath → webpPath ≠ filePath →
  attempts (trace (moved filePath correctPath original st))
  = attempts (trace st)
  ∧ writes webpPath (trace (moved filePath correctPath original st))
    = writes webpPath (trace st)
  ∧ fs (moved filePath correctPath original st) !! webpPath
    = fs st !! webpPath.
Proof.
  intros Hne Hne'. unfold moved. case_bool_decide; [|done].
  cbn [trace fs record with_fs set_AVATAR_DEST set_AVATAR_FILENAME].
  rewrite !attempts_snoc, !writes_snoc, ?app_nil_r.
  by rewrite lookup_insert_ne, lookup_delete_ne.
Qed.

(** C2, as the code has it: the quality search encodes the stored master
    at the levels 80, 75, 70, 65, 60 in this order and stops at the first
    level whose encoding is strictly smaller than the byte length of the
    image as it was fetched (the [originalSize] that [optimizeImage]
    measures before it optimizes, not the length of the stored master).
    No lower level is attempted after an accepted one; a level that fails
    to encode, or whose encoding is not smaller, is passed over and the
    next one is tried; the accepted encoding is the only content written
    to the WebP path; and when no level is accepted nothing is written
    there. *)
Theorem webp_quality_search
    (imagemin_buffer : list N → list plugin → result (list N))
    (sharp_toBuffer : list N → pipeline → result (list N))
    (st : state) (base a original optimized : list N) :
  a ∈ image_extensions →
  fs st !! (base ++ str "." ++ a) = Some original →
  AVATAR_DEST st = base ++ str "." ++ a →
  imagemin_buffer original (plugins original) = Ok optimized →
  let master :=
    if (length optimized <? length original)%nat
    then optimized else original in
  let webpPath := base ++ str ".webp" in
  let accepted := accepted sharp_toBuffer (Some master) (length original) in
  let tried :=
    tried sharp_toBuffer (Some master) (length original) qualities in
  let found :=
    found sharp_toBuffer (Some master) (length original) qualities in
  let st' :=
    (optimizeImage imagemin_buffer sharp_toBuffer
       (base ++ str "." ++ a) st).2 in
  fs st' !! AVATAR_DEST st' = Some master
  ∧ attempts (trace st') = attempts (trace st) ++ tried
  ∧ (∀ Q1 Q2, Q1 ∈ qualities → Q2 < Q1 → is_Some (accepted Q1) →
       Q2 ∉ tried)
  ∧ (∀ Q, Q ∈ qualities →
       (∀ Q', Q' ∈ qualities → Q < Q' → accepted Q' = None) →
       Q ∈ tried)
  ∧ writes webpPath (trace st')
    = writes webpPath (trace st) ++ option_list found
  ∧ fs st' !! webpPath
    = match found with
      | Some webpBuffer => Some webpBuffer
      | None => fs st !! webpPath
      end
  ∧ (∀ webpBuffer, found = Some webpBuffer →
       ∃ Q, Q ∈ qualities ∧ accepted Q = Some webpBuffer
            ∧ ∀ Q', Q' ∈ qualities → Q < Q' → accepted Q' = None)
  ∧ (found = None ↔ ∀ Q, Q ∈ qualities → accepted Q = None).
Proof.
  intros Ha Hfile Hdest Himagemin.
  change (str "." ++ a) with (46 :: a) in *. cbv zeta.
  rewrite (optimizeImage_run imagemin_buffer sharp_toBuffer _ original)
    by done.
  destruct (detect_extension original) as (x & -> & Hx).
  rewrite replace_ext by done. cbv zeta. rewrite Himagemin.
  assert (x ∈ image_extensions) as Hx' by (by apply detected_image).
  assert (base ++ str ".webp" ≠ base ++ 46 :: x) as Hne.
  { intros ?%(inj (app base)). by apply (webp_not_image x). }
  assert (base ++ str ".webp" ≠ base ++ 46 :: a) as Hne'.
  { intros ?%(inj (app base)). by apply (webp_not_image a). }
  set (st1 := record (Console (FormatDetected (detect original).1)) st).
  set (st2 := moved (base ++ 46 :: a) (base ++ 46 :: x) original st1).
  set (st3 := record (Imagemin original (plugins original)) st2).
  set (st4 := kept (base ++ 46 :: x) original optimized st3).
  destruct (moved_master (base ++ 46 :: a) (base ++ 46 :: x) original st1)
    as [Hfs2 Hdest2]; [done..|]. fold st2 in Hfs2, Hdest2.
  assert (fs st4 !! (base ++ 46 :: x)
          = Some (if (length optimized <? length original)%nat
                  then optimized else original)) as Hmaster.
  { unfold st4, kept. destruct (_ <? _)%nat; cbn [fs record with_fs].
    - by rewrite lookup_insert_eq.
    - done. }
  assert (AVATAR_DEST st4 = base ++ 46 :: x) as Hdest4.
  { unfold st4, kept. by destruct (_ <? _)%nat. }
  destruct (kept_search (base ++ 46 :: x) (base ++ str ".webp") original
              optimized st3 Hne) as (Ha4 & Hw4 & Hf4).
  fold st4 in Ha4, Hw4, Hf4.
  destruct (moved_search (base ++ 46 :: a) (base ++ 46 :: x)
              (base ++ str ".webp") original st1 Hne Hne')
    as (Ha2 & Hw2 & Hf2). fold st2 in Ha2, Hw2, Hf2.
  assert (attempts (trace st4) = attempts (trace st)
          ∧ writes (base ++ str ".webp") (trace st4)
            = writes (base ++ str ".webp") (trace st)
          ∧ fs st4 !! (base ++ str ".webp")
            = fs st !! (base ++ str ".webp")) as (Hat & Hwt & Hft).
  { rewrite Ha4, Hw4, Hf4. unfold st3. cbn [trace fs record].
    rewrite attempts_snoc, writes_snoc, !app_nil_r, Ha2, Hw2, Hf2.
    unfold st1. cbn [trace fs record].
    by rewrite attempts_snoc, writes_snoc, !app_nil_r. }
  destruct (createWebP_search sharp_toBuffer st4 base x (length original)
              Hx') as (Hattempts & Hwrites & Hfound).
  rewrite Hmaster in Hattempts, Hwrites, Hfound.
  destruct (createWebP_source sharp_toBuffer base x (length original) Hx
              st4) as (Hfs & _ & HD & _).
  split; [|split; [|split; [|split; [|split; [|split; [|split]]]]]].
  - rewrite HD, Hdest4, Hfs by (intros H; by apply H). done.
  - by rewrite Hattempts, Hat.
  - intros Q1 Q2. apply tried_halts, qualities_descending.
  - intros Q. apply tried_absorbs, qualities_descending.
  - by rewrite Hwrites, Hwt.
  - by rewrite Hfound, Hft.
  - intros webpBuffer. apply found_Some, qualities_descending.
  - apply found_None.
Qed.

Lemma webp_quality_search_witness :
  let st := Sample.fetched Sample.png in
  let st' :=
    (optimizeImage Sample.imagemin Sample.sharp
       (str "/site/dist/avatar" ++ str "." ++ str "png") st).2 in
  fs st' !! AVATAR_DEST st' = Some [0x4E; 0x47; 0x0D; 0x0A]
  ∧ attempts (trace st') = [80; 75; 70]
  ∧ writes (str "/site/dist/avatar" ++ str ".webp") (trace st') = [[0x4E]]
  ∧ fs st' !! (str "/site/dist/avatar" ++ str ".webp") = Some [0x4E].
Proof.
  destruct (webp_quality_search Sample.imagemin Sample.sharp
              (Sample.fetched Sample.png)
              (str "/site/dist/avatar") (str "png") Sample.png
              [0x4E; 0x47; 0x0D; 0x0A])
    as (Hmaster & Hattempts & _ & _ & Hwrites & Hfs & _).
  - apply (bool_decide_unpack _). by vm_compute.
  - by vm_compute.
  - reflexivity.
  - reflexivity.
  - split; [exact Hmaster|]. split; [exact Hattempts|].
    split; [exact Hwrites | exact Hfs].
Defined.

(** C2, as the spec has it, fails when the optimizer shrinks the master:
    the fetched image has 6 bytes and the stored master 4; the encoding at
    level 80 has 5 bytes, which is not smaller than the master, and it is
    written all the same. *)
Lemma webp_written_though_not_smaller_than_master :
  let st' :=
    (optimizeImage Sample.imagemin Sample.padding
       (str "/site/dist/avatar.png") (Sample.fetched Sample.png)).2 in
  fs st' !! AVATAR_DEST st' = Some [0x4E; 0x47; 0x0D; 0x0A]
  ∧ (∀ Q, Q ∈ qualities →
       Sample.padding [0x4E; 0x47; 0x0D; 0x0A] (webp Q 6)
       = Ok [0x4E; 0x47; 0x0D; 0x0A; 0])
  ∧ ¬ (length [0x4E; 0x47; 0x0D; 0x0A; 0]
       < length [0x4E; 0x47; 0x0D; 0x0A])%nat
  ∧ fs st' !! str "/site/dist/avatar.webp"
    = Some [0x4E; 0x47; 0x0D; 0x0A; 0].
Proof.
  split; [by vm_compute|]. split; [done|]. split; [simpl; lia|].
  by vm_compute.
Qed.
End QualitySearch.

(** ** Patterns anchored on a code unit

    A pattern is anchored on [a] when it starts with [a] and cannot match
    [a] anywhere else, as the two [og:image] patterns are on ["<"].  Global
    replacement with such a pattern works on the pieces between the anchors
    one by one. *)

Module Anchored.
Import JS JSFacts Patterns.

Lemma run_le cls s : (run cls s ≤ length s)%nat.
Proof.
  induction s as [|c s IH]; simpl; [lia|]. destruct (cls c); simpl; lia.
Qed.

Lemma run_take cls s k :
  (k ≤ run cls s)%nat → Forall (λ c, cls c = true) (take k s).
Proof.
  revert k. induction s as [|c s IH]; intros k Hk; simpl in *.
  - by rewrite take_nil.
  - destruct k as [|k]; [constructor|]. destruct (cls c) eqn:Hc; [|lia].
    simpl. constructor; [done|]. apply IH. lia.
Qed.

Lemma run_app_anchor cls a u y :
  cls a = false → at_anchor a y → run cls (u ++ y) = run cls u.
Proof.
  intros Ha Hy. induction u as [|c u IH]; simpl.
  - destruct y as [|c y]; [done|]. simpl in *. subst. by rewrite Ha.
  - by rewrite IH.
Qed.

Lemma backtrack_Some k least cont s n :
  backtrack k least cont s = Some n →
  ∃ j n', (j ≤ k)%nat ∧ cont (drop j s) = Some n' ∧ n = (j + n')%nat.
Proof.
  induction k as [|k IH]; simpl.
  - destruct (0 <? least)%nat; [done|].
    destruct (cont (drop 0 s)) as [n'|] eqn:Hc; [|done].
    intros [= <-]. by exists O, n'.
  - destruct (S k <? least)%nat; [done|].
    destruct (cont (drop (S k) s)) as [n'|] eqn:Hc.
    + intros [= <-]. by exists (S k), n'.
    + intros (j & n' & ? & ? & ?)%IH. exists j, n'. split; [lia|done].
Qed.

Lemma backtrack_ext k least cont cont' s s' :
  (∀ j, (j ≤ k)%nat → cont (drop j s) = cont' (drop j s')) →
  backtrack k least cont s = backtrack k least cont' s'.
Proof.
  induction k as [|k IH]; intros H; simpl.
  - by rewrite (H O).
  - rewrite (H (S k)) by done. rewrite IH; [done|]. intros j Hj. apply H. lia.
Qed.

Section Anchor.
Variable a : N.

Lemma matches_avoid_app p u y :
  Forall (avoids a) p → at_anchor a y →
  matches p (u ++ y) = matches p u.
Proof.
  intros Hp Hy. revert u. induction Hp as [|x p Hx Hp IH]; intros u; [done|].
  destruct x as [c|cls least| |]; simpl in Hx; try done.
  - cbn [matches]. destruct u as [|x u]; simpl.
    + destruct y as [|z y]; [done|]. simpl in Hy. subst z.
      destruct (N.eqb_spec a c); [congruence | done].
    + by rewrite IH.
  - cbn [matches]. rewrite (run_app_anchor cls a) by done.
    apply backtrack_ext. intros j Hj.
    rewrite drop_app_le by (pose proof (run_le cls u); lia). apply IH.
Qed.

Lemma matches_avoid p s n :
  Forall (avoids a) p → matches p s = Some n →
  (n ≤ length s)%nat ∧ a ∉ take n s.
Proof.
  intros Hp. revert s n. induction Hp as [|x p Hx Hp IH]; intros s n.
  { simpl. intros ?; simplify_eq. split; [lia|]. rewrite take_0.
    apply not_elem_of_nil. }
  destruct x as [c|cls least| |]; simpl in Hx; try done.
  - cbn [matches]. destruct s as [|x s]; [done|].
    destruct (x =? c) eqn:Hxc; [|done]. apply N.eqb_eq in Hxc as ->.
    destruct (matches p s) as [n'|] eqn:Hm; [|done]. simpl.
    intros ?; simplify_eq. destruct (IH _ _ Hm) as [? ?]. split; [simpl; lia|].
    simpl. by apply not_elem_of_cons.
  - cbn [matches]. intros (j & n' & Hj & Hm & ->)%backtrack_Some.
    destruct (IH _ _ Hm) as [Hlen Hnot]. rewrite length_drop in Hlen.
    pose proof (run_le cls s). split; [lia|].
    rewrite <- (take_drop j s) at 1.
    rewrite take_app_ge by (rewrite length_take; lia).
    rewrite length_take, Nat.min_l by lia.
    replace (j + n' - j)%nat with n' by lia.
    apply not_elem_of_app. split; [|done].
    intros Hin. pose proof (run_take cls s j Hj) as Hall.
    rewrite Forall_forall in Hall. apply Hall in Hin. congruence.
Qed.

Lemma pieces_well_cut s : well_cut a (pieces a s).
Proof.
  induction s as [|c s IH]; simpl.
  - split; [apply not_elem_of_nil | constructor].
  - destruct (pieces a s) as [|h t]; [done|]. destruct IH as [Hh Ht].
    destruct (N.eqb_spec c a) as [->|Hc].
    + split; [apply not_elem_of_nil|]. constructor; [by exists h | done].
    + split; [|done]. by apply not_elem_of_cons.
Qed.

Lemma concat_pieces s : concat (pieces a s) = s.
Proof.
  induction s as [|c s IH]; [done|]. simpl.
  destruct (pieces a s) as [|h t]; [simpl in *; by rewrite <- IH|].
  destruct (c =? a); simpl in *; by rewrite IH.
Qed.

Lemma pieces_app h s :
  a ∉ h →
  pieces a (h ++ s)
  = match pieces a s with
    | h0 :: t => (h ++ h0) :: t
    | [] => [h]
    end.
Proof.
  intros Hh. pose proof (pieces_well_cut s) as Hs.
  induction h as [|c h IH]; simpl.
  - by destruct (pieces a s).
  - apply not_elem_of_cons in Hh as [Hc Hh]. rewrite IH by done.
    destruct (pieces a s) as [|h0 t]; [done|].
    by rewrite (proj2 (N.eqb_neq c a)).
Qed.

Lemma pieces_concat cs : well_cut a cs → pieces a (concat cs) = cs.
Proof.
  destruct cs as [|h t]; [done|]. intros [Hh Ht]. revert h Hh.
  induction Ht as [|c t (c' & -> & Hc') Ht IH]; intros h Hh.
  - simpl. rewrite pieces_app by done. simpl.
    by rewrite app_nil_r.
  - cbn [concat]. rewrite pieces_app by done. cbn [app pieces].
    specialize (IH c' Hc'). cbn [concat] in IH. rewrite IH.
    by rewrite N.eqb_refl, app_nil_r.
Qed.

Lemma well_cut_at_anchor h t :
  well_cut a (h :: t) → at_anchor a (concat t).
Proof.
  intros [_ Ht]. destruct Ht as [|c t (c' & -> & _) _]; simpl; done.
Qed.

(** An anchored pattern and its replacement. *)
Variable p' : regex.
Variable r : list N.
Hypothesis p'_avoids : Forall (avoids a) p'.

Local Abbreviation p := (Chr a :: p').

Lemma anchored_nil : matches p [] = None.
Proof. done. Qed.

Lemma anchored_other c s : c ≠ a → matches p (c :: s) = None.
Proof.
  intros Hc. cbn [matches].
  by rewrite (proj2 (N.eqb_neq c a)).
Qed.

Lemma anchored_Some s n :
  matches p s = Some n →
  ∃ s' n', s = a :: s' ∧ n = S n' ∧ (n' ≤ length s')%nat
           ∧ a ∉ take n' s'.
Proof.
  cbn [matches]. destruct s as [|c s]; [done|].
  destruct (N.eqb_spec c a) as [->|]; [|done].
  destruct (matches p' s) as [n'|] eqn:Hm; [|done].
  intros [= <-]. exists s, n'.
  destruct (matches_avoid _ _ _ p'_avoids Hm). done.
Qed.

Lemma anchored_app c u y :
  at_anchor a y → matches p (c :: u ++ y) = matches p (c :: u).
Proof.
  intros Hy. cbn [matches].
  by rewrite (matches_avoid_app p' u y).
Qed.

Lemma replace_from_drop k s :
  (k ≤ length s)%nat →
  replace_from p r k s = replaceAll p r (drop k s).
Proof.
  revert k. induction s as [|c s IH]; intros k Hk.
  - simpl in Hk. by replace k with O by lia.
  - destruct k as [|k]; [done|]. simpl in Hk. cbn [replace_from drop].
    apply IH. lia.
Qed.

Lemma replaceAll_no_anchor x y :
  a ∉ x → replaceAll p r (x ++ y) = x ++ replaceAll p r y.
Proof.
  induction x as [|c x IH]; [done|].
  intros [Hc Hx]%not_elem_of_cons. unfold replaceAll in *.
  cbn [app replace_from]. rewrite anchored_other by done.
  by rewrite IH.
Qed.

Lemma step_no_anchor h : a ∉ h → step p r h = h.
Proof.
  intros Hh. unfold step. destruct h as [|c h]; [done|].
  apply not_elem_of_cons in Hh as [Hc _].
  by rewrite anchored_other.
Qed.

(** Global replacement, piece by piece. *)
Lemma replaceAll_pieces s :
  replaceAll p r s = concat (step p r <$> pieces a s).
Proof.
  induction s as [|c s IH]; [done|].
  pose proof (pieces_well_cut s) as Hcut.
  pose proof (concat_pieces s) as Hs.
  cbn [pieces]. destruct (pieces a s) as [|h t]; [done|].
  pose proof (well_cut_at_anchor _ _ Hcut) as Hy.
  destruct Hcut as [Hh Ht]. simpl in Hs.
  assert (replaceAll p r (concat t) = concat (step p r <$> t)) as Hrest.
  { cbn [fmap list_fmap concat] in IH.
    rewrite <- Hs, replaceAll_no_anchor, step_no_anchor in IH by done.
    by apply (inj (app h)) in IH. }
  destruct (N.eqb_spec c a) as [->|Hc].
  - cbn [fmap list_fmap concat]. rewrite (step_no_anchor []) by
      apply not_elem_of_nil.
    cbn [app]. unfold replaceAll. cbn [replace_from].
    rewrite <- Hs at 1. rewrite anchored_app by done. unfold step.
    destruct (matches p (a :: h)) as [n|] eqn:Hm.
    + apply anchored_Some in Hm as (s' & n' & [= <-] & -> & Hn & Hnot).
      rewrite replace_from_drop by (rewrite <- Hs, length_app; lia).
      rewrite <- Hs, drop_app_le by done.
      rewrite replaceAll_no_anchor.
      * by rewrite Hrest, <- app_assoc.
      * intros Hin. by apply Hh, (subseteq_drop n' h).
    + fold (replaceAll p r s). rewrite IH.
      cbn [fmap list_fmap concat]. by rewrite step_no_anchor.
  - unfold replaceAll. cbn [replace_from].
    rewrite anchored_other by done. fold (replaceAll p r s).
    rewrite IH. cbn [fmap list_fmap concat].
    rewrite (step_no_anchor h), (step_no_anchor (c :: h)); [done| |done].
    by apply not_elem_of_cons.
Qed.

(** The replacement starts with the anchor and has no other. *)
Variable r' : list N.
Hypothesis r_anchor : r = a :: r'.
Hypothesis r'_no_anchor : a ∉ r'.

Lemma step_well_cut cs :
  well_cut a cs → well_cut a (step p r <$> cs).
Proof.
  destruct cs as [|h t]; [done|]. intros [Hh Ht]. split.
  - by rewrite step_no_anchor.
  - apply Forall_fmap. eapply Forall_impl; [exact Ht|].
    intros c (c' & -> & Hc'). simpl. unfold step.
    destruct (matches p (a :: c')) as [n|] eqn:Hm; [|by exists c'].
    apply anchored_Some in Hm as (s' & n' & [= <-] & -> & Hn & Hnot).
    exists (r' ++ drop n' c'). split; [by rewrite r_anchor|].
    apply not_elem_of_app. split; [done|].
    intros Hin. by apply Hc', (subseteq_drop n' c').
Qed.

Lemma replaceAll_concat cs :
  well_cut a cs → replaceAll p r (concat cs) = concat (step p r <$> cs).
Proof. intros Hcs. by rewrite replaceAll_pieces, pieces_concat. Qed.
End Anchor.

(** Two replacements anchored on the same code unit, one after the
    other: when on every piece the second run of each leaves the result
    of the first run of both alone, so it does on every text. *)
Lemma replaceAll_twice a p1 r1 r1' p2 r2 r2' s :
  Forall (avoids a) p1 → r1 = a :: r1' → a ∉ r1' →
  Forall (avoids a) p2 → r2 = a :: r2' → a ∉ r2' →
  (∀ c, step (Chr a :: p1) r1
          (step (Chr a :: p2) r2 (step (Chr a :: p1) r1 c))
        = step (Chr a :: p2) r2 (step (Chr a :: p1) r1 c)) →
  (∀ c, step (Chr a :: p2) r2 (step (Chr a :: p2) r2 c)
        = step (Chr a :: p2) r2 c) →
  let out :=
    replaceAll (Chr a :: p2) r2 (replaceAll (Chr a :: p1) r1 s) in
  replaceAll (Chr a :: p1) r1 out = out
  ∧ replaceAll (Chr a :: p2) r2 out = out.
Proof.
  intros Hp1 Hr1 Hr1' Hp2 Hr2 Hr2' H121 H22. cbv zeta.
  pose proof (pieces_well_cut a s) as Hcut.
  rewrite (replaceAll_pieces a p1 r1 Hp1 s).
  pose proof (step_well_cut a p1 r1 Hp1 r1' Hr1 Hr1' _ Hcut) as Hcut1.
  rewrite (replaceAll_concat a p2 r2 Hp2 _ Hcut1).
  pose proof (step_well_cut a p2 r2 Hp2 r2' Hr2 Hr2' _ Hcut1) as Hcut2.
  rewrite (replaceAll_concat a p1 r1 Hp1 _ Hcut2).
  rewrite (replaceAll_concat a p2 r2 Hp2 _ Hcut2).
  split; f_equal; rewrite <- !list_fmap_compose; apply list_fmap_ext;
    intros i c _; simpl; [apply H121 | apply H22].
Qed.
End Anchored.

(** ** Global replacement of a literal *)

Module Literals.
Import JS JSFacts Patterns.

Lemma matches_lit_Some l s n :
  matches (Chr <$> l) s = Some n → n = length l ∧ l `prefix_of` s.
Proof.
  revert s n. induction l as [|c l IH]; intros s n; cbn [fmap list_fmap].
  - cbn [matches]. intros [= <-]. split; [done|]. by exists s.
  - cbn [matches]. destruct s as [|x s]; [done|].
    destruct (N.eqb_spec x c) as [->|]; [|done].
    destruct (matches (Chr <$> l) s) as [n'|] eqn:Hm; [|done].
    intros [= <-]. destruct (IH _ _ Hm) as [-> [t ->]].
    split; [done|]. by exists t.
Qed.

Lemma matches_lit_prefix l s :
  l `prefix_of` s → matches (Chr <$> l) s = Some (length l).
Proof.
  intros [t ->]. revert t. induction l as [|c l IH]; intros t; [done|].
  cbn [fmap list_fmap app matches length].
  by rewrite N.eqb_refl, IH.
Qed.

Section Literal.
Variable a : N.
Variables l' r : list N.
Hypothesis r_nonempty : r ≠ [].
Hypothesis apart : Forall (λ c, c ∉ r) (a :: l').

Local Abbreviation p := (Chr <$> a :: l').







End Literal.
End Literals.

(** ** UTF-8 and UTF-16 *)

Module Unicode.
Import JS Texts.

Lemma between_spec lo hi b : between lo hi b = true ↔ lo ≤ b ∧ b ≤ hi.
Proof. unfold between. rewrite andb_true_iff, !N.leb_le. done. Qed.

Lemma between_false lo hi b : between lo hi b = false ↔ b < lo ∨ hi < b.
Proof.
  unfold between. rewrite andb_false_iff, !N.leb_gt. done.
Qed.

(** The bounds of the second byte, as inequalities. *)
Lemma between_bounds b0 b1 :
  between (lower b0) (upper b0) b1 = true
  ↔ 0x80 ≤ b1 ∧ b1 ≤ 0xBF
    ∧ (b0 = 0xE0 → 0xA0 ≤ b1) ∧ (b0 = 0xF0 → 0x90 ≤ b1)
    ∧ (b0 = 0xED → b1 ≤ 0x9F) ∧ (b0 = 0xF4 → b1 ≤ 0x8F).
Proof.
  rewrite between_spec. unfold lower, upper.
  destruct (N.eqb_spec b0 0xE0), (N.eqb_spec b0 0xED),
    (N.eqb_spec b0 0xF0), (N.eqb_spec b0 0xF4); lia.
Qed.

(** Turns the tests on bytes and code units into inequalities. *)
Ltac tests :=
  repeat match goal with
  | H : between (lower _) (upper _) _ = true |- _ =>
      apply between_bounds in H as (? & ? & ? & ? & ? & ?)
  | H : between _ _ _ = true |- _ => apply between_spec in H
  | H : between _ _ _ = false |- _ => apply between_false in H
  | H : (_ <? _) = true |- _ => apply N.ltb_lt in H
  | H : (_ <? _) = false |- _ => apply N.ltb_ge in H
  | H : (_ =? _) = true |- _ => apply N.eqb_eq in H
  | H : (_ =? _) = false |- _ => apply N.eqb_neq in H
  | H : _ && _ = true |- _ => apply andb_true_iff in H as [? ?]
  | H : negb _ = true |- _ => apply negb_true_iff in H
  | H : is_high _ = _ |- _ => unfold is_high in H
  | H : is_low _ = _ |- _ => unfold is_low in H
  end.

Ltac arith := intros; zify; Z.to_euclidean_division_equations; lia.

Lemma scalar_spec cp :
  scalar cp = true ↔ cp < 0xD800 ∨ (0xE000 ≤ cp ∧ cp ≤ 0x10FFFF).
Proof.
  unfold scalar. rewrite orb_true_iff, N.ltb_lt, between_spec. done.
Qed.

(** The decoder yields scalar values only. *)
Lemma utf8_points_scalar bytes :
  Forall (λ cp, scalar cp = true) (utf8_points bytes).
Proof.
  remember (length bytes) as k eqn:Hk. revert bytes Hk.
  induction k as [k IH] using lt_wf_ind. intros bytes ->.
  assert (∀ l, (length l < length bytes)%nat →
               Forall (λ cp, scalar cp = true) (utf8_points l)) as IH'
    by (intros l Hl; by eapply IH).
  clear IH.
  assert (scalar 0xFFFD = true) as Hrep by done.
  destruct bytes as [|b0 rest]; [constructor|]. cbn [utf8_points].
  destruct (b0 <? 0x80) eqn:H0.
  { constructor; [|apply IH'; simpl; lia].
    apply scalar_spec. tests. lia. }
  destruct (between 0xC2 0xDF b0) eqn:H2.
  { destruct rest as [|b1 rest1]; [by repeat constructor|].
    destruct (between 0x80 0xBF b1) eqn:H21.
    - constructor; [|apply IH'; simpl; lia].
      apply scalar_spec. tests. lia.
    - constructor; [done|apply IH'; simpl; lia]. }
  destruct (between 0xE0 0xEF b0) eqn:H3.
  { destruct rest as [|b1 rest1]; [by repeat constructor|].
    destruct (between (lower b0) (upper b0) b1) eqn:H31;
      [|constructor; [done|apply IH'; simpl; lia]].
    destruct rest1 as [|b2 rest2]; [by repeat constructor|].
    destruct (between 0x80 0xBF b2) eqn:H32;
      [|constructor; [done|apply IH'; simpl; lia]].
    constructor; [|apply IH'; simpl; lia].
    apply scalar_spec. tests. lia. }
  destruct (between 0xF0 0xF4 b0) eqn:H4;
    [|constructor; [done|apply IH'; simpl; lia]].
  destruct rest as [|b1 rest1]; [by repeat constructor|].
  destruct (between (lower b0) (upper b0) b1) eqn:H41;
    [|constructor; [done|apply IH'; simpl; lia]].
  destruct rest1 as [|b2 rest2]; [by repeat constructor|].
  destruct (between 0x80 0xBF b2) eqn:H42;
    [|constructor; [done|apply IH'; simpl; lia]].
  destruct rest2 as [|b3 rest3]; [by repeat constructor|].
  destruct (between 0x80 0xBF b3) eqn:H43;
    [|constructor; [done|apply IH'; simpl; lia]].
  constructor; [|apply IH'; simpl; lia].
  apply scalar_spec. tests. lia.
Qed.

(** The code units of a scalar value are read back as that value. *)
Lemma code_points_units cp s :
  scalar cp = true → code_points (units cp ++ s) = cp :: code_points s.
Proof.
  intros Hcp%scalar_spec. unfold units.
  destruct (cp <? 0x10000) eqn:Hbmp; tests.
  - cbn [app code_points]. unfold is_high, is_low.
    rewrite (proj2 (between_false 0xD800 0xDBFF cp)) by lia.
    by rewrite (proj2 (between_false 0xDC00 0xDFFF cp)) by lia.
  - cbn [app code_points]. unfold is_high, is_low.
    rewrite (proj2 (between_spec 0xD800 0xDBFF _)) by arith.
    rewrite (proj2 (between_spec 0xDC00 0xDFFF _)) by arith.
    f_equal. arith.
Qed.

Lemma well_formed_units cp s :
  scalar cp = true → well_formed s = true →
  well_formed (units cp ++ s) = true.
Proof.
  intros Hcp%scalar_spec Hs. unfold units.
  destruct (cp <? 0x10000) eqn:Hbmp; tests.
  - cbn [app well_formed]. unfold is_high, is_low.
    rewrite (proj2 (between_false 0xD800 0xDBFF cp)) by lia.
    rewrite (proj2 (between_false 0xDC00 0xDFFF cp)) by lia.
    rewrite (proj2 (N.ltb_lt _ _)) by lia. done.
  - cbn [app well_formed]. unfold is_high, is_low.
    rewrite (proj2 (between_spec 0xD800 0xDBFF _)) by arith.
    by rewrite (proj2 (between_spec 0xDC00 0xDFFF _)) by arith.
Qed.

(** What is decoded is a text. *)
Lemma utf8_decode_well_formed bytes :
  well_formed (utf8_decode bytes) = true.
Proof.
  unfold utf8_decode.
  induction (utf8_points_scalar bytes) as [|cp pts Hcp _ IH]; [done|].
  cbn [mbind list_bind]. by apply well_formed_units.
Qed.

(** The bytes of a scalar value are decoded to that value. *)
Lemma utf8_points_encode cp bytes :
  scalar cp = true →
  utf8_points (encode_point cp ++ bytes) = cp :: utf8_points bytes.
Proof.
  intros Hcp%scalar_spec. unfold encode_point.
  destruct (cp <? 0x80) eqn:H1.
  { cbn [app utf8_points]. by rewrite H1. }
  destruct (cp <? 0x800) eqn:H2; tests.
  { cbn [app utf8_points].
    rewrite (proj2 (N.ltb_ge _ _)) by arith.
    rewrite (proj2 (between_spec 0xC2 0xDF _)) by arith.
    rewrite (proj2 (between_spec 0x80 0xBF _)) by arith.
    f_equal. arith. }
  destruct (cp <? 0x10000) eqn:H3; tests.
  { cbn [app utf8_points].
    rewrite (proj2 (N.ltb_ge _ _)) by arith.
    rewrite (proj2 (between_false 0xC2 0xDF _)) by arith.
    rewrite (proj2 (between_spec 0xE0 0xEF _)) by arith.
    rewrite (proj2 (between_bounds _ _)) by (repeat split; arith).
    rewrite (proj2 (between_spec 0x80 0xBF _)) by arith.
    f_equal. arith. }
  cbn [app utf8_points].
  rewrite (proj2 (N.ltb_ge _ _)) by arith.
  rewrite (proj2 (between_false 0xC2 0xDF _)) by arith.
  rewrite (proj2 (between_false 0xE0 0xEF _)) by arith.
  rewrite (proj2 (between_spec 0xF0 0xF4 _)) by arith.
  rewrite (proj2 (between_bounds _ _)) by (repeat split; arith).
  rewrite (proj2 (between_spec 0x80 0xBF _)) by arith.
  rewrite (proj2 (between_spec 0x80 0xBF _)) by arith.
  f_equal. arith.
Qed.

Lemma utf8_encode_units cp s :
  scalar cp = true →
  utf8_encode (units cp ++ s) = encode_point cp ++ utf8_encode s.
Proof. intros Hcp. unfold utf8_encode. by rewrite code_points_units. Qed.

Lemma utf8_decode_point cp bytes :
  scalar cp = true →
  utf8_decode (encode_point cp ++ bytes) = units cp ++ utf8_decode bytes.
Proof. intros Hcp. unfold utf8_decode. by rewrite utf8_points_encode. Qed.

(** A text that is written and read again is the same text. *)
Lemma utf8_decode_encode s :
  well_formed s = true → utf8_decode (utf8_encode s) = s.
Proof.
  remember (length s) as k eqn:Hk. revert s Hk.
  induction k as [k IH] using lt_wf_ind. intros s -> Hs.
  destruct s as [|c s]; [done|]. cbn [well_formed] in Hs.
  destruct (is_high c) eqn:Hc.
  - destruct s as [|d s]; [done|]. apply andb_true_iff in Hs as [Hd Hs].
    set (cp := 0x10000 + (c - 0xD800) * 0x400 + (d - 0xDC00)).
    assert (scalar cp = true) as Hcp
      by (apply scalar_spec; unfold cp; tests; lia).
    assert (units cp = [c; d]) as Hunits.
    { unfold units, cp.
      rewrite (proj2 (N.ltb_ge _ _)) by (tests; lia).
      tests. f_equal; [|f_equal]; arith. }
    change (c :: d :: s) with ([c; d] ++ s). rewrite <- Hunits.
    rewrite utf8_encode_units, utf8_decode_point by done.
    f_equal. eapply IH; [|reflexivity|done]. simpl. lia.
  - apply andb_true_iff in Hs as [Hs1 Hs].
    apply andb_true_iff in Hs1 as [Hl Hbmp].
    assert (scalar c = true) as Hcp
      by (apply scalar_spec; tests; lia).
    assert (units c = [c]) as Hunits by (unfold units; by rewrite Hbmp).
    change (c :: s) with ([c] ++ s). rewrite <- Hunits.
    rewrite utf8_encode_units, utf8_decode_point by done.
    f_equal. eapply IH; [|reflexivity|done]. simpl. lia.
Qed.

(** Well-formed UTF-8 that is read and written again is the same
    bytes. *)
Lemma utf8_encode_decode bytes :
  utf8_valid bytes = true → utf8_encode (utf8_decode bytes) = bytes.
Proof.
  remember (length bytes) as k eqn:Hk. revert bytes Hk.
  induction k as [k IH] using lt_wf_ind. intros bytes -> Hv.
  assert (∀ l, (length l < length bytes)%nat → utf8_valid l = true →
               utf8_encode (utf8_decode l) = l) as IH'
    by (intros l Hl; by eapply IH).
  clear IH.
  pose proof (utf8_points_scalar bytes) as Hsc.
  destruct bytes as [|b0 rest]; [done|].
  unfold utf8_decode in *. cbn [utf8_points utf8_valid] in *.
  destruct (b0 <? 0x80) eqn:H0.
  { apply Forall_cons in Hsc as [Hcp _]. cbn [mbind list_bind].
    rewrite utf8_encode_units by done. rewrite IH' by (simpl; lia || done).
    unfold encode_point. by rewrite H0. }
  destruct (between 0xC2 0xDF b0) eqn:H2.
  { destruct rest as [|b1 rest1]; [done|].
    apply andb_true_iff in Hv as [H21 Hv]. rewrite H21 in *.
    apply Forall_cons in Hsc as [Hcp _]. cbn [mbind list_bind].
    rewrite utf8_encode_units by done. rewrite IH' by (simpl; lia || done).
    unfold encode_point.
    rewrite (proj2 (N.ltb_ge _ 0x80)) by (tests; lia).
    rewrite (proj2 (N.ltb_lt _ 0x800)) by (tests; lia).
    cbn [app]. tests. f_equal; [|f_equal]; arith. }
  destruct (between 0xE0 0xEF b0) eqn:H3.
  { destruct rest as [|b1 [|b2 rest2]]; [done..|].
    apply andb_true_iff in Hv as [Hv' Hv].
    apply andb_true_iff in Hv' as [H31 H32]. rewrite H31, H32 in *.
    apply Forall_cons in Hsc as [Hcp _]. cbn [mbind list_bind].
    rewrite utf8_encode_units by done. rewrite IH' by (simpl; lia || done).
    unfold encode_point. clear Hcp. tests.
    assert (0x800 ≤ (b0 - 0xE0) * 0x1000 + (b1 - 0x80) * 0x40 + (b2 - 0x80)
            ∧ (b0 - 0xE0) * 0x1000 + (b1 - 0x80) * 0x40 + (b2 - 0x80)
              < 0x10000) as [Hlo Hhi] by lia.
    rewrite (proj2 (N.ltb_ge _ 0x80)) by lia.
    rewrite (proj2 (N.ltb_ge _ 0x800)) by lia.
    rewrite (proj2 (N.ltb_lt _ 0x10000)) by lia.
    cbn [app]. f_equal; [|f_equal; [|f_equal]]; arith. }
  destruct (between 0xF0 0xF4 b0) eqn:H4; [|done].
  destruct rest as [|b1 [|b2 [|b3 rest3]]]; [done..|].
  apply andb_true_iff in Hv as [Hv' Hv].
  apply andb_true_iff in Hv' as [Hv' H43].
  apply andb_true_iff in Hv' as [H41 H42]. rewrite H41, H42, H43 in *.
  apply Forall_cons in Hsc as [Hcp _]. cbn [mbind list_bind].
  rewrite utf8_encode_units by done. rewrite IH' by (simpl; lia || done).
  unfold encode_point. clear Hcp. tests.
  assert (0x10000 ≤ (b0 - 0xF0) * 0x40000 + (b1 - 0x80) * 0x1000
                    + (b2 - 0x80) * 0x40 + (b3 - 0x80)) as Hlo by lia.
  rewrite (proj2 (N.ltb_ge _ 0x80)) by lia.
  rewrite (proj2 (N.ltb_ge _ 0x800)) by lia.
  rewrite (proj2 (N.ltb_ge _ 0x10000)) by lia.
  cbn [app]. f_equal; [|f_equal; [|f_equal; [|f_equal]]]; arith.
Qed.
End Unicode.

(** ** Occurrences of a literal in a text that is rewritten *)

Module Occurrences.
Import JS JSFacts Patterns Texts Literals.

Lemma has_match_false p s :
  has_match p s = false ↔ ∀ j, matches p (drop j s) = None.
Proof.
  induction s as [|c s IH]; cbn [has_match].
  - split.
    + intros H j. rewrite drop_nil. by destruct (matches p []).
    + intros H. specialize (H O). simpl in H. by rewrite H.
  - destruct (matches p (c :: s)) as [n|] eqn:Hm.
    + split; [done|]. intros H. specialize (H O). simpl in H. congruence.
    + rewrite IH. split.
      * intros H [|j]; [done|]. apply H.
      * intros H j. apply (H (S j)).
Qed.

Lemma occurs_prefix q s : occurs q s ↔ ∃ j, q `prefix_of` drop j s.
Proof.
  split.
  - intros (a & b & ->). exists (length a).
    rewrite drop_app_length. by exists b.
  - intros (j & b & Hb). exists (take j s), b.
    by rewrite <- Hb, take_drop.
Qed.

Lemma occurs_has_match q s :
  has_match (Chr <$> q) s = false ↔ ¬ occurs q s.
Proof.
  rewrite has_match_false, occurs_prefix. split.
  - intros H (j & Hj). apply matches_lit_prefix in Hj. by rewrite H in Hj.
  - intros H j. destruct (matches _ _) as [n|] eqn:Hm; [|done].
    destruct H. exists j. by apply matches_lit_Some in Hm as [_ ?].
Qed.

Lemma occurs_nil q : occurs q [] → q = [].
Proof.
  intros (a & b & H). symmetry in H.
  apply app_eq_nil in H as [_ H]. by apply app_eq_nil in H as [? _].
Qed.

Lemma occurs_length q s : occurs q s → (length q ≤ length s)%nat.
Proof. intros (a & b & ->). rewrite !length_app. lia. Qed.

Lemma occurs_app_l q a b : occurs q a → occurs q (a ++ b).
Proof.
  intros (x & y & ->). exists x, (y ++ b). by rewrite <- ?app_assoc.
Qed.

Lemma occurs_app_r q a b : occurs q b → occurs q (a ++ b).
Proof.
  intros (x & y & ->). exists (a ++ x), y. by rewrite <- ?app_assoc.
Qed.

(** ** The length of a match, and the first match of a replacement *)

Lemma first_alt_Some alts cont s n :
  first_alt alts cont s = Some n →
  ∃ a n', starts_with a s = true ∧ cont (drop (length a) s) = Some n'
          ∧ n = (length a + n')%nat.
Proof.
  induction alts as [|a alts IH]; cbn [first_alt]; [done|].
  destruct (starts_with a s) eqn:Ha; [|done].
  destruct (cont (drop (length a) s)) as [n'|] eqn:Hc; [|done].
  intros [= <-]. by exists a, n'.
Qed.

Lemma matches_length p s n : matches p s = Some n → (n ≤ length s)%nat.
Proof.
  revert s n. induction p as [|x p IH]; intros s n; cbn [matches].
  { intros [= <-]. lia. }
  destruct x as [c|cls least|alts|].
  - destruct s as [|y s]; [done|]. destruct (y =? c); [|done].
    destruct (matches p s) as [n'|] eqn:Hm; [|done].
    intros [= <-]. apply IH in Hm. simpl. lia.
  - intros (j & n' & Hj & Hc & ->)%Anchored.backtrack_Some.
    apply IH in Hc. rewrite length_drop in Hc.
    pose proof (Anchored.run_le cls s). lia.
  - intros (a & n' & Ha & Hc & ->)%first_alt_Some.
    apply IH in Hc. apply starts_with_spec in Ha as [t ->].
    rewrite length_drop in Hc. rewrite length_app in *. lia.
  - destruct s; [|done]. apply IH.
Qed.

Lemma replace_from_skip p r k s :
  (k ≤ length s)%nat → replace_from p r k s = replaceAll p r (drop k s).
Proof.
  revert k. induction s as [|c s IH]; intros k Hk.
  - simpl in Hk. by replace k with O by lia.
  - destruct k as [|k]; [done|]. simpl in Hk. cbn [replace_from drop].
    apply IH. lia.
Qed.

Section First.
Variable p : regex.
Variable r : list N.
Hypothesis p_nonempty : ∀ t, matches p t ≠ Some O.

(** A text without a match is left as it is; otherwise what precedes the
    first match is kept, the match is replaced, and the replacement goes
    on behind it. *)
Lemma replaceAll_first s :
  (has_match p s = false ∧ replaceAll p r s = s)
  ∨ ∃ u n rest,
      s = u ++ rest
      ∧ (∀ j, (j < length u)%nat → matches p (drop j s) = None)
      ∧ matches p rest = Some (S n)
      ∧ replaceAll p r s = u ++ r ++ replaceAll p r (drop (S n) rest).
Proof.
  induction s as [|c s IH].
  - left. cbn [has_match]. unfold replaceAll. cbn [replace_from].
    destruct (matches p []) as [[|n]|] eqn:Hm; [by destruct (p_nonempty [])
                                                | |done].
    apply matches_length in Hm. simpl in Hm. lia.
  - destruct (matches p (c :: s)) as [[|n]|] eqn:Hm.
    + by destruct (p_nonempty (c :: s)).
    + right. exists [], n, (c :: s). split; [done|].
      split; [simpl; lia|]. split; [done|].
      unfold replaceAll at 1. cbn [replace_from]. rewrite Hm.
      cbn [app drop]. f_equal. apply replace_from_skip.
      apply matches_length in Hm. simpl in Hm. lia.
    + assert (replaceAll p r (c :: s) = c :: replaceAll p r s) as Hout
        by (unfold replaceAll; cbn [replace_from]; by rewrite Hm).
      destruct IH as [[Hs Hr]|(u & n & rest & Hs & Hu & Hrest & Hr)].
      * left. cbn [has_match]. rewrite Hm. split; [done|].
        by rewrite Hout, Hr.
      * right. exists (c :: u), n, rest. split; [by rewrite Hs|].
        split; [|split; [done|by rewrite Hout, Hr]].
        intros [|j] Hj; [done|]. apply Hu. simpl in Hj. lia.
Qed.
End First.

(** ** Texts that cannot overlap *)

Lemma agree_app x u y v : x ++ u = y ++ v → agree x y = true.
Proof.
  intros [(k & -> & _)|(k & -> & _)]%app_eq_inv; unfold agree;
    apply orb_true_iff; [right|left]; apply starts_with_spec; by exists k.
Qed.

Lemma tails_spec t l : t ∈ tails l ↔ t ≠ [] ∧ ∃ k, l = k ++ t.
Proof.
  induction l as [|c l IH]; cbn [tails].
  - rewrite elem_of_nil. split; [done|]. intros [Ht (k & Hk)].
    symmetry in Hk. by apply app_eq_nil in Hk as [_ ?].
  - rewrite elem_of_cons, IH. split.
    + intros [->|[Ht (k & ->)]]; [split; [done|by exists []]|].
      split; [done|]. by exists (c :: k).
    + intros [Ht ([|x k] & Hk)]; [left; by rewrite Hk|].
      right. split; [done|]. exists k. by injection Hk.
Qed.

Lemma apart_isolated q r : apart q r = true → isolated q r.
Proof.
  unfold apart. rewrite andb_true_iff, !forallb_forall.
  intros [Hr Hq] a b (x & y & H).
  assert (∀ t u v, t ∈ tails r → t ++ u = q ++ v → False) as Hr'.
  { intros t u v Ht%list_elem_of_In%Hr Htq.
    apply agree_app in Htq. by rewrite Htq in Ht. }
  assert (∀ t u v, t ∈ tails q → t ++ u = r ++ v → False) as Hq'.
  { intros t u v Ht%list_elem_of_In%Hq Htr.
    apply agree_app in Htr. by rewrite Htr in Ht. }
  apply app_eq_inv in H as [(k & -> & H)|(k & -> & H)].
  - (* the occurrence starts before [r] *)
    apply app_eq_inv in H as [(k' & -> & H)|(k' & -> & H)].
    + destruct k' as [|c k'].
      * left. exists x, []. by rewrite !app_nil_r.
      * destruct (Hq' (c :: k') y b); [|done].
        apply tails_spec. split; [done|]. by exists k.
    + left. exists x, k'. by rewrite <- ?app_assoc.
  - (* the occurrence starts in [r] or behind it *)
    apply app_eq_inv in H as [(k' & -> & H)|(k' & -> & H)].
    + destruct k' as [|c k'].
      * right. exists [], y. by rewrite H.
      * destruct (Hr' (c :: k') b y); [|done].
        apply tails_spec. split; [done|]. by exists k.
    + right. exists k', y. by rewrite H.
Qed.

(** A text does not cover a code unit it does not hold. *)
Lemma occurs_cut c q a b :
  c ∉ q → occurs q (a ++ c :: b) → occurs q a ∨ occurs q b.
Proof.
  intros Hc (x & y & H).
  apply app_eq_inv in H as [(k & -> & H)|(k & -> & H)].
  - apply app_eq_inv in H as [(k' & -> & H)|(k' & -> & H)].
    + destruct k' as [|c' k'].
      * left. exists x, []. by rewrite !app_nil_r.
      * injection H as -> _. destruct Hc. apply elem_of_app. right. left.
    + left. exists x, k'. by rewrite <- ?app_assoc.
  - destruct k as [|c' k].
    + destruct q as [|c' q].
      * right. exists [], b. done.
      * injection H as -> _. destruct Hc. left.
    + injection H as -> H. right. exists k, y. done.
Qed.

Lemma occurs_behind u q b :
  Forall (λ c, c ∉ q) u → q ≠ [] → occurs q (u ++ b) → occurs q b.
Proof.
  intros Hu Hq. induction Hu as [|c u Hc _ IH]; [done|].
  intros H. apply (occurs_cut c q [] (u ++ b) Hc) in H as [H|H].
  - by apply occurs_nil in H.
  - by apply IH.
Qed.

Lemma occurs_cuts u q a b :
  Forall (λ c, c ∉ q) u → u ≠ [] → q ≠ [] →
  occurs q (a ++ u ++ b) → occurs q a ∨ occurs q b.
Proof.
  intros Hu Hne Hq H. destruct Hu as [|c u Hc Hu]; [done|].
  apply (occurs_cut c q a (u ++ b) Hc) in H as [H|H]; [by left|].
  right. by apply (occurs_behind u).
Qed.

(** ** What a global replacement leaves clear *)

Section Clearing.
Variable p : regex.
Variables q w r' : list N.
Hypothesis p_nonempty : ∀ t, matches p t ≠ Some O.
Hypothesis p_starts : ∀ t n, matches p t = Some n → w `prefix_of` t.
Hypothesis w_short : (length w < length q)%nat.
Hypothesis q_isolated : isolated q r'.

(** When every occurrence of [q] in a text is at a match of [p], which
    starts with [w], and [q] cannot overlap what follows [w] in the
    replacement, then no occurrence of [q] is left. *)
Lemma replaceAll_clear s :
  (∀ j, q `prefix_of` drop j s → matches p (drop j s) ≠ None) →
  ¬ occurs q (replaceAll p (w ++ r') s).
Proof.
  remember (length s) as k eqn:Hk. revert s Hk.
  induction k as [k IH] using lt_wf_ind. intros s -> H.
  destruct (replaceAll_first p (w ++ r') p_nonempty s)
    as [[Hnone ->]|(u & n & rest & -> & Hu & Hm & ->)].
  - intros (j & Hj)%occurs_prefix. apply (H j Hj).
    by apply has_match_false.
  - destruct (p_starts _ _ Hm) as [m' ->].
    rewrite <- (app_assoc w r'), (app_assoc u w).
    intros [Hocc|Hocc]%q_isolated.
    + apply occurs_prefix in Hocc as (j & t & Hj).
      assert (length q ≤ length (drop j (u ++ w)))%nat as Hlen
        by (rewrite Hj, length_app; lia).
      rewrite length_drop, length_app in Hlen.
      apply (H j).
      * exists (t ++ m').
        rewrite (app_assoc q t m'), <- Hj, (app_assoc u w m').
        apply drop_app_le. rewrite length_app. lia.
      * apply Hu. lia.
    + revert Hocc. eapply IH; [|reflexivity|].
      * pose proof (matches_length _ _ _ Hm) as Hn.
        rewrite length_drop, !length_app in *. lia.
      * intros j. pose proof (matches_length _ _ _ Hm) as Hn.
        specialize (H (length u + S n + j)%nat).
        rewrite <- !drop_drop, drop_app_length in H. done.
Qed.
End Clearing.

(** A replacement keeps out a literal that cannot overlap it. *)
Lemma replaceAll_keeps_out p q w r' s :
  (∀ t, matches p t ≠ Some O) →
  (∀ t n, matches p t = Some n → w `prefix_of` t) →
  (length w < length q)%nat →
  isolated q r' →
  has_match (Chr <$> q) s = false →
  has_match (Chr <$> q) (replaceAll p (w ++ r') s) = false.
Proof.
  intros Hp Hw Hlen Hq Hs. apply occurs_has_match.
  apply replaceAll_clear; try done.
  intros j Hj. apply occurs_has_match in Hs. destruct Hs.
  apply occurs_prefix. by exists j.
Qed.

(** The replacement of a literal by a text it cannot overlap leaves no
    occurrence of the literal. *)
Lemma replaceAll_clears q r s :
  q ≠ [] → isolated q r →
  has_match (Chr <$> q) (replaceAll (Chr <$> q) r s) = false.
Proof.
  intros Hne Hq. apply occurs_has_match.
  apply (replaceAll_clear (Chr <$> q) q [] r).
  - intros t [Hm _]%matches_lit_Some. by destruct q.
  - intros t n _. apply prefix_nil.
  - destruct q; [done|]. simpl. lia.
  - done.
  - intros j Hj. by rewrite (matches_lit_prefix _ _ Hj).
Qed.

(** ** Texts stay texts *)

Lemma surrogate_neither c :
  surrogate c = false → is_high c = false ∧ is_low c = false.
Proof.
  unfold surrogate, is_high, is_low.
  rewrite !Unicode.between_false. lia.
Qed.

Lemma well_formed_behind m t :
  Forall (λ c, surrogate c = false) m →
  well_formed (m ++ t) = true → well_formed t = true.
Proof.
  induction 1 as [|c m Hc _ IH]; [done|].
  cbn [app well_formed]. apply surrogate_neither in Hc as [-> _].
  intros [_ H]%andb_true_iff. by apply IH.
Qed.

Lemma well_formed_split u m t :
  Forall (λ c, surrogate c = false) m → m ≠ [] →
  well_formed (u ++ m ++ t) = true →
  well_formed u = true ∧ well_formed t = true.
Proof.
  intros Hm Hne.
  remember (length u) as k eqn:Hk. revert u Hk.
  induction k as [k IH] using lt_wf_ind. intros u ->.
  destruct u as [|c u].
  { intros H. split; [done|]. by apply (well_formed_behind m). }
  cbn [app well_formed]. destruct (is_high c).
  - destruct u as [|d u].
    + destruct Hm as [|c' m Hc' _]; [done|].
      apply surrogate_neither in Hc' as [_ Hlow].
      cbn [app]. by rewrite Hlow.
    + cbn [app]. intros [-> H]%andb_true_iff.
      by apply (IH (length u) ltac:(simpl; lia) u eq_refl).
  - intros [-> H]%andb_true_iff.
    by apply (IH (length u) ltac:(simpl; lia) u eq_refl).
Qed.

Lemma well_formed_app a b :
  well_formed a = true → well_formed b = true →
  well_formed (a ++ b) = true.
Proof.
  intros Ha Hb.
  remember (length a) as k eqn:Hk. revert a Hk Ha.
  induction k as [k IH] using lt_wf_ind. intros a ->.
  destruct a as [|c a]; [done|].
  cbn [app well_formed]. destruct (is_high c).
  - destruct a as [|d a]; [done|].
    cbn [app]. intros [-> H]%andb_true_iff.
    by apply (IH (length a) ltac:(simpl; lia) a eq_refl).
  - intros [-> H]%andb_true_iff.
    by apply (IH (length a) ltac:(simpl; lia) a eq_refl).
Qed.

Lemma well_formed_ascii s :
  Forall (λ c, c < 0x80) s → well_formed s = true.
Proof.
  induction 1 as [|c s Hc _ IH]; [done|].
  cbn [well_formed]. unfold is_high, is_low.
  rewrite (proj2 (Unicode.between_false 0xD800 0xDBFF c)) by lia.
  rewrite (proj2 (Unicode.between_false 0xDC00 0xDFFF c)) by lia.
  rewrite (proj2 (N.ltb_lt c 0x10000)) by lia. done.
Qed.

(** A pattern none of whose atoms takes a surrogate matches texts
    without surrogates. *)
Lemma plain_matches p :
  (∀ a, surrogate a = true → Forall (avoids a) p) →
  ∀ t n, matches p t = Some n →
         Forall (λ c, surrogate c = false) (take n t).
Proof.
  intros Hp t n Hm. apply Forall_forall. intros c Hc.
  destruct (surrogate c) eqn:Hs; [|done].
  by destruct (Anchored.matches_avoid c p t n (Hp c Hs) Hm) as [_ []].
Qed.

Section Preserved.
Variable p : regex.
Variable r : list N.
Hypothesis p_nonempty : ∀ t, matches p t ≠ Some O.
Hypothesis p_plain :
  ∀ t n, matches p t = Some n →
         Forall (λ c, surrogate c = false) (take n t).
Hypothesis r_text : well_formed r = true.

Lemma replaceAll_well_formed s :
  well_formed s = true → well_formed (replaceAll p r s) = true.
Proof.
  remember (length s) as k eqn:Hk. revert s Hk.
  induction k as [k IH] using lt_wf_ind. intros s -> Hs.
  destruct (replaceAll_first p r p_nonempty s)
    as [[_ ->]|(u & n & rest & -> & _ & Hm & ->)]; [done|].
  pose proof (matches_length _ _ _ Hm) as Hn.
  rewrite <- (take_drop (S n) rest) in Hs.
  apply well_formed_split in Hs as [Hu Hrest].
  - apply well_formed_app; [done|]. apply well_formed_app; [done|].
    eapply IH; [|reflexivity|done].
    rewrite length_drop, length_app. lia.
  - by apply p_plain.
  - destruct rest; [simpl in Hn; lia|done].
Qed.
End Preserved.
End Occurrences.

(** ** The reference rewriter *)

Module Rewriter.
Import JS JSFacts Avatar Patterns Texts Observe Anchored.

Lemma replaceAll_no_match p r s :
  has_match p s = false → replaceAll p r s = s.
Proof.
  unfold replaceAll. induction s as [|c s IH]; simpl.
  - by destruct (matches p []).
  - destruct (matches p (c :: s)); [done|]. intros Hs. by rewrite IH.
Qed.

Lemma dec_digits_digit fuel n acc :
  Forall (λ c, is_digit c = true) acc →
  Forall (λ c, is_digit c = true) (dec_digits fuel n acc).
Proof.
  revert n acc. induction fuel as [|fuel IH]; intros n acc Hacc;
    cbn [dec_digits];
    assert (is_digit (48 + n mod 10) = true)
      by (pose proof (N.mod_lt n 10 ltac:(done)) as Hm;
          revert Hm; generalize (n mod 10); intros m Hm;
          unfold is_digit; apply andb_true_intro;
          split; apply N.leb_le; lia).
  - by constructor.
  - destruct (n / 10 =? 0); [by constructor|]. apply IH. by constructor.
Qed.

Lemma dec_digit n : Forall (λ c, is_digit c = true) (dec n).
Proof. apply dec_digits_digit. constructor. Qed.

Lemma run_digits n t : run is_digit (dec n ++ 34 :: t) = length (dec n).
Proof.
  induction (dec_digit n) as [|c l Hc _ IH]; [done|].
  simpl. by rewrite Hc, IH.
Qed.

Lemma dec_digits_length fuel n acc :
  (length acc < length (dec_digits fuel n acc))%nat.
Proof.
  revert n acc. induction fuel as [|fuel IH]; intros n acc;
    cbn [dec_digits]; [simpl; lia|].
  destruct (n / 10 =? 0); [simpl; lia|].
  specialize (IH (n / 10) ((48 + n mod 10) :: acc)). simpl in IH. lia.
Qed.

Lemma dec_nonempty n : (1 ≤ length (dec n))%nat.
Proof.
  pose proof (dec_digits_length (N.to_nat (N.log2 n)) n []) as H.
  unfold dec. simpl in H. lia.
Qed.

Lemma re_og_split dimension :
  re_og dimension
  = (Chr <$> og_head dimension) ++ [Many is_digit 1; Chr 34; Chr 62].
Proof.
  unfold re_og, og_head, rdq, lit, dq.
  rewrite !fmap_app, <- !app_assoc. done.
Qed.

Lemma new_og_split dimension pixels :
  new_og dimension pixels = og_head dimension ++ dec pixels ++ [34; 62].
Proof. unfold new_og, og_head, dq. by rewrite <- !app_assoc. Qed.

Lemma matches_lit l q x :
  matches ((Chr <$> l) ++ q) (l ++ x)
  = Nat.add (length l) <$> matches q x.
Proof.
  induction l as [|c l IH]; cbn [fmap list_fmap app matches length] in *.
  - by destruct (matches q x).
  - rewrite N.eqb_refl, IH. by destruct (matches q x).
Qed.

(** A rewritten tag matches its own pattern, as a whole. *)
Lemma matches_new_og dimension pixels t :
  matches (re_og dimension) (new_og dimension pixels ++ t)
  = Some (length (new_og dimension pixels)).
Proof.
  rewrite re_og_split, new_og_split, <- !app_assoc, matches_lit.
  change ([34; 62] ++ t) with (34 :: 62 :: t).
  cbn [matches]. rewrite run_digits.
  pose proof (dec_nonempty pixels) as Hlen. pose proof Hlen as Hlen'.
  destruct (length (dec pixels)) as [|k] eqn:Hk in Hlen |- * at 1; [lia|].
  cbn [backtrack]. rewrite <- Hk, drop_app_length.
  rewrite (proj2 (Nat.ltb_ge _ _) Hlen'). simpl.
  rewrite !length_app. simpl. f_equal.
Qed.

Lemma re_og_anchored dimension :
  re_og dimension = Chr 60 :: og_tail dimension.
Proof. done. Qed.

Lemma new_og_anchored dimension pixels :
  new_og dimension pixels = 60 :: new_og_tail dimension pixels.
Proof. by rewrite new_og_split. Qed.

Lemma og_tail_width : Forall (avoids 60) (og_tail "og:image:width").
Proof. vm_compute. repeat (constructor; [done|]). constructor. Qed.

Lemma og_tail_height : Forall (avoids 60) (og_tail "og:image:height").
Proof. vm_compute. repeat (constructor; [done|]). constructor. Qed.

Lemma new_og_tail_no_anchor dimension pixels :
  60 ∉ tail (og_head dimension) → 60 ∉ new_og_tail dimension pixels.
Proof.
  intros Hhead. unfold new_og_tail. rewrite !not_elem_of_app.
  split; [done|]. split.
  - intros Hin. pose proof (dec_digit pixels) as Hd.
    rewrite Forall_forall in Hd. by apply Hd in Hin.
  - apply (bool_decide_unpack _). by vm_compute.
Qed.

Lemma og_head_width : 60 ∉ tail (og_head "og:image:width").
Proof. apply (bool_decide_unpack _). by vm_compute. Qed.

Lemma og_head_height : 60 ∉ tail (og_head "og:image:height").
Proof. apply (bool_decide_unpack _). by vm_compute. Qed.

(** A rewritten tag does not match the pattern of the other dimension. *)
Lemma width_not_height pixels t :
  matches re_og_height (new_og_width pixels ++ t) = None.
Proof. done. Qed.

Lemma height_not_width pixels t :
  matches re_og_width (new_og_height pixels ++ t) = None.
Proof. done. Qed.

Lemma step_new_og dimension pixels t :
  step (re_og dimension) (new_og dimension pixels)
    (new_og dimension pixels ++ t)
  = new_og dimension pixels ++ t.
Proof. unfold step. by rewrite matches_new_og, drop_app_length. Qed.

Lemma step_Some p r c n : matches p c = Some n → step p r c = r ++ drop n c.
Proof. unfold step. by intros ->. Qed.

Lemma step_None p r c : matches p c = None → step p r c = c.
Proof. unfold step. by intros ->. Qed.

(** The two dimension substitutions leave their own result alone. *)
Lemma og_dimensions_settled width height s :
  let out :=
    replaceAll re_og_height (new_og_height height)
      (replaceAll re_og_width (new_og_width width) s) in
  replaceAll re_og_width (new_og_width width) out = out
  ∧ replaceAll re_og_height (new_og_height height) out = out.
Proof.
  unfold re_og_width, re_og_height. rewrite !re_og_anchored.
  apply (replaceAll_twice 60 _ _ (new_og_tail "og:image:width" width)
           _ _ (new_og_tail "og:image:height" height)).
  - apply og_tail_width.
  - apply new_og_anchored.
  - apply new_og_tail_no_anchor, og_head_width.
  - apply og_tail_height.
  - apply new_og_anchored.
  - apply new_og_tail_no_anchor, og_head_height.
  - intros c. rewrite <- !re_og_anchored.
    change (re_og "og:image:width") with re_og_width.
    change (re_og "og:image:height") with re_og_height.
    change (new_og "og:image:width" width) with (new_og_width width).
    change (new_og "og:image:height" height) with (new_og_height height).
    destruct (matches re_og_width c) as [n|] eqn:Hw.
    + rewrite (step_Some re_og_width _ c n Hw).
      rewrite (step_None re_og_height (new_og_height height) _
                 (width_not_height width (drop n c))).
      exact (step_new_og "og:image:width" width (drop n c)).
    + rewrite (step_None re_og_width _ c Hw).
      destruct (matches re_og_height c) as [m|] eqn:Hh.
      * rewrite (step_Some re_og_height _ c m Hh).
        exact (step_None re_og_width (new_og_width width) _
                 (height_not_width height (drop m c))).
      * rewrite (step_None re_og_height _ c Hh).
        exact (step_None re_og_width _ c Hw).
  - intros c. rewrite <- !re_og_anchored.
    destruct (matches (re_og "og:image:height") c) as [m|] eqn:Hh.
    + rewrite (step_Some _ _ c m Hh).
      exact (step_new_og "og:image:height" height (drop m c)).
    + rewrite (step_None _ _ c Hh). exact (step_None _ _ c Hh).
Qed.

(** The rewriter leaves its own output alone when none of the patterns on
    the remote URL that it replaces matches in it. *)
Lemma rewriteReferences_again avatarPath avatarWebpPath avatarFullUrl
    width height html :
  let out :=
    rewriteReferences avatarPath avatarWebpPath avatarFullUrl width height
      html in
  (is_Some avatarWebpPath → has_match re_srcset out = false) →
  has_match re_src out = false →
  has_match re_content out = false →
  has_match re_image out = false →
  rewriteReferences avatarPath avatarWebpPath avatarFullUrl width height out
  = out.
Proof.
  cbv zeta. intros Hsrcset Hsrc Hcontent Himage.
  unfold rewriteReferences at 1.
  replace (if avatarWebpPath is Some _
           then replaceAll re_srcset new_srcset _ else _)
    with (rewriteReferences avatarPath avatarWebpPath avatarFullUrl width
            height html)
    by (destruct avatarWebpPath;
        [by rewrite replaceAll_no_match by (by apply Hsrcset)
        | reflexivity]).
  rewrite (replaceAll_no_match re_src) by assumption.
  rewrite (replaceAll_no_match re_content) by assumption.
  rewrite (replaceAll_no_match re_image) by assumption.
  unfold rewriteReferences.
  destruct (og_dimensions_settled width height
              (replaceAll re_image (new_image avatarFullUrl)
                 (replaceAll re_content (new_content avatarFullUrl)
                    (replaceAll re_src (new_src avatarPath)
                       (if avatarWebpPath is Some _
                        then replaceAll re_srcset new_srcset html
                        else html)))))
    as [Hw Hh].
  by rewrite Hw, Hh.
Qed.

(** *** The patterns and the texts put in their place *)

Lemma chr_nonempty c p t : matches (Chr c :: p) t ≠ Some O.
Proof.
  cbn [matches]. destruct t as [|x t]; [done|].
  destruct (x =? c); [|done]. by destruct (matches p t).
Qed.

Lemma chr_starts c p t n :
  matches (Chr c :: p) t = Some n → [c] `prefix_of` t.
Proof.
  cbn [matches]. destruct t as [|x t]; [done|].
  destruct (N.eqb_spec x c) as [->|]; [|done]. intros _. by exists t.
Qed.

Lemma is_space_surrogate a : surrogate a = true → is_space a = false.
Proof.
  unfold surrogate, is_space. intros [Hlo Hhi]%Unicode.between_spec.
  apply orb_false_iff. split.
  - apply bool_decide_eq_false. rewrite !elem_of_cons, elem_of_nil. lia.
  - apply andb_false_iff. rewrite !N.leb_gt. lia.
Qed.

Lemma is_digit_surrogate a : surrogate a = true → is_digit a = false.
Proof.
  unfold surrogate, is_digit. intros [Hlo Hhi]%Unicode.between_spec.
  apply andb_false_iff. rewrite !N.leb_gt. lia.
Qed.

Lemma avoids_ascii a l :
  surrogate a = true → Forall (λ c, c < 0x80) l →
  Forall (avoids a) (Chr <$> l).
Proof.
  intros [Hlo Hhi]%Unicode.between_spec Hl. apply Forall_fmap.
  eapply Forall_impl; [exact Hl|]. intros c Hc. simpl in Hc.
  change (c ≠ a). lia.
Qed.

(** Settles that a text is of ASCII code units. *)
Ltac ascii := apply (bool_decide_unpack _); by vm_compute.

Lemma lit_plain a s :
  Forall (λ c, c < 0x80) (str s) → surrogate a = true →
  Forall (avoids a) (lit s).
Proof. intros Hs Ha. by apply avoids_ascii. Qed.

Lemma re_url_plain a : surrogate a = true → Forall (avoids a) re_url.
Proof. intros Ha. apply (avoids_ascii a (dq AVATAR_URL) Ha). ascii. Qed.

Lemma re_srcset_plain a : surrogate a = true → Forall (avoids a) re_srcset.
Proof. intros Ha. apply (avoids_ascii a q_srcset Ha). ascii. Qed.

Lemma re_src_plain a : surrogate a = true → Forall (avoids a) re_src.
Proof. intros Ha. apply (avoids_ascii a q_src Ha). ascii. Qed.

Lemma re_content_plain a :
  surrogate a = true → Forall (avoids a) re_content.
Proof. intros Ha. apply (avoids_ascii a q_content Ha). ascii. Qed.

Lemma re_image_plain a : surrogate a = true → Forall (avoids a) re_image.
Proof.
  intros Ha. unfold re_image. rewrite !Forall_app.
  split; [apply (avoids_ascii a (dq (str "image")) Ha); ascii|].
  split; [apply (avoids_ascii a (str ":") Ha); ascii|].
  split; [|by apply re_url_plain].
  constructor; [|constructor]. by apply is_space_surrogate.
Qed.

Lemma re_og_plain a dimension :
  Forall (λ c, c < 0x80) (og_head dimension) →
  surrogate a = true → Forall (avoids a) (re_og dimension).
Proof.
  intros Hd Ha. rewrite re_og_split, Forall_app.
  split; [by apply avoids_ascii|].
  constructor; [by apply is_digit_surrogate|].
  apply (avoids_ascii a [34; 62] Ha). ascii.
Qed.

Lemma dec_ascii n : Forall (λ c, c < 0x80) (dec n).
Proof.
  eapply Forall_impl; [apply dec_digit|]. intros c Hc. simpl in Hc.
  unfold is_digit in Hc. apply andb_true_iff in Hc as [_ Hc%N.leb_le]. lia.
Qed.

Lemma new_og_text dimension pixels :
  Forall (λ c, c < 0x80) (og_head dimension) →
  well_formed (new_og dimension pixels) = true.
Proof.
  intros Hd. apply Occurrences.well_formed_ascii.
  rewrite new_og_split, !Forall_app. split; [done|].
  split; [apply dec_ascii|]. ascii.
Qed.

(** A text stays a text under the six substitutions. *)
Lemma rewriteReferences_well_formed name avatarWebpPath width height html :
  name ∈ names →
  let avatarPath := str "/" ++ name in
  well_formed html = true →
  well_formed
    (rewriteReferences avatarPath avatarWebpPath
       (str "https://bmarwell.de" ++ avatarPath) width height html)
  = true.
Proof.
  intros Hname. cbv zeta. intros Hhtml. unfold rewriteReferences.
  assert (well_formed new_srcset = true) as H1 by by vm_compute.
  assert (well_formed (new_src (str "/" ++ name)) = true
          ∧ well_formed
              (new_content (str "https://bmarwell.de" ++ str "/" ++ name))
            = true
          ∧ well_formed
              (new_image (str "https://bmarwell.de" ++ str "/" ++ name))
            = true) as (H2 & H3 & H4).
  { unfold names in Hname. rewrite !elem_of_cons, elem_of_nil in Hname.
    destruct Hname as [->|[->|[]]]; by vm_compute. }
  apply Occurrences.replaceAll_well_formed;
    [apply chr_nonempty
    |apply Occurrences.plain_matches; intros a Ha;
     apply re_og_plain; [ascii|done]
    |apply new_og_text; ascii|].
  apply Occurrences.replaceAll_well_formed;
    [apply chr_nonempty
    |apply Occurrences.plain_matches; intros a Ha;
     apply re_og_plain; [ascii|done]
    |apply new_og_text; ascii|].
  apply Occurrences.replaceAll_well_formed;
    [apply chr_nonempty
    |apply Occurrences.plain_matches; intros a Ha; by apply re_image_plain
    |done|].
  apply Occurrences.replaceAll_well_formed;
    [apply chr_nonempty
    |apply Occurrences.plain_matches; intros a Ha;
     by apply re_content_plain
    |done|].
  apply Occurrences.replaceAll_well_formed;
    [apply chr_nonempty
    |apply Occurrences.plain_matches; intros a Ha; by apply re_src_plain
    |done|].
  destruct avatarWebpPath; [|done].
  apply Occurrences.replaceAll_well_formed;
    [apply chr_nonempty
    |apply Occurrences.plain_matches; intros a Ha; by apply re_srcset_plain
    |done|done].
Qed.

(** *** What the substitutions leave clear *)

(** The three literals are the patterns. *)
Lemma re_literals :
  re_srcset = Chr <$> q_srcset ∧ re_src = Chr <$> q_src
  ∧ re_content = Chr <$> q_content.
Proof. done. Qed.

(** None of the three literals can overlap a rewritten dimension tag. *)
Lemma og_isolated q dimension pixels :
  60 ∉ q → 62 ∉ q → Forall (λ c, is_digit c = false) q →
  (2 ≤ length q)%nat →
  has_match (Chr <$> q) (tail (og_head dimension)) = false →
  isolated q (new_og dimension pixels).
Proof.
  intros Hlt Hgt Hdigits Hlen Hhead a b.
  assert (q ≠ []) as Hne by (destruct q; [simpl in Hlen; lia|done]).
  rewrite new_og_anchored. unfold new_og_tail. cbn [app].
  rewrite <- !app_assoc. intros H.
  apply (Occurrences.occurs_cut 60 q a _ Hlt) in H as [H|H]; [by left|].
  right.
  assert (Forall (λ c, c ∉ q) (dec pixels)) as Hdec.
  { apply Forall_forall. intros c Hc Hin.
    pose proof (dec_digit pixels) as Hd.
    rewrite Forall_forall in Hd, Hdigits.
    apply Hd in Hc. apply Hdigits in Hin. congruence. }
  assert (dec pixels ≠ []) as Hsome.
  { intros Heq. pose proof (dec_nonempty pixels) as Hl.
    rewrite Heq in Hl. simpl in Hl. lia. }
  apply (Occurrences.occurs_cuts (dec pixels) q _ _ Hdec Hsome Hne)
    in H as [H|H].
  - by apply Occurrences.occurs_has_match in Hhead.
  - cbn [app] in H.
    apply (Occurrences.occurs_cut 62 q [34] b Hgt) in H as [H|H]; [|done].
    apply Occurrences.occurs_length in H. simpl in H. lia.
Qed.

(** Settles that a literal is kept out by a substitution whose
    replacement is a given text. *)
Ltac kept_out w :=
  apply (Occurrences.replaceAll_keeps_out _ _ w);
    [ apply chr_nonempty
    | first [ intros ? ? _; apply prefix_nil | apply chr_starts ]
    | simpl; lia
    | apply Occurrences.apart_isolated; by vm_compute
    | assumption ].

Ltac kept_out_og :=
  apply (Occurrences.replaceAll_keeps_out _ _ []);
    [ apply chr_nonempty
    | intros ? ? _; apply prefix_nil
    | simpl; lia
    | apply og_isolated;
        [ apply (bool_decide_unpack _); by vm_compute
        | apply (bool_decide_unpack _); by vm_compute
        | apply (bool_decide_unpack _); by vm_compute
        | simpl; lia
        | by vm_compute ]
    | assumption ].

(** Whatever the page, the text that the six substitutions leave has no
    match of the [src] and [content] patterns, and none of the [srcset]
    pattern when that is replaced. *)
Lemma rewriteReferences_clear name avatarWebpPath width height html :
  name ∈ names →
  let avatarPath := str "/" ++ name in
  let out :=
    rewriteReferences avatarPath avatarWebpPath
      (str "https://bmarwell.de" ++ avatarPath) width height html in
  (is_Some avatarWebpPath → has_match re_srcset out = false)
  ∧ has_match re_src out = false
  ∧ has_match re_content out = false.
Proof.
  intros Hname. cbv zeta.
  destruct re_literals as (Eq1 & Eq2 & Eq3).
  unfold rewriteReferences.
  set (s1 := if avatarWebpPath is Some _
             then replaceAll re_srcset new_srcset html else html).
  assert (is_Some avatarWebpPath → has_match (Chr <$> q_srcset) s1 = false)
    as H1.
  { intros [x ->]. unfold s1. rewrite Eq1.
    apply Occurrences.replaceAll_clears; [done|].
    apply Occurrences.apart_isolated. by vm_compute. }
  clearbody s1.
  unfold names in Hname. rewrite !elem_of_cons, elem_of_nil in Hname.
  set (s2 := replaceAll re_src _ s1).
  assert ((is_Some avatarWebpPath →
           has_match (Chr <$> q_srcset) s2 = false)
          ∧ has_match (Chr <$> q_src) s2 = false) as [H21 H22].
  { split.
    - intros Hw. specialize (H1 Hw). unfold s2.
      destruct Hname as [->|[->|[]]]; kept_out (@nil N).
    - unfold s2. rewrite Eq2.
      apply Occurrences.replaceAll_clears; [done|].
      apply Occurrences.apart_isolated.
      destruct Hname as [->|[->|[]]]; by vm_compute. }
  clearbody s2. clear H1.
  set (s3 := replaceAll re_content _ s2).
  assert ((is_Some avatarWebpPath →
           has_match (Chr <$> q_srcset) s3 = false)
          ∧ has_match (Chr <$> q_src) s3 = false
          ∧ has_match (Chr <$> q_content) s3 = false) as (H31 & H32 & H33).
  { split; [|split].
    - intros Hw. specialize (H21 Hw). unfold s3.
      destruct Hname as [->|[->|[]]]; kept_out (@nil N).
    - unfold s3. destruct Hname as [->|[->|[]]]; kept_out (@nil N).
    - unfold s3. rewrite Eq3.
      apply Occurrences.replaceAll_clears; [done|].
      apply Occurrences.apart_isolated.
      destruct Hname as [->|[->|[]]]; by vm_compute. }
  clearbody s3. clear H21 H22.
  set (s4 := replaceAll re_image _ s3).
  assert ((is_Some avatarWebpPath →
           has_match (Chr <$> q_srcset) s4 = false)
          ∧ has_match (Chr <$> q_src) s4 = false
          ∧ has_match (Chr <$> q_content) s4 = false) as (H41 & H42 & H43).
  { split; [|split].
    - intros Hw. specialize (H31 Hw). unfold s4.
      destruct Hname as [->|[->|[]]]; kept_out [34].
    - unfold s4. destruct Hname as [->|[->|[]]]; kept_out [34].
    - unfold s4. destruct Hname as [->|[->|[]]]; kept_out [34]. }
  clearbody s4. clear H31 H32 H33.
  set (s5 := replaceAll re_og_width _ s4).
  assert ((is_Some avatarWebpPath →
           has_match (Chr <$> q_srcset) s5 = false)
          ∧ has_match (Chr <$> q_src) s5 = false
          ∧ has_match (Chr <$> q_content) s5 = false) as (H51 & H52 & H53).
  { split; [|split].
    - intros Hw. specialize (H41 Hw). unfold s5. kept_out_og.
    - unfold s5. kept_out_og.
    - unfold s5. kept_out_og. }
  clearbody s5. clear H41 H42 H43.
  rewrite Eq1, Eq2, Eq3.
  split; [|split].
  - intros Hw. specialize (H51 Hw). kept_out_og.
  - kept_out_og.
  - kept_out_og.
Qed.

(** *** Runs of the rewriter *)

(** A run of [updateHTMLReferences] that reads the page and the
    dimensions of the master. *)
Lemma updateHTMLReferences_run AVATAR_DEST_DIR sharp_metadata st page image
    width height :
  fs st !! HTML_FILE AVATAR_DEST_DIR = Some page →
  fs st !! AVATAR_DEST st = Some image →
  sharp_metadata image = Ok (width, height) →
  let avatarPath := str "/" ++ AVATAR_FILENAME st in
  let avatarWebpPath :=
    if bool_decide (AVATAR_WEBP_FILENAME st ≠ [])
    then Some (str "/" ++ AVATAR_WEBP_FILENAME st) else None in
  let out :=
    utf8_encode
      (rewriteReferences avatarPath avatarWebpPath
         (str "https://bmarwell.de" ++ avatarPath) width height
         (utf8_decode page)) in
  updateHTMLReferences AVATAR_DEST_DIR sharp_metadata st
  = (Val tt,
     record (Console (UpdatedDimensions width height))
       (record
          (Console (UpdatedHTML (bool_decide (is_Some avatarWebpPath))))
          (with_fs <[HTML_FILE AVATAR_DEST_DIR := out]>
             (record (WriteFile (HTML_FILE AVATAR_DEST_DIR) out)
                (record (Console (Dimensions width height))
                   (record (Console (Using avatarPath avatarWebpPath))
                      (record (Metadata (AVATAR_DEST st)) st))))))).
Proof.
  intros Hhtml Himage Hmeta. cbv zeta.
  unfold updateHTMLReferences, metadata, readFile_utf8, writeFile_utf8,
    readFile, writeFile, console_log, emit, modify, get, ret, throw.
  unfold bind. cbv beta iota. cbn [fs record].
  rewrite Hhtml. cbv beta iota. rewrite Himage. cbv beta iota.
  unfold await. by rewrite Hmeta.
Qed.

(** A run that cannot read the page or the dimensions writes nothing. *)
Lemma updateHTMLReferences_fails AVATAR_DEST_DIR sharp_metadata st :
  (∀ page image wh,
     fs st !! HTML_FILE AVATAR_DEST_DIR = Some page →
     fs st !! AVATAR_DEST st = Some image →
     sharp_metadata image ≠ Ok wh) →
  let r := updateHTMLReferences AVATAR_DEST_DIR sharp_metadata st in
  r.1 ≠ Val tt ∧ fs r.2 = fs st ∧ AVATAR_DEST r.2 = AVATAR_DEST st.
Proof.
  intros Hfail. cbv zeta.
  unfold updateHTMLReferences, metadata, readFile_utf8, writeFile_utf8,
    readFile, writeFile, console_log, emit, modify, get, ret, throw.
  unfold bind. cbv beta iota. cbn [fs record].
  destruct (fs st !! HTML_FILE AVATAR_DEST_DIR) as [page|] eqn:Hhtml;
    [|done].
  cbv beta iota.
  destruct (fs st !! AVATAR_DEST st) as [image|] eqn:Himage; [|done].
  cbv beta iota. unfold await.
  destruct (sharp_metadata image) as [wh|e] eqn:Hmeta; [|done].
  by destruct (Hfail page image wh).
Qed.

(** C4, as the code has it.  Whatever the page, a run of
    [updateHTMLReferences] leaves no match of the [src] and [content]
    patterns in the text of the page, and none of the [srcset] pattern
    when that is replaced; a match of the structured-data pattern can be
    left.  When none is left, a second run on the output of the first,
    with the master asset as it was, leaves every file byte-identical. *)
Theorem rewriter_idempotent_when_no_image_match_remains
    (AVATAR_DEST_DIR : list N)
    (sharp_metadata : list N → result (N * N)) (st : state) :
  AVATAR_DEST st ≠ HTML_FILE AVATAR_DEST_DIR →
  AVATAR_FILENAME st ∈ names →
  let r1 := updateHTMLReferences AVATAR_DEST_DIR sharp_metadata st in
  (r1.1 = Val tt →
   ∀ page, fs r1.2 !! HTML_FILE AVATAR_DEST_DIR = Some page →
     has_match re_src (utf8_decode page) = false
     ∧ has_match re_content (utf8_decode page) = false
     ∧ (AVATAR_WEBP_FILENAME st ≠ [] →
        has_match re_srcset (utf8_decode page) = false))
  ∧ ((∀ page, fs r1.2 !! HTML_FILE AVATAR_DEST_DIR = Some page →
              has_match re_image (utf8_decode page) = false) →
     fs (updateHTMLReferences AVATAR_DEST_DIR sharp_metadata r1.2).2
     = fs r1.2).
Proof.
  intros Hdest Hname. cbv zeta.
  assert ((∃ page image width height,
             fs st !! HTML_FILE AVATAR_DEST_DIR = Some page
             ∧ fs st !! AVATAR_DEST st = Some image
             ∧ sharp_metadata image = Ok (width, height))
          ∨ ∀ page image wh,
              fs st !! HTML_FILE AVATAR_DEST_DIR = Some page →
              fs st !! AVATAR_DEST st = Some image →
              sharp_metadata image ≠ Ok wh)
    as [(page & image & width & height & Hpage & Himage & Hmeta)|Hfail].
  { destruct (fs st !! HTML_FILE AVATAR_DEST_DIR) as [page|];
      [|right; intros; congruence].
    destruct (fs st !! AVATAR_DEST st) as [image|];
      [|right; intros; congruence].
    destruct (sharp_metadata image) as [[width height]|e] eqn:Hmeta;
      [|right; intros; congruence].
    left. by exists page, image, width, height. }
  2:{ destruct (updateHTMLReferences_fails AVATAR_DEST_DIR sharp_metadata
                  st Hfail) as (Hthrow & Hfs & HD).
      split; [done|]. intros _.
      apply updateHTMLReferences_fails. intros page image wh.
      rewrite Hfs, HD. apply Hfail. }
  rewrite (updateHTMLReferences_run _ _ _ page image width height)
    by assumption.
  cbv zeta. cbn [fst snd].
  set (avatarWebpPath := if bool_decide (AVATAR_WEBP_FILENAME st ≠ [])
                         then Some (str "/" ++ AVATAR_WEBP_FILENAME st)
                         else None).
  set (out := rewriteReferences _ _ _ _ _ _).
  set (st1 := record _ _).
  assert (fs st1 !! HTML_FILE AVATAR_DEST_DIR = Some (utf8_encode out))
    as Hout by apply lookup_insert_eq.
  assert (utf8_decode (utf8_encode out) = out) as Hround.
  { apply Unicode.utf8_decode_encode.
    apply rewriteReferences_well_formed; [done|].
    apply Unicode.utf8_decode_well_formed. }
  destruct (rewriteReferences_clear (AVATAR_FILENAME st) avatarWebpPath
              width height (utf8_decode page) Hname)
    as (Hsrcset & Hsrc & Hcontent).
  fold out in Hsrcset, Hsrc, Hcontent.
  split.
  { intros _ page' Hpage'. rewrite Hout in Hpage'.
    injection Hpage' as <-. rewrite Hround.
    split; [done|]. split; [done|]. intros Hwebp. apply Hsrcset.
    unfold avatarWebpPath. by rewrite bool_decide_eq_true_2. }
  intros Himg. specialize (Himg _ Hout). rewrite Hround in Himg.
  assert (fs st1 !! AVATAR_DEST st1 = Some image) as Himage1.
  { unfold st1. cbn [fs AVATAR_DEST record with_fs].
    by rewrite lookup_insert_ne. }
  rewrite (updateHTMLReferences_run _ _ _ (utf8_encode out) image width
             height) by assumption.
  cbn [snd fs record with_fs].
  change (AVATAR_FILENAME st1) with (AVATAR_FILENAME st).
  change (AVATAR_WEBP_FILENAME st1) with (AVATAR_WEBP_FILENAME st).
  fold avatarWebpPath. rewrite Hround.
  unfold out at 1. rewrite rewriteReferences_again by done.
  fold out. unfold st1. cbn [fs record with_fs].
  by rewrite insert_insert_eq.
Qed.

Lemma rewriter_idempotent_when_no_image_match_remains_witness :
  let r1 :=
    updateHTMLReferences Sample.dist Sample.metadata
      (Sample.built Sample.page) in
  (r1.1 = Val tt →
   ∀ page, fs r1.2 !! HTML_FILE Sample.dist = Some page →
     has_match re_src (utf8_decode page) = false
     ∧ has_match re_content (utf8_decode page) = false
     ∧ (AVATAR_WEBP_FILENAME (Sample.built Sample.page) ≠ [] →
        has_match re_srcset (utf8_decode page) = false))
  ∧ fs (updateHTMLReferences Sample.dist Sample.metadata r1.2).2
    = fs r1.2.
Proof.
  destruct (rewriter_idempotent_when_no_image_match_remains Sample.dist
              Sample.metadata (Sample.built Sample.page))
    as [Hclear Hsame].
  - apply (bool_decide_unpack _). by vm_compute.
  - apply (bool_decide_unpack _). by vm_compute.
  - split; [exact Hclear|]. apply Hsame.
    intros page Hpage. vm_compute in Hpage. injection Hpage as <-.
    by vm_compute.
Defined.

(** C4, as the spec has it, fails on a page in which a match of the
    structured-data pattern is followed at once by a second entry that
    lacks its opening quote: the closing quote of the first replacement
    opens a new match, so the first run leaves a placeholder behind and
    the second run changes the page again. *)
Lemma rewriter_second_run_changes_page :
  let r1 :=
    updateHTMLReferences Sample.dist Sample.metadata
      (Sample.built Sample.adjacent) in
  let r2 := updateHTMLReferences Sample.dist Sample.metadata r1.2 in
  r1.1 = Val tt ∧ r2.1 = Val tt
  ∧ fs r1.2 !! HTML_FILE Sample.dist
    = Some (new_image (str "https://bmarwell.de/avatar.png")
            ++ str "image" ++ [34] ++ str ":" ++ dq AVATAR_URL)
  ∧ fs r2.2 !! HTML_FILE Sample.dist
    = Some (new_image (str "https://bmarwell.de/avatar.png")
            ++ str "image" ++ [34] ++ str ":"
            ++ dq (str "https://bmarwell.de/avatar.png"))
  ∧ fs r2.2 !! HTML_FILE Sample.dist ≠ fs r1.2 !! HTML_FILE Sample.dist.
Proof.
  split; [by vm_compute|]. split; [by vm_compute|].
  split; [by vm_compute|]. split; [by vm_compute|].
  apply (bool_decide_unpack _). by vm_compute.
Qed.

(** C3 fails on the code.  [AVATAR_WEBP_FILENAME] starts as
    ['avatar.webp'] and nothing ever clears it, so the guard of the
    [srcset] substitution is always open.  Here no quality level beats the
    original size: all five are tried, no full-size WebP file is written,
    and yet the page written by [updateHTMLReferences] has its [srcset]
    rewritten to the WebP renditions. *)
Theorem srcset_rewritten_without_webp_rendition :
  let st' :=
    (main Sample.dist Sample.serving Sample.imagemin Sample.bulky
       Sample.metadata 5
       (initial Sample.dist {[HTML_FILE Sample.dist := Sample.page]})).2 in
  attempts (trace st') = [80; 75; 70; 65; 60]
  ∧ fs st' !! path_join Sample.dist (str "avatar.webp") = None
  ∧ AVATAR_WEBP_FILENAME st' = str "avatar.webp"
  ∧ fs st' !! HTML_FILE Sample.dist
    = Some (str "<picture><source type=" ++ dq (str "image/webp")
            ++ str " " ++ new_srcset ++ str "><img "
            ++ new_src (str "/avatar.png") ++ str "></picture>").
Proof. by vm_compute. Qed.
End Rewriter.

(** ** The compression stage *)

Module CompressionStage.
Import JS Compress Turns.

(** C8 fails on the code: the Brotli script has a list of its own.  It
    names [bmarwell.asc], which the other two do not, and misses the two
    key files they compress. *)
Theorem brotli_compresses_other_files :
  FILES_TO_COMPRESS Gzip = FILES_TO_COMPRESS Zstd
  ∧ FILES_TO_COMPRESS Brotli ≠ FILES_TO_COMPRESS Gzip
  ∧ str "bmarwell-apache.asc" ∈ FILES_TO_COMPRESS Gzip
  ∧ (str "bmarwell-apache.asc" ∉ FILES_TO_COMPRESS Brotli)
  ∧ str "bmarwell-personal.asc" ∈ FILES_TO_COMPRESS Gzip
  ∧ (str "bmarwell-personal.asc" ∉ FILES_TO_COMPRESS Brotli)
  ∧ str "bmarwell.asc" ∈ FILES_TO_COMPRESS Brotli
  ∧ (str "bmarwell.asc" ∉ FILES_TO_COMPRESS Gzip).
Proof.
  split; [done|].
  repeat split; apply (bool_decide_unpack _); by vm_compute.
Qed.

Lemma artifact_inj a f g :
  path_join DIST_DIR f ++ suffix a = path_join DIST_DIR g ++ suffix a →
  f = g.
Proof.
  unfold path_join. intros H%app_inv_tail%app_inv_head.
  by apply app_inv_head in H.
Qed.

Section Stage.
Variable env : algorithm → option (list N).
Variable parseInt : list N → N.
Variable compress : call → list N → result (list N).
Variable a : algorithm.

Local Abbreviation c := (library_call env parseInt a).
Local Abbreviation done_with := (Turns.done_with compress c a).

Lemma for_files_cons file rest st :
  for_files env parseInt compress a (file :: rest) st
  = for_files env parseInt compress a rest (turn compress c a file st).
Proof.
  cbn [for_files]. unfold turn.
  unfold compressFile, access, readFile, writeFile, console, emit,
    modify, get, await, ret, throw.
  unfold bind, try_catch. cbv beta iota. cbn [fs record].
  destruct (fs st !! path_join DIST_DIR file) as [content|] eqn:Hfile;
    [|reflexivity].
  cbv beta iota. rewrite Hfile. cbv beta iota.
  destruct (compress (library_call env parseInt a) content); reflexivity.
Qed.

Lemma for_files_returns files st :
  (for_files env parseInt compress a files st).1 = Val tt.
Proof.
  revert st. induction files as [|file rest IH]; intros st; [done|].
  rewrite for_files_cons. apply IH.
Qed.

(** A turn changes the artifact of its file only, and adds to the
    console. *)
Lemma turn_other file st p :
  p ≠ path_join DIST_DIR file ++ suffix a →
  fs (turn compress c a file st) !! p = fs st !! p.
Proof.
  intros Hp. unfold turn.
  destruct (fs st !! path_join DIST_DIR file) as [content|]; [|done].
  destruct (compress c content); [|done].
  cbn [fs record with_fs]. by rewrite lookup_insert_ne.
Qed.

Lemma turn_trace file st :
  ∃ t, trace (turn compress c a file st) = trace st ++ t.
Proof.
  unfold turn.
  destruct (fs st !! path_join DIST_DIR file) as [content|];
    [|by eexists].
  destruct (compress c content); [|by eexists].
  cbn [trace record with_fs]. rewrite <- app_assoc. by eexists.
Qed.

Lemma for_files_other files st p :
  (∀ file, file ∈ files → p ≠ path_join DIST_DIR file ++ suffix a) →
  fs (for_files env parseInt compress a files st).2 !! p = fs st !! p.
Proof.
  revert st. induction files as [|file rest IH]; intros st Hp; [done|].
  rewrite for_files_cons, IH.
  - apply turn_other, Hp. left.
  - intros g Hg. apply Hp. by right.
Qed.

Lemma for_files_trace files st :
  ∃ t, trace (for_files env parseInt compress a files st).2
       = trace st ++ t.
Proof.
  revert st. induction files as [|file rest IH]; intros st.
  - exists []. by rewrite app_nil_r.
  - rewrite for_files_cons.
    destruct (IH (turn compress c a file st)) as [t ->].
    destruct (turn_trace file st) as [t' ->].
    rewrite <- app_assoc. by eexists.
Qed.

(** The loop treats every file of the list on its own, when the files
    are distinct and none is the artifact of another. *)
Lemma for_files_each files st :
  NoDup files →
  (∀ f g, f ∈ files → g ∈ files →
          path_join DIST_DIR f ≠ path_join DIST_DIR g ++ suffix a) →
  ∀ file, file ∈ files →
    done_with file st (for_files env parseInt compress a files st).2.
Proof.
  revert st. induction files as [|file rest IH]; intros st Hdup Hout g Hg;
    [by apply elem_of_nil in Hg|].
  apply NoDup_cons in Hdup as [Hfile Hdup].
  rewrite for_files_cons.
  set (st1 := turn compress c a file st).
  apply elem_of_cons in Hg as [->|Hg].
  - (* the file of this turn: later turns leave its artifact alone *)
    unfold Turns.done_with. cbv zeta.
    destruct (for_files_trace rest st1) as [t Ht].
    rewrite for_files_other; last first.
    { intros f Hf Heq%artifact_inj. by subst. }
    rewrite Ht. unfold st1, turn.
    destruct (fs st !! path_join DIST_DIR file) as [content|].
    + destruct (compress c content) as [compressed|e].
      * cbn [fs record with_fs]. apply lookup_insert_eq.
      * cbn [fs trace record]. split; [|done]. set_solver.
    + cbn [fs trace record]. split; [|done]. set_solver.
  - (* a later file: this turn does not touch it *)
    assert (g ≠ file) as Hne by (by intros ->).
    assert (∀ f g, f ∈ rest → g ∈ rest →
              path_join DIST_DIR f ≠ path_join DIST_DIR g ++ suffix a)
      as Hout' by (intros f' g' Hf' Hg'; apply Hout; by right).
    specialize (IH st1 Hdup Hout' g Hg).
    unfold Turns.done_with in *. cbv zeta in *.
    rewrite !(turn_other file st) in IH.
    + done.
    + by intros Heq%artifact_inj.
    + apply Hout; [by right | left].
Qed.
End Stage.

Lemma files_distinct a : NoDup (FILES_TO_COMPRESS a).
Proof. destruct a; apply (bool_decide_unpack _); by vm_compute. Qed.

(** No file of a list is the artifact of another. *)
Lemma files_not_artifacts a f g :
  f ∈ FILES_TO_COMPRESS a → g ∈ FILES_TO_COMPRESS a →
  path_join DIST_DIR f ≠ path_join DIST_DIR g ++ suffix a.
Proof.
  intros Hf Hg. revert f Hf. apply Forall_forall.
  revert g Hg. apply Forall_forall.
  destruct a; apply (bool_decide_unpack _); by vm_compute.
Qed.

Lemma main_run env parseInt compress a st :
  main env parseInt compress a st
  = (Val tt,
     record (Console Blank)
       (for_files env parseInt compress a (FILES_TO_COMPRESS a)
          (record (Console (Compressing a
                              (COMPRESSION_LEVEL env parseInt a))) st)).2).
Proof.
  unfold main, console, emit, modify. unfold bind at 1. cbv beta iota.
  unfold bind.
  pose proof (for_files_returns env parseInt compress a
                (FILES_TO_COMPRESS a)
                (record (Console (Compressing a
                                    (COMPRESSION_LEVEL env parseInt a)))
                   st)) as Hret.
  destruct (for_files _ _ _ _ _ _) as [o st']. simpl in Hret. by subst o.
Qed.

(** What [main] has done for each file of its list. *)
Lemma main_each env parseInt compress a st file :
  file ∈ FILES_TO_COMPRESS a →
  done_with compress (library_call env parseInt a) a file st
    (main env parseInt compress a st).2.
Proof.
  intros Hfile. rewrite main_run. cbn [snd].
  pose proof (for_files_each env parseInt compress a (FILES_TO_COMPRESS a)
                (record (Console (Compressing a
                                    (COMPRESSION_LEVEL env parseInt a)))
                   st)
                (files_distinct a) (files_not_artifacts a) file Hfile)
    as Hdone.
  unfold Turns.done_with in *. cbv zeta in *. cbn [fs trace record] in *.
  destruct (fs st !! path_join DIST_DIR file) as [content|].
  - destruct (compress _ content) as [compressed|e]; [done|].
    destruct Hdone as [Hin ?]. split; [|done]. set_solver.
  - destruct Hdone as [Hin ?]. split; [|done]. set_solver.
Qed.

(** C5, as the code has it: for every file of an algorithm's list that is
    present and that the library compresses without an error, the stage
    leaves a sibling artifact, named by the source path and the
    algorithm's suffix, which holds the library's output; it decompresses
    to the bytes of the source, which is left as it was. *)
Theorem compressed_artifact_decompresses
    (env : algorithm → option (list N)) (parseInt : list N → N)
    (compress : call → list N → result (list N))
    (decompress : algorithm → list N → option (list N))
    (a : algorithm) (st : state) (file content compressed : list N) :
  (∀ x y, compress (library_call env parseInt a) x = Ok y →
          decompress a y = Some x) →
  file ∈ FILES_TO_COMPRESS a →
  fs st !! path_join DIST_DIR file = Some content →
  compress (library_call env parseInt a) content = Ok compressed →
  let st' := (main env parseInt compress a st).2 in
  fs st' !! (path_join DIST_DIR file ++ suffix a) = Some compressed
  ∧ decompress a compressed = Some content
  ∧ fs st' !! path_join DIST_DIR file = Some content.
Proof.
  intros Hround Hfile Hcontent Hcompressed. cbv zeta.
  pose proof (main_each env parseInt compress a st file Hfile) as Hdone.
  unfold Turns.done_with in Hdone. cbv zeta in Hdone.
  rewrite Hcontent, Hcompressed in Hdone.
  split; [done|]. split; [by apply Hround|].
  rewrite main_run. cbn [snd fs record]. rewrite for_files_other.
  - done.
  - intros g Hg. by apply files_not_artifacts.
Qed.

Lemma compressed_artifact_decompresses_witness :
  let st' :=
    (main SampleCodec.no_env SampleCodec.parseInt SampleCodec.store Gzip
       (SampleCodec.dist (str "<html>"))).2 in
  fs st' !! (path_join DIST_DIR (str "index.html") ++ suffix Gzip)
  = Some (0 :: str "<html>")
  ∧ SampleCodec.unstore Gzip (0 :: str "<html>") = Some (str "<html>")
  ∧ fs st' !! path_join DIST_DIR (str "index.html") = Some (str "<html>").
Proof.
  apply (compressed_artifact_decompresses SampleCodec.no_env
           SampleCodec.parseInt SampleCodec.store SampleCodec.unstore Gzip
           (SampleCodec.dist (str "<html>")) (str "index.html")
           (str "<html>") (0 :: str "<html>")).
  - intros x y [= <-]. reflexivity.
  - apply (bool_decide_unpack _). by vm_compute.
  - by vm_compute.
  - reflexivity.
Defined.

(** C5, as the spec has it, fails when the library gives up on a file:
    the page is present (and empty), the compressor returns an error, the
    script logs it, and no sibling artifact exists afterwards. *)
Lemma no_artifact_when_compression_fails :
  let st := SampleCodec.dist [] in
  let r :=
    main SampleCodec.no_env SampleCodec.parseInt SampleCodec.picky Brotli
      st in
  str "index.html" ∈ FILES_TO_COMPRESS Brotli
  ∧ fs st !! path_join DIST_DIR (str "index.html") = Some []
  ∧ r.1 = Val tt
  ∧ fs r.2 !! (path_join DIST_DIR (str "index.html") ++ suffix Brotli)
    = None
  ∧ Console (FailedToCompress (str "dist/index.html")
               (str "nothing to compress")) ∈ trace r.2.
Proof.
  split; [apply (bool_decide_unpack _); by vm_compute|].
  split; [by vm_compute|]. split; [by vm_compute|].
  split; [by vm_compute|].
  vm_compute. set_solver.
Qed.

(** C7: the stage is best effort.  For every algorithm [main] returns
    normally, whatever the files and the libraries do; a file of the list
    that is missing gets a skip warning and nothing else; a file whose
    compression fails gets an error line and no artifact; and a file that
    is present and compresses gets its artifact, whatever happened to the
    files before it. *)
Theorem compression_stage_best_effort
    (env : algorithm → option (list N)) (parseInt : list N → N)
    (compress : call → list N → result (list N))
    (a : algorithm) (st : state) :
  let r := main env parseInt compress a st in
  r.1 = Val tt
  ∧ ∀ file, file ∈ FILES_TO_COMPRESS a →
      let filePath := path_join DIST_DIR file in
      (fs st !! filePath = None →
         Console (Skipping file) ∈ trace r.2
         ∧ fs r.2 !! (filePath ++ suffix a)
           = fs st !! (filePath ++ suffix a))
      ∧ (∀ content e,
           fs st !! filePath = Some content →
           compress (library_call env parseInt a) content = Error e →
           Console (FailedToCompress filePath e) ∈ trace r.2
           ∧ fs r.2 !! (filePath ++ suffix a)
             = fs st !! (filePath ++ suffix a))
      ∧ (∀ content compressed,
           fs st !! filePath = Some content →
           compress (library_call env parseInt a) content = Ok compressed →
           fs r.2 !! (filePath ++ suffix a) = Some compressed).
Proof.
  cbv zeta. split; [by rewrite main_run|].
  intros file Hfile.
  pose proof (main_each env parseInt compress a st file Hfile) as Hdone.
  unfold Turns.done_with in Hdone. cbv zeta in Hdone.
  split; [|split].
  - intros Hnone. by rewrite Hnone in Hdone.
  - intros content e Hcontent He. by rewrite Hcontent, He in Hdone.
  - intros content compressed Hcontent Hc.
    by rewrite Hcontent, Hc in Hdone.
Qed.

(** The stage on a build where one file of the list is missing and the
    library fails on another. *)
Lemma compression_stage_best_effort_witness :
  let st := SampleCodec.dist [] in
  let r :=
    main SampleCodec.no_env SampleCodec.parseInt SampleCodec.picky Gzip st in
  r.1 = Val tt
  ∧ Console (Skipping (str "bmarwell-personal.asc")) ∈ trace r.2
  ∧ Console (FailedToCompress (path_join DIST_DIR (str "index.html"))
               (str "nothing to compress")) ∈ trace r.2
  ∧ fs r.2 !! (path_join DIST_DIR (str "bmarwell-apache.asc")
               ++ suffix Gzip)
    = Some (0 :: str "-----BEGIN PGP").
Proof.
  destruct (compression_stage_best_effort SampleCodec.no_env
              SampleCodec.parseInt SampleCodec.picky Gzip
              (SampleCodec.dist [])) as [Hret Hfiles].
  split; [exact Hret|].
  split; [|split].
  - destruct (Hfiles (str "bmarwell-personal.asc")) as (Hskip & _ & _).
    { apply (bool_decide_unpack _). by vm_compute. }
    apply Hskip. by vm_compute.
  - destruct (Hfiles (str "index.html")) as (_ & Hfail & _).
    { apply (bool_decide_unpack _). by vm_compute. }
    apply (Hfail []); by vm_compute.
  - destruct (Hfiles (str "bmarwell-apache.asc")) as (_ & _ & Hok).
    { apply (bool_decide_unpack _). by vm_compute. }
    apply (Hok (str "-----BEGIN PGP")); by vm_compute.
Defined.
End CompressionStage.

(** ** Settling *)

Section Settling.
Context {S : Type}.

Lemma settles_ret {A} (a : A) : settles (@ret S A a).
Proof. by intros st. Qed.

Lemma settles_throw {A} e : settles (@throw S A e).
Proof. by intros st. Qed.

Lemma settles_await {A} (r : result A) : settles (@await S A r).
Proof. intros st. unfold await. by destruct r. Qed.

Lemma settles_get : settles (@get S).
Proof. by intros st. Qed.

Lemma settles_modify f : settles (@modify S f).
Proof. by intros st. Qed.

Lemma settles_bind {A B} (m : M S A) (k : A → M S B) :
  settles m → (∀ a, settles (k a)) → settles (bind m k).
Proof.
  intros Hm Hk st. unfold bind. specialize (Hm st).
  destruct (m st) as [[a|e|] st']; simpl in *; [apply Hk|done..].
Qed.

Lemma settles_try_catch {A} (m : M S A) h :
  settles m → (∀ e, settles (h e)) → settles (try_catch m h).
Proof.
  intros Hm Hh st. unfold try_catch. specialize (Hm st).
  destruct (m st) as [[a|e|] st']; simpl in *; [done|apply Hh|done].
Qed.
End Settling.

(** Splits a goal on settling along the structure of the program. *)
Ltac settle_step :=
  first
    [ apply settles_ret | apply settles_throw | apply settles_await
    | apply settles_get | apply settles_modify
    | apply settles_bind; [|intros ?]
    | apply settles_try_catch; [|intros ?] ].

(** ** The avatar script as a whole *)

Module Pipeline.
Import JS JSFacts Avatar Observe Variants Optimizer.

(** The inner [download] reads: it issues requests and announces the
    redirects, and leaves the files and the globals as they are. *)
Lemma download_only_requests https_get fuel in_callback url st :
  let st' := (download https_get fuel in_callback url st).2 in
  fs st' = fs st
  ∧ AVATAR_FILENAME st' = AVATAR_FILENAME st
  ∧ AVATAR_WEBP_FILENAME st' = AVATAR_WEBP_FILENAME st
  ∧ AVATAR_DEST st' = AVATAR_DEST st
  ∧ ∃ t, trace st' = trace st ++ t ∧ Forall fetches t.
Proof.
  cbv zeta. revert st in_callback url.
  induction fuel as [|fuel IH]; intros st in_callback url.
  { repeat split; try done. exists []. by rewrite app_nil_r. }
  assert (∀ A (o : outcome A),
            let st' := (o, record (Request url) st).2 in
            fs st' = fs st
            ∧ AVATAR_FILENAME st' = AVATAR_FILENAME st
            ∧ AVATAR_WEBP_FILENAME st' = AVATAR_WEBP_FILENAME st
            ∧ AVATAR_DEST st' = AVATAR_DEST st
            ∧ ∃ t, trace st' = trace st ++ t ∧ Forall fetches t) as Hone.
  { intros A o. repeat split; try done. exists [Request url].
    split; [done|]. by repeat constructor. }
  assert (∀ A (o : outcome A),
            let st' := (o, st).2 in
            fs st' = fs st
            ∧ AVATAR_FILENAME st' = AVATAR_FILENAME st
            ∧ AVATAR_WEBP_FILENAME st' = AVATAR_WEBP_FILENAME st
            ∧ AVATAR_DEST st' = AVATAR_DEST st
            ∧ ∃ t, trace st' = trace st ++ t ∧ Forall fetches t) as Hnone.
  { intros A o. repeat split; try done. exists [].
    by rewrite app_nil_r. }
  cbn [download].
  destruct (https_get url) as [code msg loc chunks complete|e|e].
  - unfold bind, console_log, emit, modify. cbv beta iota.
    destruct url as [u|]; [|apply Hone].
    destruct ((code =? 301) || (code =? 302)).
    + destruct (IH (record (Console (FollowingRedirect loc))
                      (record (Request (Some u)) st)) true loc)
        as (H1 & H2 & H3 & H4 & t & H5 & Ht).
      rewrite H1, H2, H3, H4, H5.
      repeat split; try done. cbn [trace record].
      exists (Request (Some u) :: Console (FollowingRedirect loc) :: t).
      split; [by rewrite <- !app_assoc|]. by repeat constructor.
    + destruct (negb (code =? 200)); [apply Hone|].
      destruct complete; apply Hone.
  - unfold bind, emit, modify. cbv beta iota. apply Hone.
  - destruct in_callback; apply Hnone.
Qed.

(** X1: the fetcher is a pure read.  Whatever the network answers and
    however long the redirect chain is, [downloadAvatar] changes no file
    and none of the script's globals; all it adds to the trace are its
    requests and the lines that announce the redirects it follows. *)
Theorem downloadAvatar_only_requests
    (https_get : option (list N) → response) (fuel : nat) (st : state) :
  let st' := (downloadAvatar https_get fuel st).2 in
  fs st' = fs st
  ∧ AVATAR_FILENAME st' = AVATAR_FILENAME st
  ∧ AVATAR_WEBP_FILENAME st' = AVATAR_WEBP_FILENAME st
  ∧ AVATAR_DEST st' = AVATAR_DEST st
  ∧ ∃ t, trace st' = trace st ++ t ∧ Forall fetches t.
Proof. apply download_only_requests. Qed.
End Pipeline.

Module Settled.
Import JS Avatar.

Lemma emit_settles e : settles (emit e).
Proof. apply settles_modify. Qed.

Lemma console_log_settles l : settles (console_log l).
Proof. apply settles_modify. Qed.

Lemma readFile_settles p : settles (readFile p).
Proof.
  unfold readFile. apply settles_bind; [apply settles_get|].
  intros st. destruct (fs st !! p); settle_step.
Qed.

Lemma writeFile_settles p c : settles (writeFile p c).
Proof.
  apply settles_bind; [apply emit_settles|]. intros _. apply settles_modify.
Qed.

Lemma readFile_utf8_settles p : settles (readFile_utf8 p).
Proof.
  apply settles_bind; [apply readFile_settles|]. intros b.
  apply settles_ret.
Qed.

Lemma writeFile_utf8_settles p c : settles (writeFile_utf8 p c).
Proof. apply writeFile_settles. Qed.

Lemma rename_settles p q : settles (rename p q).
Proof.
  apply settles_bind; [apply readFile_settles|]. intros c.
  apply settles_bind; [apply emit_settles|]. intros _. apply settles_modify.
Qed.

Ltac settle :=
  repeat first
    [ apply console_log_settles | apply emit_settles | apply readFile_settles
    | apply writeFile_settles | apply readFile_utf8_settles
    | apply writeFile_utf8_settles | apply rename_settles | settle_step ].

Section Codecs.
Variable AVATAR_DEST_DIR : list N.
Variable imagemin_buffer : list N → list plugin → result (list N).
Variable sharp_toBuffer : list N → pipeline → result (list N).
Variable sharp_metadata : list N → result (N * N).

Lemma sharp_settles p pl : settles (sharp sharp_toBuffer p pl).
Proof. unfold sharp. settle. Qed.

Lemma quality_loop_settles qualities sourcePath webpPath originalSize :
  settles
    (quality_loop sharp_toBuffer qualities sourcePath webpPath originalSize).
Proof.
  induction qualities as [|quality rest IH]; cbn [quality_loop]; [settle|].
  apply settles_bind.
  - apply settles_try_catch.
    + apply settles_bind; [apply sharp_settles|]. intros b.
      destruct (_ <? _)%nat; settle.
    + intros e. settle.
  - intros [|]; [settle | apply IH].
Qed.

Lemma sizes_loop_settles sizes sourcePath :
  settles (sizes_loop sharp_toBuffer sizes sourcePath).
Proof.
  induction sizes as [|size rest IH]; cbn [sizes_loop]; [settle|].
  apply settles_bind; [apply sharp_settles|]. intros b.
  apply settles_bind; [settle|]. intros _.
  apply settles_bind; [settle|]. intros _.
  apply settles_bind; [apply sharp_settles|]. intros b'.
  apply settles_bind; [settle|]. intros _.
  apply settles_bind; [settle|]. intros _. apply IH.
Qed.

Lemma createWebP_settles sourcePath originalSize :
  settles (createWebP sharp_toBuffer sourcePath originalSize).
Proof.
  unfold createWebP.
  apply settles_bind; [apply quality_loop_settles|]. intros _.
  apply settles_bind; [apply settles_get|]. intros st.
  apply settles_bind; [case_bool_decide; settle|]. intros _.
  apply sizes_loop_settles.
Qed.

Lemma optimizeImage_settles filePath :
  settles (optimizeImage imagemin_buffer sharp_toBuffer filePath).
Proof.
  unfold optimizeImage.
  apply settles_bind; [apply readFile_settles|]. intros b.
  destruct (detect b) as [format extension].
  apply settles_bind; [settle|]. intros _.
  apply settles_bind; [case_bool_decide; settle|]. intros _.
  apply settles_bind; [settle|]. intros _.
  apply settles_bind; [settle|]. intros optimized.
  apply settles_bind; [destruct (_ <? _)%nat; settle|]. intros _.
  apply createWebP_settles.
Qed.

Lemma updateHTMLReferences_settles :
  settles (updateHTMLReferences AVATAR_DEST_DIR sharp_metadata).
Proof.
  unfold updateHTMLReferences.
  apply settles_bind; [apply readFile_utf8_settles|]. intros html.
  apply settles_bind; [apply settles_get|]. intros st.
  apply settles_bind; [unfold metadata; settle|]. intros [width height].
  settle.
Qed.
End Codecs.
End Settled.

Module Fallback.
Import JS JSFacts Avatar Observe Variants Optimizer Settled.

Section Script.
Variable AVATAR_DEST_DIR : list N.
Variable https_get : option (list N) → response.
Variable imagemin_buffer : list N → list plugin → result (list N).
Variable sharp_toBuffer : list N → pipeline → result (list N).
Variable sharp_metadata : list N → result (N * N).

Local Abbreviation main :=
  (main AVATAR_DEST_DIR https_get imagemin_buffer sharp_toBuffer
     sharp_metadata).

(** [main], stage by stage. *)
Lemma avatar_main_run fuel st :
  main fuel st
  = let failed e st' :=
      (Val (Returned tt),
       record (Console SiteStillWorks)
         (record (Console KeepingExternalURL)
            (record (Console (FailedToDownload e)) st'))) in
    match downloadAvatar https_get fuel st with
    | (Val (Returned imageData), st1) =>
        let st2 :=
          record (Console (Downloaded (length imageData)))
            (with_fs <[AVATAR_DEST st1 := imageData]>
               (record (WriteFile (AVATAR_DEST st1) imageData) st1)) in
        match optimizeImage imagemin_buffer sharp_toBuffer
                (AVATAR_DEST st1) st2 with
        | (Val _, st3) =>
            match updateHTMLReferences AVATAR_DEST_DIR sharp_metadata st3 with
            | (Val _, st4) =>
                (Val (Returned tt),
                 record (Console NotPreCompressed)
                   (record (Console AvatarReady) st4))
            | (Throw e, st4) => failed e st4
            | (Pending, st4) => (Pending, st4)
            end
        | (Throw e, st3) => failed e st3
        | (Pending, st3) => (Pending, st3)
        end
    | (Val (Exited code), st1) => (Val (Exited code), st1)
    | (Throw e, st1) => failed e st1
    | (Pending, st1) => (Pending, st1)
    end.
Proof.
  unfold Avatar.main. unfold try_catch, and_then. unfold bind at 1.
  destruct (downloadAvatar https_get fuel st)
    as [[[imageData|code]|e|] st1]; [|done..].
  unfold returning. unfold bind at 1.
  unfold bind at 1, get at 1. unfold bind at 1.
  unfold writeFile, console_log, emit, modify. unfold bind at 1.
  cbv beta iota. unfold bind at 1. cbv beta iota. unfold bind at 1.
  cbv zeta.
  destruct (optimizeImage _ _ _ _) as [[[]|e|] st3]; [|done..].
  unfold bind at 1.
  by destruct (updateHTMLReferences _ _ _) as [[[]|e|] st4].
Qed.
End Script.

(** The process ends in the fetcher with exit code 1 only. *)
Lemma download_exits_with_1 https_get fuel in_callback url st code :
  (download https_get fuel in_callback url st).1 = Val (Exited code) →
  code = 1.
Proof.
  revert in_callback url st.
  induction fuel as [|fuel IH]; intros in_callback url st; [done|].
  cbn [download].
  destruct (https_get url) as [c msg loc chunks complete|e|e].
  - unfold bind, console_log, emit, modify. cbv beta iota.
    destruct url as [u|]; [|done].
    destruct ((c =? 301) || (c =? 302)); [apply IH|].
    destruct (negb (c =? 200)); [done|]. by destruct complete.
  - done.
  - destruct in_callback; [|done]. by intros [= <-].
Qed.

(** X2: the promise of [main] never rejects.  Whatever the network,
    [imagemin] and [sharp] do, [main] fulfils, its [try]/[catch] taking up
    the error of every stage; or the process ends with exit code 1, and
    then it ends in [downloadAvatar], on a redirect to a URL that
    [https.get] refuses; or [main] stays pending, and then the download
    itself stays pending.  The handler installed on [main()] has nothing
    to handle. *)
Theorem main_never_rejects
    (AVATAR_DEST_DIR : list N) (https_get : option (list N) → response)
    (imagemin_buffer : list N → list plugin → result (list N))
    (sharp_toBuffer : list N → pipeline → result (list N))
    (sharp_metadata : list N → result (N * N)) (fuel : nat) (st : state) :
  let r :=
    main AVATAR_DEST_DIR https_get imagemin_buffer sharp_toBuffer
      sharp_metadata fuel st in
  r.1 = Val (Returned tt)
  ∨ r.1 = Val (Exited 1)
    ∧ (downloadAvatar https_get fuel st).1 = Val (Exited 1)
  ∨ r.1 = Pending ∧ (downloadAvatar https_get fuel st).1 = Pending.
Proof.
  cbv zeta. rewrite avatar_main_run. cbv zeta.
  pose proof (download_exits_with_1 https_get fuel false (Some AVATAR_URL)
                st) as Hcode.
  fold (downloadAvatar https_get fuel) in Hcode.
  destruct (downloadAvatar https_get fuel st)
    as [[[imageData|code]|e|] st1]; [| |by left|by right; right].
  2:{ rewrite (Hcode code eq_refl). right. by left. }
  set (st2 := record _ _).
  pose proof (optimizeImage_settles imagemin_buffer sharp_toBuffer
                (AVATAR_DEST st1) st2) as H3.
  destruct (optimizeImage _ _ _ _) as [[[]|e|] st3]; [|by left|done].
  pose proof (updateHTMLReferences_settles AVATAR_DEST_DIR sharp_metadata
                st3) as H4.
  destruct (updateHTMLReferences _ _ _) as [[[]|e|] st4];
    [by left|by left|done].
Qed.

(** X3: a download that rejects is survived.  When [downloadAvatar]
    rejects with [e], [main] fulfils all the same, every file and the names
    the script keeps are as they were, and the last lines printed are the
    failure line that carries [e] and the two lines on the fallback. *)
Theorem rejected_download_keeps_files
    (AVATAR_DEST_DIR : list N) (https_get : option (list N) → response)
    (imagemin_buffer : list N → list plugin → result (list N))
    (sharp_toBuffer : list N → pipeline → result (list N))
    (sharp_metadata : list N → result (N * N)) (fuel : nat) (st : state)
    (e : list N) :
  (downloadAvatar https_get fuel st).1 = Throw e →
  let r :=
    main AVATAR_DEST_DIR https_get imagemin_buffer sharp_toBuffer
      sharp_metadata fuel st in
  r.1 = Val (Returned tt)
  ∧ fs r.2 = fs st
  ∧ AVATAR_FILENAME r.2 = AVATAR_FILENAME st
  ∧ AVATAR_DEST r.2 = AVATAR_DEST st
  ∧ trace r.2
    = trace (downloadAvatar https_get fuel st).2
      ++ [Console (FailedToDownload e); Console KeepingExternalURL;
          Console SiteStillWorks].
Proof.
  intros Hthrow. cbv zeta. rewrite avatar_main_run. cbv zeta.
  destruct (Pipeline.download_only_requests https_get fuel false
              (Some AVATAR_URL) st)
    as (Hfs & Hname & _ & Hdest & _).
  fold (downloadAvatar https_get fuel) in *.
  destruct (downloadAvatar https_get fuel st) as [o st1].
  simpl in *. subst o.
  cbn [fst snd fs record trace AVATAR_FILENAME AVATAR_DEST].
  by rewrite <- !app_assoc.
Qed.

Lemma rejected_download_keeps_files_witness :
  let st := Cases.site Sample.page in
  let r :=
    main Sample.dist Sample.gone Sample.imagemin Sample.sharp
      Sample.metadata 5 st in
  r.1 = Val (Returned tt)
  ∧ fs r.2 = fs st
  ∧ AVATAR_FILENAME r.2 = AVATAR_FILENAME st
  ∧ AVATAR_DEST r.2 = AVATAR_DEST st
  ∧ trace r.2
    = trace (downloadAvatar Sample.gone 5 st).2
      ++ [Console (FailedToDownload (str "HTTP 404: Not Found"));
          Console KeepingExternalURL; Console SiteStillWorks].
Proof.
  apply (rejected_download_keeps_files Sample.dist Sample.gone
           Sample.imagemin Sample.sharp Sample.metadata 5
           (Cases.site Sample.page) (str "HTTP 404: Not Found")).
  by vm_compute.
Defined.
End Fallback.

(** ** Redirects the fetcher cannot follow *)

Module Redirects.
Import JS Avatar Observe Variants.

(** X25: a 301 or 302 response without [Location] header is followed all
    the same, with [undefined] for a URL.  [https.get] then sends a
    request to the default host and drops the response callback, so that
    whatever is answered is never looked at: the promise stays pending,
    for any number of further events, unless that request fails, in which
    case it is rejected with the transport error. *)
Theorem redirect_without_location_is_never_answered
    (https_get : option (list N) → response) (u : list N)
    (us : list (list N)) (v : list N) (fuel : nat) (st : state)
    (code : N) (msg : list N) (chunks : list (list N)) (complete : bool) :
  redirects https_get u us v →
  https_get (Some v) = Response code msg None chunks complete →
  (code =? 301) || (code =? 302) = true →
  (∀ e, https_get None ≠ Thrown e) →
  (length us + 1 < fuel)%nat →
  let r := download https_get fuel false (Some u) st in
  r.1 = match https_get None with
        | NetError e => Throw e
        | _ => Pending
        end
  ∧ requests (trace r.2)
    = requests (trace st) ++ (Some <$> us ++ [v]) ++ [None].
Proof.
  intros Hchain Hv Hcode Hget Hfuel. cbv zeta.
  destruct (Fetcher.download_chain https_get u us v (fuel - length us)
              false st Hchain) as (st' & Hrun & _ & Hreq).
  replace (length us + (fuel - length us))%nat with fuel in Hrun by lia.
  rewrite Hrun.
  destruct (fuel - length us)%nat as [|[|fuel']] eqn:Hrest; [lia..|].
  rewrite (Fetcher.download_no_location _ _ _ _ _ _ _ _ _ Hv Hcode).
  rewrite Fetcher.download_undefined.
  destruct (https_get None) as [c m l ch co|e|e] eqn:Hnone;
    [| |by destruct (Hget e)];
    cbn [fst snd trace record];
    (split; [done|]);
    rewrite !Fetcher.requests_app, Hreq, fmap_app, <- !app_assoc; done.
Qed.

Lemma redirect_without_location_is_never_answered_witness :
  let r := downloadAvatar Cases.bare 1000 (initial Sample.dist ∅) in
  r.1 = Pending ∧ requests (trace r.2) = [Some AVATAR_URL; None].
Proof.
  apply (redirect_without_location_is_never_answered Cases.bare
           AVATAR_URL [] AVATAR_URL 1000 (initial Sample.dist ∅)
           302 (str "Found") [] true).
  - apply redirects_here.
  - reflexivity.
  - reflexivity.
  - intros e. by vm_compute.
  - simpl. lia.
Defined.


End Redirects.

(** ** The sized variants *)

Module Sized.
Import JS JSFacts Avatar Observe Variants Optimizer.

Lemma ext'_image a :
  a ∈ image_extensions → a ∈ [str "jpg"; str "jpeg"; str "png"].
Proof. revert a. by decide_forall. Qed.

(** The paths of the sized variants differ from the source path. *)
Lemma jpgPath_source base size a : jpgPath base size ≠ base ++ 46 :: a.
Proof. unfold jpgPath. by intros ?%(inj (app base)). Qed.

Lemma webpResPath_source base size a :
  webpResPath base size ≠ base ++ 46 :: a.
Proof. unfold webpResPath. by intros ?%(inj (app base)). Qed.

Section Loop.
Variable sharp_toBuffer : list N → pipeline → result (list N).
Variables base a master : list N.
Hypothesis a_image : a ∈ image_extensions.

Local Abbreviation sourcePath := (base ++ 46 :: a).

(** One turn of the loop over the sizes. *)
Lemma sizes_loop_step size rest st :
  fs st !! sourcePath = Some master →
  sizes_loop sharp_toBuffer (size :: rest) sourcePath st
  = match sharp_toBuffer master (resize_jpeg size 85 true) with
    | Error e =>
        (Throw e, record (Sharp sourcePath (resize_jpeg size 85 true)) st)
    | Ok jpgBuffer =>
        match sharp_toBuffer master (resize_webp size 75 6) with
        | Error e =>
            (Throw e,
             record (Sharp sourcePath (resize_webp size 75 6))
               (record
                  (Console (SizedVariant (basename (jpgPath base size))
                              (length jpgBuffer)))
                  (with_fs <[jpgPath base size := jpgBuffer]>
                     (record (WriteFile (jpgPath base size) jpgBuffer)
                        (record
                           (Sharp sourcePath (resize_jpeg size 85 true))
                           st)))))
        | Ok webpResBuffer =>
            sizes_loop sharp_toBuffer rest sourcePath
              (variant_written sourcePath base size jpgBuffer
                 webpResBuffer st)
        end
    end.
Proof.
  intros Hsrc. cbn [sizes_loop].
  rewrite !replace_ext' by (by apply ext'_image).
  fold (jpgPath base size) (webpResPath base size).
  unfold sharp, readFile, writeFile, console_log, emit, modify, get, await,
    ret, throw.
  unfold bind. cbv beta iota. cbn [fs record with_fs].
  rewrite Hsrc. cbv beta iota.
  destruct (sharp_toBuffer master (resize_jpeg size 85 true))
    as [jpgBuffer|e]; [|done].
  cbv beta iota. cbn [fs record with_fs].
  rewrite lookup_insert_ne by apply jpgPath_source.
  rewrite Hsrc. cbv beta iota.
  by destruct (sharp_toBuffer master (resize_webp size 75 6)).
Qed.

Lemma variant_written_source size jpgBuffer webpResBuffer st :
  fs (variant_written sourcePath base size jpgBuffer webpResBuffer st)
  !! sourcePath
  = fs st !! sourcePath.
Proof.
  unfold variant_written. cbn [fs record with_fs].
  rewrite lookup_insert_ne by apply webpResPath_source.
  by rewrite lookup_insert_ne by apply jpgPath_source.
Qed.

(** The loop rejects with the first error of an encoding, and returns
    when there is none. *)
Lemma sizes_loop_outcome sizes st :
  fs st !! sourcePath = Some master →
  (sizes_loop sharp_toBuffer sizes sourcePath st).1
  = match first_error
            (sharp_toBuffer master <$> (sizes ≫= sized_pipelines)) with
    | Some e => Throw e
    | None => Val tt
    end.
Proof.
  revert st. induction sizes as [|size rest IH]; intros st Hsrc; [done|].
  rewrite sizes_loop_step by done.
  cbn [mbind list_bind sized_pipelines app fmap list_fmap first_error].
  destruct (sharp_toBuffer master (resize_jpeg size 85 true))
    as [jpgBuffer|e]; [|done].
  destruct (sharp_toBuffer master (resize_webp size 75 6))
    as [webpResBuffer|e]; [|done].
  apply IH. by rewrite variant_written_source.
Qed.

(** With no error, the files of the loop hold the encodings. *)
Lemma sizes_loop_files sizes st :
  fs st !! sourcePath = Some master →
  first_error (sharp_toBuffer master <$> (sizes ≫= sized_pipelines)) = None →
  ∃ jpg webp : N → list N,
    (∀ size, size ∈ sizes →
       sharp_toBuffer master (resize_jpeg size 85 true) = Ok (jpg size)
       ∧ sharp_toBuffer master (resize_webp size 75 6) = Ok (webp size))
    ∧ fs (sizes_loop sharp_toBuffer sizes sourcePath st).2
      = foldl (λ m size,
                 <[webpResPath base size := webp size]>
                   (<[jpgPath base size := jpg size]> m))
          (fs st) sizes.
Proof.
  intros Hsrc Hok.
  exists (λ size, match sharp_toBuffer master (resize_jpeg size 85 true) with
                  | Ok b => b
                  | Error _ => []
                  end),
         (λ size, match sharp_toBuffer master (resize_webp size 75 6) with
                  | Ok b => b
                  | Error _ => []
                  end).
  revert st Hsrc Hok. induction sizes as [|size rest IH]; intros st Hsrc Hok.
  { split; [by intros size ?%elem_of_nil | done]. }
  rewrite sizes_loop_step by done.
  cbn [mbind list_bind sized_pipelines app fmap list_fmap first_error] in Hok.
  destruct (sharp_toBuffer master (resize_jpeg size 85 true))
    as [jpgBuffer|e] eqn:Hjpg; [|done].
  destruct (sharp_toBuffer master (resize_webp size 75 6))
    as [webpResBuffer|e] eqn:Hwebp; [|done].
  destruct (IH (variant_written sourcePath base size jpgBuffer
                  webpResBuffer st)) as [Hrest Hfs].
  { by rewrite variant_written_source. }
  { done. }
  split.
  - intros size' [->|Hin]%elem_of_cons; [by rewrite Hjpg, Hwebp | auto].
  - rewrite Hfs. cbn [foldl]. by rewrite Hjpg, Hwebp.
Qed.

(** [createWebP] hands the loop over the sizes a state in which the quality
    search has touched the full-size WebP path only. *)
Lemma createWebP_sizes originalSize st :
  fs st !! sourcePath = Some master →
  ∃ st1,
    createWebP sharp_toBuffer sourcePath originalSize st
    = sizes_loop sharp_toBuffer sizes sourcePath st1
    ∧ only_writes (λ _, True) (λ p, p = base ++ str ".webp") st st1.
Proof.
  intros Hsrc. unfold createWebP.
  rewrite replace_ext' by (by apply ext'_image).
  pose proof (quality_loop_quiet (λ _, True) (λ p, p = base ++ str ".webp")
                sharp_toBuffer [80; 75; 70; 65; 60] sourcePath
                (base ++ str ".webp") originalSize (λ _, I) eq_refl st)
    as Hquiet.
  pose proof (QualitySearch.quality_loop_returns sharp_toBuffer originalSize
                [80; 75; 70; 65; 60] sourcePath (base ++ str ".webp") st)
    as Hret.
  unfold bind at 1.
  destruct (quality_loop _ _ _ _ _ st) as [o st1]. simpl in Hret, Hquiet.
  subst o. unfold bind at 1, get at 1. unfold bind at 1.
  case_bool_decide.
  - eexists. split; [reflexivity|].
    etransitivity; [exact Hquiet|]. by apply console_log_quiet.
  - by exists st1.
Qed.
End Loop.

Lemma createWebP_outcome sharp_toBuffer base a master originalSize st :
  a ∈ image_extensions →
  fs st !! (base ++ 46 :: a) = Some master →
  (createWebP sharp_toBuffer (base ++ 46 :: a) originalSize st).1
  = match first_error
            (sharp_toBuffer master <$> (sizes ≫= sized_pipelines)) with
    | Some e => Throw e
    | None => Val tt
    end.
Proof.
  intros Ha Hsrc.
  destruct (createWebP_sizes sharp_toBuffer base a master Ha originalSize st
              Hsrc) as (st1 & -> & Hfs & _).
  apply sizes_loop_outcome; [done|].
  rewrite Hfs; [done|]. intros ?%(inj (app base)).
  by apply (QualitySearch.webp_not_image a).
Qed.

(** X4: the loop over the sizes has no [try]/[catch].  On a source
    file with an image extension, [createWebP] rejects exactly when one of
    the six sized encodings fails, with the error of the first that fails
    in the order 150 JPEG, 150 WebP, 300 JPEG, 300 WebP, 460 JPEG, 460 WebP,
    and fulfils otherwise.  The failures of the quality search before it
    never show in the outcome. *)
Theorem createWebP_rejects_on_first_sized_error
    (sharp_toBuffer : list N → pipeline → result (list N))
    (base a master : list N) (originalSize : nat) (st : state) :
  a ∈ image_extensions →
  fs st !! (base ++ str "." ++ a) = Some master →
  (createWebP sharp_toBuffer (base ++ str "." ++ a) originalSize st).1
  = match first_error
            (sharp_toBuffer master <$> (sizes ≫= sized_pipelines)) with
    | Some e => Throw e
    | None => Val tt
    end.
Proof. apply createWebP_outcome. Qed.

Lemma createWebP_rejects_on_first_sized_error_witness :
  (createWebP Cases.flaky (str "/site/dist/avatar" ++ str "." ++ str "png")
     6 (Sample.fetched Sample.png)).1
  = Throw (str "out of memory").
Proof.
  apply (createWebP_rejects_on_first_sized_error Cases.flaky
           (str "/site/dist/avatar") (str "png") Sample.png 6
           (Sample.fetched Sample.png)).
  - apply (bool_decide_unpack _). by vm_compute.
  - by vm_compute.
Defined.

(** Settles that two sized paths differ. *)
Ltac sized_paths_differ :=
  let H := fresh in
  unfold jpgPath, webpResPath; intros H%(inj (app _));
  vm_compute in H; discriminate H.

Lemma createWebP_files sharp_toBuffer base a master originalSize st :
  a ∈ image_extensions →
  fs st !! (base ++ 46 :: a) = Some master →
  first_error (sharp_toBuffer master <$> (sizes ≫= sized_pipelines)) = None →
  let st' :=
    (createWebP sharp_toBuffer (base ++ 46 :: a) originalSize st).2 in
  ∀ size, size ∈ sizes →
    ∃ jpgBuffer webpResBuffer,
      sharp_toBuffer master (resize_jpeg size 85 true) = Ok jpgBuffer
      ∧ sharp_toBuffer master (resize_webp size 75 6) = Ok webpResBuffer
      ∧ fs st' !! jpgPath base size = Some jpgBuffer
      ∧ fs st' !! webpResPath base size = Some webpResBuffer.
Proof.
  intros Ha Hsrc Hok. cbv zeta.
  destruct (createWebP_sizes sharp_toBuffer base a master Ha originalSize st
              Hsrc) as (st1 & -> & Hfs & _).
  destruct (sizes_loop_files sharp_toBuffer base a master Ha sizes st1)
    as (jpg & webp & Hcodec & ->); [|done|].
  { rewrite Hfs; [done|]. intros ?%(inj (app base)).
    by apply (QualitySearch.webp_not_image a). }
  intros size Hsize. exists (jpg size), (webp size).
  destruct (Hcodec size Hsize) as [-> ->]. split; [done|]. split; [done|].
  unfold sizes in Hsize. cbn [foldl sizes].
  repeat (apply elem_of_cons in Hsize as [->|Hsize]);
    [| | |by apply elem_of_nil in Hsize].
  - split.
    + rewrite !lookup_insert_ne by sized_paths_differ.
      apply lookup_insert_eq.
    + rewrite !lookup_insert_ne by sized_paths_differ.
      apply lookup_insert_eq.
  - split.
    + rewrite !lookup_insert_ne by sized_paths_differ.
      apply lookup_insert_eq.
    + rewrite !lookup_insert_ne by sized_paths_differ.
      apply lookup_insert_eq.
  - split.
    + rewrite lookup_insert_ne by sized_paths_differ.
      apply lookup_insert_eq.
    + apply lookup_insert_eq.
Qed.

(** X5: when no sized encoding fails, [createWebP] leaves, for each of
    the sizes 150, 300 and 460, the JPEG and the WebP variant on disk, with
    the bytes [sharp] encoded: the sized variants are written without any
    comparison to the original size, unlike the master and the full-size
    WebP file. *)
Theorem sized_variants_written_whatever_their_size
    (sharp_toBuffer : list N → pipeline → result (list N))
    (base a master : list N) (originalSize : nat) (st : state) :
  a ∈ image_extensions →
  fs st !! (base ++ str "." ++ a) = Some master →
  first_error (sharp_toBuffer master <$> (sizes ≫= sized_pipelines)) = None →
  let st' :=
    (createWebP sharp_toBuffer (base ++ str "." ++ a) originalSize st).2 in
  ∀ size, size ∈ sizes →
    ∃ jpgBuffer webpResBuffer,
      sharp_toBuffer master (resize_jpeg size 85 true) = Ok jpgBuffer
      ∧ sharp_toBuffer master (resize_webp size 75 6) = Ok webpResBuffer
      ∧ fs st' !! jpgPath base size = Some jpgBuffer
      ∧ fs st' !! webpResPath base size = Some webpResBuffer.
Proof. apply createWebP_files. Qed.

Lemma sized_variants_written_whatever_their_size_witness :
  let st' :=
    (createWebP Sample.sharp
       (str "/site/dist/avatar" ++ str "." ++ str "png") 6
       (Sample.fetched Sample.png)).2 in
  ∃ jpgBuffer webpResBuffer,
    Sample.sharp Sample.png (resize_jpeg 300 85 true) = Ok jpgBuffer
    ∧ Sample.sharp Sample.png (resize_webp 300 75 6) = Ok webpResBuffer
    ∧ fs st' !! jpgPath (str "/site/dist/avatar") 300 = Some jpgBuffer
    ∧ fs st' !! webpResPath (str "/site/dist/avatar") 300
      = Some webpResBuffer.
Proof.
  apply (sized_variants_written_whatever_their_size Sample.sharp
           (str "/site/dist/avatar") (str "png") Sample.png 6
           (Sample.fetched Sample.png)).
  - apply (bool_decide_unpack _). by vm_compute.
  - by vm_compute.
  - reflexivity.
  - apply (bool_decide_unpack _). by vm_compute.
Defined.
End Sized.

(** ** File names *)

Module Names.
Import JS JSFacts Avatar Observe Variants Optimizer.

Lemma basename_join dir file :
  47 ∉ file → basename (path_join dir file) = file.
Proof.
  intros Hfile. unfold path_join. change (str "/" ++ file) with (47 :: file).
  induction dir as [|c dir IH]; cbn [app basename].
  - rewrite bool_decide_eq_false_2 by done. done.
  - rewrite bool_decide_eq_true_2 by set_solver. done.
Qed.

Lemma basename_last p c : c ≠ 47 → basename (p ++ [c]) ≠ [].
Proof.
  intros Hc. induction p as [|d p IH]; cbn [app basename].
  - rewrite bool_decide_eq_false_2 by apply not_elem_of_nil.
    by rewrite (proj2 (N.eqb_neq c 47)).
  - case_bool_decide; [done|]. destruct (d =? 47); [|done].
    by destruct p.
Qed.

Lemma detected_no_slash x : x ∈ [str "png"; str "jpg"] → 47 ∉ 46 :: x.
Proof. revert x. by decide_forall. Qed.

(** The paths [createWebP] writes to differ from every path with an image
    extension on the same base. *)
Lemma createWebP_others sharp_toBuffer base x a originalSize :
  x ∈ [str "png"; str "jpg"] → a ∈ image_extensions →
  guarantees (only_writes (λ _, True) (λ p, p ≠ base ++ 46 :: a))
    (createWebP sharp_toBuffer (base ++ 46 :: x) originalSize).
Proof.
  intros Hx Ha.
  assert (x ∈ [str "jpg"; str "jpeg"; str "png"]) as Hx'
    by (clear Ha; revert x Hx; by decide_forall).
  apply createWebP_quiet; [done| |].
  - rewrite replace_ext' by done. intros ?%(inj (app base)).
    by apply (QualitySearch.webp_not_image a).
  - intros r Hr. rewrite replace_ext' by done. intros ?%(inj (app base)).
    by subst.
Qed.

Lemma optimizeImage_names imagemin_buffer sharp_toBuffer dir name a original
    st :
  a ∈ image_extensions →
  47 ∉ name →
  AVATAR_FILENAME st = name ++ str "." ++ a →
  AVATAR_DEST st = path_join dir (AVATAR_FILENAME st) →
  fs st !! AVATAR_DEST st = Some original →
  let st' :=
    (optimizeImage imagemin_buffer sharp_toBuffer (AVATAR_DEST st) st).2 in
  AVATAR_FILENAME st' = name ++ (detect original).2
  ∧ AVATAR_DEST st' = path_join dir (AVATAR_FILENAME st')
  ∧ ((detect original).2 ≠ str "." ++ a → fs st' !! AVATAR_DEST st = None).
Proof.
  intros Ha Hname Hfile Hdest Hsrc. cbv zeta.
  change (str "." ++ a) with (46 :: a) in *.
  set (base := dir ++ str "/" ++ name).
  assert (AVATAR_DEST st = base ++ 46 :: a) as Hpath.
  { rewrite Hdest, Hfile. unfold path_join, base.
    by rewrite <- !app_assoc. }
  rewrite Hpath in Hsrc |- *.
  rewrite (optimizeImage_run imagemin_buffer sharp_toBuffer _ original)
    by done.
  destruct (detect_extension original) as (x & -> & Hx).
  rewrite replace_ext by done. cbv zeta.
  set (st1 := record (Console (FormatDetected (detect original).1)) st).
  set (st2 := moved (base ++ 46 :: a) (base ++ 46 :: x) original st1).
  assert (AVATAR_FILENAME st2 = name ++ 46 :: x
          ∧ AVATAR_DEST st2 = path_join dir (AVATAR_FILENAME st2)
          ∧ (46 :: x ≠ 46 :: a → fs st2 !! (base ++ 46 :: a) = None))
    as (Hname2 & Hdest2 & Hgone2).
  { unfold st2, moved. case_bool_decide as Hmoved.
    - cbn [AVATAR_FILENAME AVATAR_DEST fs set_AVATAR_DEST
           set_AVATAR_FILENAME record with_fs].
      assert (base ++ 46 :: x = path_join dir (name ++ 46 :: x)) as Hjoin
        by (unfold path_join, base; by rewrite <- !app_assoc).
      assert (basename (base ++ 46 :: x) = name ++ 46 :: x) as ->.
      { rewrite Hjoin. apply basename_join. apply not_elem_of_app.
        split; [done|]. by apply detected_no_slash. }
      split; [done|]. split; [done|]. intros _.
      rewrite lookup_insert_ne by done. apply lookup_delete_eq.
    - apply (inj (app base)) in Hmoved.
      unfold st1. cbn [AVATAR_FILENAME AVATAR_DEST record].
      rewrite Hfile, Hpath.
      split; [by rewrite Hmoved|]. split.
      + unfold path_join, base. by rewrite <- !app_assoc.
      + intros Hne. by destruct Hne. }
  destruct (imagemin_buffer _ _) as [optimized|e]; [|done].
  destruct (createWebP_others sharp_toBuffer base x a (length original) Hx Ha
              (kept (base ++ 46 :: x) original optimized
                 (record (Imagemin original (plugins original)) st2)))
    as (Hfs & -> & -> & _).
  replace (AVATAR_FILENAME (kept _ _ _ _)) with (AVATAR_FILENAME st2)
    by (unfold kept; by destruct (_ <? _)%nat).
  replace (AVATAR_DEST (kept _ _ _ _)) with (AVATAR_DEST st2)
    by (unfold kept; by destruct (_ <? _)%nat).
  split; [done|]. split; [done|]. intros Hne.
  rewrite Hfs by (intros H; by apply H).
  unfold kept. destruct (_ <? _)%nat; cbn [fs record with_fs].
  - rewrite lookup_insert_ne; [by apply Hgone2|].
    intros ?%(inj (app base)). by apply Hne.
  - by apply Hgone2.
Qed.

(** X6: [optimizeImage] keeps the names of the script in step with the
    disk.  Started on [AVATAR_DEST], the join of a directory and
    [AVATAR_FILENAME], a name with an image extension, it ends with the
    file name on the detected extension and [AVATAR_DEST] the join of the
    directory and that name; if the extension changed, the old path holds
    no file any more. *)
Theorem optimizeImage_keeps_names_in_step
    (imagemin_buffer : list N → list plugin → result (list N))
    (sharp_toBuffer : list N → pipeline → result (list N))
    (dir name a original : list N) (st : state) :
  a ∈ image_extensions →
  47 ∉ name →
  AVATAR_FILENAME st = name ++ str "." ++ a →
  AVATAR_DEST st = path_join dir (AVATAR_FILENAME st) →
  fs st !! AVATAR_DEST st = Some original →
  let st' :=
    (optimizeImage imagemin_buffer sharp_toBuffer (AVATAR_DEST st) st).2 in
  AVATAR_FILENAME st' = name ++ (detect original).2
  ∧ AVATAR_DEST st' = path_join dir (AVATAR_FILENAME st')
  ∧ ((detect original).2 ≠ str "." ++ a → fs st' !! AVATAR_DEST st = None).
Proof. apply optimizeImage_names. Qed.

Lemma optimizeImage_keeps_names_in_step_witness :
  let st := Sample.fetched Cases.jpeg in
  let st' :=
    (optimizeImage Sample.imagemin Sample.sharp (AVATAR_DEST st) st).2 in
  AVATAR_FILENAME st' = str "avatar" ++ str ".jpg"
  ∧ AVATAR_DEST st' = path_join Sample.dist (AVATAR_FILENAME st')
  ∧ fs st' !! AVATAR_DEST st = None.
Proof.
  destruct (optimizeImage_keeps_names_in_step Sample.imagemin Sample.sharp
              Sample.dist (str "avatar") (str "png") Cases.jpeg
              (Sample.fetched Cases.jpeg))
    as (Hname & Hdest & Hgone).
  - apply (bool_decide_unpack _). by vm_compute.
  - apply (bool_decide_unpack _). by vm_compute.
  - reflexivity.
  - reflexivity.
  - by vm_compute.
  - split; [exact Hname|]. split; [exact Hdest|]. by apply Hgone.
Defined.
End Names.

(** ** The reference rewriter, run by run *)

Module Rewrites.
Import JS JSFacts Avatar Patterns Texts Observe Variants Anchored Rewriter.

(** The three ways a run of [updateHTMLReferences] can go. *)
Lemma updateHTMLReferences_cases AVATAR_DEST_DIR sharp_metadata st :
  let r := updateHTMLReferences AVATAR_DEST_DIR sharp_metadata st in
  (∃ html image width height,
     fs st !! HTML_FILE AVATAR_DEST_DIR = Some html
     ∧ fs st !! AVATAR_DEST st = Some image
     ∧ sharp_metadata image = Ok (width, height)
     ∧ r.1 = Val tt)
  ∨ (∃ e, r.1 = Throw e ∧ fs r.2 = fs st
          ∧ (fs st !! HTML_FILE AVATAR_DEST_DIR = None
             ∨ fs st !! AVATAR_DEST st = None
             ∨ ∃ image, fs st !! AVATAR_DEST st = Some image
                        ∧ sharp_metadata image = Error e)).
Proof.
  cbv zeta.
  destruct (fs st !! HTML_FILE AVATAR_DEST_DIR) as [html|] eqn:Hhtml.
  - destruct (fs st !! AVATAR_DEST st) as [image|] eqn:Himage.
    + destruct (sharp_metadata image) as [[width height]|e] eqn:Hmeta.
      * left. exists html, image, width, height.
        rewrite (updateHTMLReferences_run _ _ _ html image width height)
          by assumption.
        done.
      * right. exists e.
        unfold updateHTMLReferences, metadata, readFile_utf8, readFile,
          emit, modify, get, ret, throw.
        unfold bind. cbv beta iota. cbn [fs record].
        rewrite Hhtml. cbv beta iota. rewrite Himage. cbv beta iota.
        unfold await. rewrite Hmeta. cbn [fst snd fs record].
        split; [done|]. split; [done|]. right. right. by exists image.
    + right. exists ENOENT.
      unfold updateHTMLReferences, metadata, readFile_utf8, readFile,
        emit, modify, get, ret, throw.
      unfold bind. cbv beta iota. cbn [fs record].
      rewrite Hhtml. cbv beta iota. rewrite Himage.
      cbn [fst snd fs record]. auto.
  - right. exists ENOENT.
    unfold updateHTMLReferences, readFile_utf8, readFile, get, ret, throw.
    unfold bind. cbv beta iota. rewrite Hhtml. cbn [fst snd]. auto.
Qed.

Lemma updateHTMLReferences_writes_page_or_nothing AVATAR_DEST_DIR
    sharp_metadata st :
  let r := updateHTMLReferences AVATAR_DEST_DIR sharp_metadata st in
  (∀ p, p ≠ HTML_FILE AVATAR_DEST_DIR → fs r.2 !! p = fs st !! p)
  ∧ AVATAR_FILENAME r.2 = AVATAR_FILENAME st
  ∧ AVATAR_WEBP_FILENAME r.2 = AVATAR_WEBP_FILENAME st
  ∧ AVATAR_DEST r.2 = AVATAR_DEST st
  ∧ (r.1 = Val tt
     ↔ ∃ html image wh,
         fs st !! HTML_FILE AVATAR_DEST_DIR = Some html
         ∧ fs st !! AVATAR_DEST st = Some image
         ∧ sharp_metadata image = Ok wh)
  ∧ (r.1 ≠ Val tt → fs r.2 = fs st).
Proof.
  cbv zeta.
  destruct (fs st !! HTML_FILE AVATAR_DEST_DIR) as [html|] eqn:Hhtml.
  - destruct (fs st !! AVATAR_DEST st) as [image|] eqn:Himage.
    + destruct (sharp_metadata image) as [[width height]|e] eqn:Hmeta.
      * rewrite (updateHTMLReferences_run _ _ _ html image width height)
          by assumption.
        cbn [fst snd fs record with_fs AVATAR_FILENAME
             AVATAR_WEBP_FILENAME AVATAR_DEST].
        split; [intros p Hp; by rewrite lookup_insert_ne|].
        do 3 (split; [done|]).
        split; [|done]. split; [|done].
        intros _. by exists html, image, (width, height).
      * unfold updateHTMLReferences, metadata, readFile_utf8, readFile,
          emit, modify, get, ret, throw.
        unfold bind. cbv beta iota. cbn [fs record].
        rewrite Hhtml. cbv beta iota. rewrite Himage. cbv beta iota.
        unfold await. rewrite Hmeta. cbn [fst snd fs record].
        do 4 (split; [done|]). split; [|done]. split; [done|].
        intros (? & ? & ? & ? & ? & ?). congruence.
    + unfold updateHTMLReferences, metadata, readFile_utf8, readFile,
        emit, modify, get, ret, throw.
      unfold bind. cbv beta iota. cbn [fs record].
      rewrite Hhtml. cbv beta iota. rewrite Himage.
      cbn [fst snd fs record]. do 4 (split; [done|]). split; [|done].
      split; [done|]. intros (? & ? & ? & ? & ? & ?). congruence.
  - unfold updateHTMLReferences, readFile_utf8, readFile, get, ret, throw.
    unfold bind. cbv beta iota. rewrite Hhtml. cbn [fst snd].
    do 4 (split; [done|]). split; [|done].
    split; [done|]. intros (? & ? & ? & ? & ? & ?). congruence.
Qed.

(** X7: [updateHTMLReferences] changes no file but the page and none of
    the names of the script.  It fulfils exactly when the page and the
    master can be read and [sharp] delivers the dimensions of the master;
    when it does not fulfil, every file is as it was, the page being
    written once, as the last step. *)
Theorem updateHTMLReferences_writes_the_page_or_nothing
    (AVATAR_DEST_DIR : list N)
    (sharp_metadata : list N → result (N * N)) (st : state) :
  let r := updateHTMLReferences AVATAR_DEST_DIR sharp_metadata st in
  (∀ p, p ≠ HTML_FILE AVATAR_DEST_DIR → fs r.2 !! p = fs st !! p)
  ∧ AVATAR_FILENAME r.2 = AVATAR_FILENAME st
  ∧ AVATAR_WEBP_FILENAME r.2 = AVATAR_WEBP_FILENAME st
  ∧ AVATAR_DEST r.2 = AVATAR_DEST st
  ∧ (r.1 = Val tt
     ↔ ∃ html image wh,
         fs st !! HTML_FILE AVATAR_DEST_DIR = Some html
         ∧ fs st !! AVATAR_DEST st = Some image
         ∧ sharp_metadata image = Ok wh)
  ∧ (r.1 ≠ Val tt → fs r.2 = fs st).
Proof. apply updateHTMLReferences_writes_page_or_nothing. Qed.

(** X8: a page with no reference to the original URL and no dimension
    tag is not rewritten, but it is decoded and encoded again.  After
    [updateHTMLReferences] the page holds the encoding of its own text,
    or nothing is written at all, and no other file changes; a page that
    is well-formed UTF-8 is left as it is, byte for byte. *)
Theorem rewriter_leaves_a_page_without_references
    (AVATAR_DEST_DIR : list N)
    (sharp_metadata : list N → result (N * N)) (st : state)
    (page : list N) :
  fs st !! HTML_FILE AVATAR_DEST_DIR = Some page →
  Forall (λ p, has_match p (utf8_decode page) = false)
    (placeholders ++ [re_og_width; re_og_height]) →
  let st' := (updateHTMLReferences AVATAR_DEST_DIR sharp_metadata st).2 in
  (fs st' = fs st
   ∨ fs st'
     = <[HTML_FILE AVATAR_DEST_DIR := utf8_encode (utf8_decode page)]>
         (fs st))
  ∧ (utf8_valid page = true → fs st' = fs st).
Proof.
  intros Hpage Hnone. cbv zeta.
  destruct (updateHTMLReferences_cases AVATAR_DEST_DIR sharp_metadata st)
    as [(page' & image & width & height & Hpage' & Himage & Hmeta & _)
       |(e & _ & Hfs & _)]; [|by split; [left|]].
  rewrite (updateHTMLReferences_run _ _ _ page image width height)
    by assumption.
  cbv zeta. cbn [snd fs record with_fs].
  unfold placeholders in Hnone. cbn [app] in Hnone.
  rewrite !Forall_cons in Hnone.
  destruct Hnone as (Hsrcset & Hsrc & Hcontent & Himg & Hw & Hh & _).
  assert (∀ avatarPath avatarWebpPath avatarFullUrl,
            rewriteReferences avatarPath avatarWebpPath avatarFullUrl
              width height (utf8_decode page) = utf8_decode page) as ->.
  { intros avatarPath avatarWebpPath avatarFullUrl.
    unfold rewriteReferences.
    destruct avatarWebpPath;
      by rewrite ?(replaceAll_no_match re_srcset),
           (replaceAll_no_match re_src), (replaceAll_no_match re_content),
           (replaceAll_no_match re_image), (replaceAll_no_match re_og_width),
           (replaceAll_no_match re_og_height) by assumption. }
  split; [by right|].
  intros Hvalid. rewrite Unicode.utf8_encode_decode by done.
  by apply insert_id.
Qed.

Lemma rewriter_leaves_a_page_without_references_witness :
  let st := Sample.built Cases.plain in
  let st' := (updateHTMLReferences Sample.dist Sample.metadata st).2 in
  (fs st' = fs st
   ∨ fs st'
     = <[HTML_FILE Sample.dist := utf8_encode (utf8_decode Cases.plain)]>
         (fs st))
  ∧ fs st' = fs st.
Proof.
  destruct (rewriter_leaves_a_page_without_references Sample.dist
              Sample.metadata (Sample.built Cases.plain) Cases.plain)
    as [Hfs Hsame].
  - by vm_compute.
  - repeat constructor; by vm_compute.
  - split; [exact Hfs|]. apply Hsame. by vm_compute.
Defined.

(** A page that is not well-formed UTF-8 changes on disk although the
    rewriter finds nothing to rewrite in it: the byte that is no
    character comes back as the three bytes of U+FFFD. *)
Lemma page_with_broken_utf8_is_written_back_repaired :
  let st := Sample.built Cases.latin1 in
  let st' := (updateHTMLReferences Sample.dist Sample.metadata st).2 in
  Cases.latin1 = str "<p>caf" ++ [0xE9] ++ str "</p>"
  ∧ fs st' !! HTML_FILE Sample.dist
    = Some (str "<p>caf" ++ [0xEF; 0xBF; 0xBD] ++ str "</p>").
Proof. by vm_compute. Qed.
End Rewrites.

(** ** The recorded dimensions *)

Module Dimensions.
Import JS JSFacts Avatar Patterns Observe Anchored Rewriter.

(** In a text cut at the anchors, a position that holds the anchor is the
    start of a piece. *)
Lemma drop_concat_anchor a h t i s :
  well_cut a (h :: t) →
  drop i (concat (h :: t)) = a :: s →
  ∃ t1 c t2, t = t1 ++ c :: t2 ∧ drop i (concat (h :: t)) = c ++ concat t2.
Proof.
  revert h i. induction t as [|c t IH]; intros h i [Hh Ht] Hdrop.
  - exfalso. cbn [concat] in Hdrop. rewrite app_nil_r in Hdrop.
    apply Hh. apply (subseteq_drop i h). rewrite Hdrop. left.
  - apply Forall_cons in Ht as [(c' & -> & Hc') Ht]. cbn [concat] in *.
    destruct (decide (i < length h)%nat) as [Hi|Hi].
    { exfalso. rewrite drop_app_le in Hdrop by lia.
      destruct (drop i h) as [|x y] eqn:Hd.
      - apply (f_equal length) in Hd. rewrite length_drop in Hd.
        simpl in Hd. lia.
      - simpl in Hdrop. injection Hdrop as -> _. apply Hh.
        apply (subseteq_drop i h). rewrite Hd. left. }
    rewrite drop_app_ge in Hdrop |- * by lia.
    destruct (i - length h)%nat as [|j] eqn:Hj.
    + exists [], (a :: c'), t. by rewrite drop_0.
    + cbn [app drop] in Hdrop |- *.
      destruct (IH c' j) as (t1 & c & t2 & -> & Heq); [done|done|].
      exists ((a :: c') :: t1), c, t2. by rewrite Heq.
Qed.

(** A match of an anchored pattern in a text cut at the anchors is the
    match at the head of a piece. *)
Lemma anchored_match_in_piece a p' cs i n :
  Forall (avoids a) p' → well_cut a cs →
  matches (Chr a :: p') (drop i (concat cs)) = Some n →
  ∃ c, c ∈ cs ∧ matches (Chr a :: p') c = Some n
       ∧ take n (drop i (concat cs)) = take n c.
Proof.
  intros Hp Hcut Hm. destruct cs as [|h t]; [done|].
  pose proof (anchored_Some a p' Hp _ _ Hm) as (s & n' & Hs & -> & _).
  destruct (drop_concat_anchor a h t i s Hcut Hs)
    as (t1 & c & t2 & -> & Heq).
  rewrite Heq in Hm |- *. destruct Hcut as [_ Ht].
  apply Forall_app in Ht as [_ Ht].
  apply Forall_cons in Ht as [(c' & -> & Hc') Ht].
  assert (at_anchor a (concat t2)) as Hy.
  { destruct Ht as [|? ? (? & -> & _) _]; simpl; done. }
  cbn [app] in Hm. rewrite (anchored_app a p' Hp) in Hm by done.
  exists (a :: c'). split; [set_solver|]. split; [done|].
  pose proof (anchored_Some a p' Hp _ _ Hm) as (? & ? & ? & ? & Hlen & _).
  simplify_eq. rewrite take_app_le by (simpl; lia). done.
Qed.

(** The pieces of a text once both dimensions are rewritten. *)
Lemma og_pieces width height s :
  ∃ cs,
    well_cut 60 cs
    ∧ replaceAll re_og_height (new_og_height height)
        (replaceAll re_og_width (new_og_width width) s)
      = concat cs
    ∧ Forall (λ c2, ∃ c, c2 = step re_og_height (new_og_height height)
                              (step re_og_width (new_og_width width) c))
        cs.
Proof.
  exists (step re_og_height (new_og_height height)
          <$> (step re_og_width (new_og_width width) <$> pieces 60 s)).
  pose proof (pieces_well_cut 60 s) as Hcut.
  unfold re_og_width, re_og_height, new_og_width, new_og_height.
  rewrite !re_og_anchored.
  pose proof (step_well_cut 60 _ (new_og "og:image:width" width)
                og_tail_width (new_og_tail "og:image:width" width)
                (new_og_anchored _ _)
                (new_og_tail_no_anchor _ _ og_head_width) _ Hcut) as Hcut1.
  pose proof (step_well_cut 60 _ (new_og "og:image:height" height)
                og_tail_height (new_og_tail "og:image:height" height)
                (new_og_anchored _ _)
                (new_og_tail_no_anchor _ _ og_head_height) _ Hcut1) as Hcut2.
  split; [exact Hcut2|]. split.
  - rewrite (replaceAll_pieces 60 _ _ og_tail_width s).
    by rewrite (replaceAll_concat 60 _ _ og_tail_height _ Hcut1).
  - apply Forall_fmap, Forall_fmap, Forall_true. intros c. by exists c.
Qed.

(** X9: after a run of [updateHTMLReferences] that reads the page and
    measures the master, every [og:image:width] tag of the written page is
    the tag of the measured width and every [og:image:height] tag the tag
    of the measured height: wherever one of the two patterns matches in the
    text that is written, the matched text is the new tag.  The page holds
    the encoding of that text. *)
Theorem og_tags_carry_measured_dimensions
    (AVATAR_DEST_DIR : list N)
    (sharp_metadata : list N → result (N * N)) (st : state)
    (html image : list N) (width height : N) :
  fs st !! HTML_FILE AVATAR_DEST_DIR = Some html →
  fs st !! AVATAR_DEST st = Some image →
  sharp_metadata image = Ok (width, height) →
  let st' := (updateHTMLReferences AVATAR_DEST_DIR sharp_metadata st).2 in
  let avatarPath := str "/" ++ AVATAR_FILENAME st in
  let avatarWebpPath :=
    if bool_decide (AVATAR_WEBP_FILENAME st ≠ [])
    then Some (str "/" ++ AVATAR_WEBP_FILENAME st) else None in
  let out :=
    rewriteReferences avatarPath avatarWebpPath
      (str "https://bmarwell.de" ++ avatarPath) width height
      (utf8_decode html) in
  fs st' !! HTML_FILE AVATAR_DEST_DIR = Some (utf8_encode out)
  ∧ ∀ i n,
      (matches re_og_width (drop i out) = Some n →
       take n (drop i out) = new_og_width width)
      ∧ (matches re_og_height (drop i out) = Some n →
         take n (drop i out) = new_og_height height).
Proof.
  intros Hhtml Himage Hmeta. cbv zeta.
  rewrite (updateHTMLReferences_run _ _ _ html image width height)
    by assumption.
  cbv zeta. cbn [snd fs record with_fs].
  split; [apply lookup_insert_eq|]. unfold rewriteReferences.
  set (x := replaceAll re_image _ _).
  destruct (og_pieces width height x) as (cs & Hcut & -> & Hcs).
  rewrite Forall_forall in Hcs. intros i n. split.
  - intros Hm. unfold re_og_width in Hm. rewrite re_og_anchored in Hm.
    destruct (anchored_match_in_piece 60 _ cs i n og_tail_width Hcut Hm)
      as (c2 & Hc2 & Hm2 & ->).
    rewrite <- re_og_anchored in Hm2.
    change (re_og "og:image:width") with re_og_width in Hm2.
    destruct (Hcs c2 Hc2) as [c ->].
    destruct (matches re_og_width c) as [k|] eqn:Hw.
    + rewrite (step_Some re_og_width _ c k Hw) in Hm2 |- *.
      rewrite (step_None re_og_height (new_og_height height) _
                 (width_not_height width (drop k c))) in Hm2 |- *.
      unfold new_og_width in Hm2. unfold re_og_width in Hm2.
      rewrite matches_new_og in Hm2. injection Hm2 as <-.
      exact (take_app_length (new_og_width width) _).
    + rewrite (step_None re_og_width _ c Hw) in Hm2.
      destruct (matches re_og_height c) as [m|] eqn:Hh.
      * rewrite (step_Some re_og_height _ c m Hh) in Hm2.
        by rewrite height_not_width in Hm2.
      * rewrite (step_None re_og_height _ c Hh) in Hm2. congruence.
  - intros Hm. unfold re_og_height in Hm. rewrite re_og_anchored in Hm.
    destruct (anchored_match_in_piece 60 _ cs i n og_tail_height Hcut Hm)
      as (c2 & Hc2 & Hm2 & ->).
    rewrite <- re_og_anchored in Hm2.
    change (re_og "og:image:height") with re_og_height in Hm2.
    destruct (Hcs c2 Hc2) as [c ->].
    set (c1 := step re_og_width (new_og_width width) c) in *.
    destruct (matches re_og_height c1) as [m|] eqn:Hh.
    + rewrite (step_Some re_og_height _ c1 m Hh) in Hm2 |- *.
      unfold new_og_height in Hm2. unfold re_og_height in Hm2.
      rewrite matches_new_og in Hm2. injection Hm2 as <-.
      exact (take_app_length (new_og_height height) _).
    + rewrite (step_None re_og_height _ c1 Hh) in Hm2. congruence.
Qed.

Lemma og_tags_carry_measured_dimensions_witness :
  let st' :=
    (updateHTMLReferences Sample.dist Sample.metadata
       (Sample.built Cases.tagged)).2 in
  ∃ out,
    fs st' !! HTML_FILE Sample.dist = Some (utf8_encode out)
    ∧ ∀ i n,
        (matches re_og_width (drop i out) = Some n →
         take n (drop i out) = new_og_width 460)
        ∧ (matches re_og_height (drop i out) = Some n →
           take n (drop i out) = new_og_height 460).
Proof.
  eexists.
  apply (og_tags_carry_measured_dimensions Sample.dist Sample.metadata
           (Sample.built Cases.tagged) Cases.tagged Sample.png 460 460).
  - by vm_compute.
  - by vm_compute.
  - reflexivity.
Defined.
End Dimensions.

(** ** The stages of [optimizeImage], summed up *)

Module Stages.
Import JS JSFacts Avatar Observe Variants Optimizer Names.

#[export] Instance webp_named_preorder v : PreOrder (webp_named v).
Proof.
  split.
  - intros st. split; [by left|]. exists []. by rewrite app_nil_r.
  - intros st1 st2 st3 (Hn1 & t1 & Ht1 & Hq1) (Hn2 & t2 & Ht2 & Hq2). split.
    + destruct Hn2 as [->| ->]; [done | by right].
    + exists (t1 ++ t2). split.
      * by rewrite Ht2, Ht1, app_assoc.
      * by apply Forall_app.
Qed.

Section Named.
Variable v : list N.

Lemma emit_named e : not_warning e → guarantees (webp_named v) (emit e).
Proof.
  intros He. apply guarantees_modify. intros st. split; [by left|].
  exists [e]. split; [done|]. by constructor.
Qed.

Lemma record_named e st : not_warning e → webp_named v st (record e st).
Proof. intros He. by apply emit_named. Qed.

Lemma readFile_named p : guarantees (webp_named v) (readFile p).
Proof.
  unfold readFile. apply guarantees_bind; [apply guarantees_get|].
  intros st. destruct (fs st !! p); frame_step.
Qed.

Lemma with_fs_named f : guarantees (webp_named v) (modify (with_fs f)).
Proof.
  apply guarantees_modify. intros st. split; [by left|].
  exists []. by rewrite app_nil_r.
Qed.

Lemma writeFile_named p c : guarantees (webp_named v) (writeFile p c).
Proof.
  apply guarantees_bind; [by apply emit_named|]. intros _.
  apply with_fs_named.
Qed.

Lemma readFile_utf8_named p : guarantees (webp_named v) (readFile_utf8 p).
Proof.
  apply guarantees_bind; [apply readFile_named|]. intros b.
  apply guarantees_ret.
Qed.

Lemma writeFile_utf8_named p c :
  guarantees (webp_named v) (writeFile_utf8 p c).
Proof. apply writeFile_named. Qed.

Lemma set_AVATAR_WEBP_FILENAME_named :
  guarantees (webp_named v) (modify (set_AVATAR_WEBP_FILENAME v)).
Proof.
  apply guarantees_modify. intros st. split; [by right|].
  exists []. by rewrite app_nil_r.
Qed.

Lemma sharp_named sharp_toBuffer p pl :
  guarantees (webp_named v) (sharp sharp_toBuffer p pl).
Proof.
  apply guarantees_bind; [by apply emit_named|]. intros _.
  apply guarantees_bind; [apply readFile_named|]. intros b.
  apply guarantees_await.
Qed.

Ltac named :=
  repeat first
    [ apply emit_named; exact I | apply readFile_named
    | apply writeFile_named | apply readFile_utf8_named
    | apply writeFile_utf8_named | apply with_fs_named
    | apply set_AVATAR_WEBP_FILENAME_named | apply sharp_named
    | frame_step ].

Lemma quality_loop_named sharp_toBuffer qualities sourcePath webpPath
    originalSize :
  v = basename webpPath →
  guarantees (webp_named v)
    (quality_loop sharp_toBuffer qualities sourcePath webpPath
       originalSize).
Proof.
  intros Hv.
  induction qualities as [|quality rest IH]; cbn [quality_loop];
    rewrite <- ?Hv.
  - apply guarantees_ret.
  - apply guarantees_bind.
    + apply guarantees_try_catch.
      * apply guarantees_bind; [apply sharp_named|]. intros b.
        destruct (_ <? _)%nat; unfold console_log; named.
      * intros e. unfold console_log. named.
    + intros [|]; [named | apply IH].
Qed.

Lemma sizes_loop_named sharp_toBuffer sizes sourcePath :
  guarantees (webp_named v) (sizes_loop sharp_toBuffer sizes sourcePath).
Proof.
  induction sizes as [|size rest IH]; cbn [sizes_loop].
  - apply guarantees_ret.
  - apply guarantees_bind; [apply sharp_named|]. intros b.
    apply guarantees_bind; [named|]. intros _.
    apply guarantees_bind; [unfold console_log; named|]. intros _.
    apply guarantees_bind; [apply sharp_named|]. intros b'.
    apply guarantees_bind; [named|]. intros _.
    apply guarantees_bind; [unfold console_log; named|]. intros _.
    apply IH.
Qed.

Lemma updateHTMLReferences_named AVATAR_DEST_DIR sharp_metadata :
  guarantees (webp_named v)
    (updateHTMLReferences AVATAR_DEST_DIR sharp_metadata).
Proof.
  unfold updateHTMLReferences.
  apply guarantees_bind; [apply readFile_utf8_named|]. intros html.
  apply guarantees_bind; [apply guarantees_get|]. intros st.
  apply guarantees_bind; [unfold metadata; named|]. intros [width height].
  unfold console_log. named.
Qed.

Lemma fetches_named st st' :
  AVATAR_WEBP_FILENAME st' = AVATAR_WEBP_FILENAME st →
  (∃ t, trace st' = trace st ++ t ∧ Forall fetches t) →
  webp_named v st st'.
Proof.
  intros Hname (t & Ht & Hfetches). split; [by left|]. exists t.
  split; [done|]. eapply Forall_impl; [exact Hfetches|].
  by intros [| | | | | |[]].
Qed.

(** From a state in which the WebP file name is set, [createWebP] never
    prints the warning. *)
Lemma createWebP_named sharp_toBuffer sourcePath originalSize st :
  v = basename (replace ext' (str ".webp") sourcePath) →
  v ≠ [] →
  AVATAR_WEBP_FILENAME st ≠ [] →
  webp_named v st (createWebP sharp_toBuffer sourcePath originalSize st).2.
Proof.
  intros Hv Hne Hset. unfold createWebP.
  pose proof (quality_loop_named sharp_toBuffer [80; 75; 70; 65; 60]
                sourcePath _ originalSize Hv st) as Hloop.
  pose proof (QualitySearch.quality_loop_returns sharp_toBuffer originalSize
                [80; 75; 70; 65; 60] sourcePath
                (replace ext' (str ".webp") sourcePath) st) as Hret.
  unfold bind at 1.
  destruct (quality_loop _ _ _ _ _ st) as [o st1]. simpl in Hret, Hloop.
  subst o. unfold bind at 1, get at 1. unfold bind at 1.
  rewrite bool_decide_eq_false_2.
  - cbn [ret]. etransitivity; [exact Hloop|]. apply sizes_loop_named.
  - destruct Hloop as [[-> | ->] _]; done.
Qed.
End Named.

Lemma moved_file filePath correctPath original st :
  fs st !! filePath = Some original →
  fs (moved filePath correctPath original st) !! correctPath = Some original.
Proof.
  intros Hfile. unfold moved. case_bool_decide as Hpath; simpl.
  - by rewrite lookup_insert_eq.
  - by rewrite Hpath.
Qed.

Section Optimize.
Variable imagemin_buffer : list N → list plugin → result (list N).
Variable sharp_toBuffer : list N → pipeline → result (list N).
Variables base a original : list N.
Variable st : state.
Hypothesis a_image : a ∈ image_extensions.
Hypothesis present : fs st !! (base ++ 46 :: a) = Some original.

Local Abbreviation r :=
  (optimizeImage imagemin_buffer sharp_toBuffer (base ++ 46 :: a) st).

(** [optimizeImage] on a file with an image extension. *)
Lemma optimizeImage_shape :
  ∃ x st3,
    x ∈ [str "png"; str "jpg"]
    ∧ (detect original).2 = 46 :: x
    ∧ st3 = record (Imagemin original (plugins original))
              (moved (base ++ 46 :: a) (base ++ 46 :: x) original
                 (record (Console (FormatDetected (detect original).1))
                    st))
    ∧ r = match imagemin_buffer original (plugins original) with
          | Ok optimized =>
              createWebP sharp_toBuffer (base ++ 46 :: x) (length original)
                (kept (base ++ 46 :: x) original optimized st3)
          | Error e => (Throw e, st3)
          end.
Proof.
  destruct (detect_extension original) as (x & Hext & Hx).
  exists x. eexists. split; [done|]. split; [done|]. split; [reflexivity|].
  rewrite (optimizeImage_run imagemin_buffer sharp_toBuffer _ original)
    by done.
  rewrite Hext, replace_ext by done. done.
Qed.

(** It touches paths on the base of the file only. *)
Lemma optimizeImage_others p :
  (∀ s, p ≠ base ++ s) → fs r.2 !! p = fs st !! p.
Proof.
  intros Hp.
  destruct optimizeImage_shape as (x & st3 & Hx & _ & Hst3 & ->).
  assert (fs st3 !! p = fs st !! p) as H3.
  { rewrite Hst3. cbn [fs record]. unfold moved.
    case_bool_decide; [|done]. cbn [fs record with_fs set_AVATAR_DEST
                                    set_AVATAR_FILENAME].
    by rewrite lookup_insert_ne, lookup_delete_ne. }
  destruct (imagemin_buffer _ _) as [optimized|e]; [|done].
  assert (x ∈ [str "jpg"; str "jpeg"; str "png"]) as Hx'
    by (clear Hst3; revert x Hx; by decide_forall).
  destruct (createWebP_quiet (λ _, True) (λ q, ∃ s, q = base ++ s)
              sharp_toBuffer (base ++ 46 :: x) (length original))
    with (st := kept (base ++ 46 :: x) original optimized st3)
    as (Hfs & _); [done| | |].
  { rewrite replace_ext' by done. by eexists. }
  { intros s _. rewrite replace_ext' by done. by eexists. }
  rewrite Hfs by (intros [s ->]; by apply (Hp s)).
  unfold kept. destruct (_ <? _)%nat; cbn [fs record with_fs]; [|done].
  by rewrite lookup_insert_ne.
Qed.

(** It keeps the WebP file name set and prints no warning. *)
Lemma optimizeImage_named :
  AVATAR_WEBP_FILENAME st ≠ [] →
  webp_named (basename (base ++ str ".webp")) st r.2.
Proof.
  intros Hset.
  destruct optimizeImage_shape as (x & st3 & Hx & _ & Hst3 & ->).
  assert (x ∈ [str "jpg"; str "jpeg"; str "png"]) as Hx'
    by (clear Hst3; revert x Hx; by decide_forall).
  assert (webp_named (basename (base ++ str ".webp")) st st3
          ∧ AVATAR_WEBP_FILENAME st3 = AVATAR_WEBP_FILENAME st)
    as [H3 Hname3].
  { rewrite Hst3. unfold moved. case_bool_decide.
    - split; [|done]. split; [by left|].
      cbn [trace record with_fs set_AVATAR_DEST set_AVATAR_FILENAME].
      rewrite <- !app_assoc. eexists. split; [reflexivity|].
      by repeat constructor.
    - split; [|done]. split; [by left|]. cbn [trace record].
      rewrite <- !app_assoc. eexists. split; [reflexivity|].
      by repeat constructor. }
  destruct (imagemin_buffer _ _) as [optimized|e]; [|done].
  etransitivity; [exact H3|].
  set (st4 := kept (base ++ 46 :: x) original optimized st3).
  assert (webp_named (basename (base ++ str ".webp")) st3 st4
          ∧ AVATAR_WEBP_FILENAME st4 = AVATAR_WEBP_FILENAME st3)
    as [H4 Hname4].
  { unfold st4, kept. destruct (_ <? _)%nat.
    - split; [|done]. split; [by left|]. cbn [trace record with_fs].
      rewrite <- !app_assoc. eexists. split; [reflexivity|].
      by repeat constructor.
    - split; [|done]. split; [by left|]. cbn [trace record].
      eexists. split; [reflexivity|]. by repeat constructor. }
  etransitivity; [exact H4|].
  apply createWebP_named.
  - by rewrite replace_ext'.
  - change (str ".webp") with (str ".web" ++ [112]). rewrite app_assoc.
    by apply basename_last.
  - congruence.
Qed.

(** It rejects with the error of [imagemin], or with the first error of a
    sized encoding of the stored master. *)
Lemma optimizeImage_outcome :
  r.1
  = match imagemin_buffer original (plugins original) with
    | Ok optimized =>
        match first_error
                (sharp_toBuffer (master original optimized)
                 <$> (sizes ≫= sized_pipelines)) with
        | Some e => Throw e
        | None => Val tt
        end
    | Error e => Throw e
    end.
Proof.
  destruct optimizeImage_shape as (x & st3 & Hx & _ & Hst3 & ->).
  destruct (imagemin_buffer _ _) as [optimized|e]; [|done].
  assert (x ∈ image_extensions) as Hx'
    by (by apply QualitySearch.detected_image).
  destruct (Sized.createWebP_sizes sharp_toBuffer base x
              (master original optimized) Hx' (length original)
              (kept (base ++ 46 :: x) original optimized st3))
    as (st5 & -> & Hfs & _).
  { unfold kept, master. destruct (_ <? _)%nat; cbn [fs record with_fs].
    - apply lookup_insert_eq.
    - rewrite Hst3. cbn [fs record]. by apply moved_file. }
  apply Sized.sizes_loop_outcome; [done|].
  rewrite Hfs.
  - unfold kept, master. destruct (_ <? _)%nat; cbn [fs record with_fs].
    + apply lookup_insert_eq.
    + rewrite Hst3. cbn [fs record]. by apply moved_file.
  - intros ?%(inj (app base)). by apply (QualitySearch.webp_not_image x).
Qed.

(** The stored master, when [imagemin] delivers. *)
Lemma optimizeImage_master optimized :
  AVATAR_DEST st = base ++ 46 :: a →
  imagemin_buffer original (plugins original) = Ok optimized →
  AVATAR_DEST r.2 = base ++ (detect original).2
  ∧ fs r.2 !! (base ++ (detect original).2)
    = Some (master original optimized).
Proof.
  intros Hdest Himagemin.
  destruct optimizeImage_shape as (x & st3 & Hx & -> & Hst3 & ->).
  rewrite Himagemin.
  destruct (createWebP_source sharp_toBuffer base x (length original) Hx
              (kept (base ++ 46 :: x) original optimized st3))
    as (Hfs & _ & -> & _).
  rewrite Hfs by (intros H; by apply H).
  destruct (moved_master (base ++ 46 :: a) (base ++ 46 :: x) original
              (record (Console (FormatDetected (detect original).1)) st))
    as [Hfs2 Hdest2]; [done..|].
  unfold kept, master. destruct (_ <? _)%nat;
    cbn [fs record with_fs AVATAR_DEST]; rewrite Hst3;
    cbn [fs record AVATAR_DEST].
  - by rewrite lookup_insert_eq.
  - done.
Qed.
End Optimize.
End Stages.

(** ** Runs of [main] from the state the module starts in *)

Module Runs.
Import JS JSFacts Avatar Patterns Texts Observe Variants Optimizer Names.
Import Stages.

Section Script.
Variable AVATAR_DEST_DIR : list N.
Variable https_get : option (list N) → response.
Variable imagemin_buffer : list N → list plugin → result (list N).
Variable sharp_toBuffer : list N → pipeline → result (list N).
Variable sharp_metadata : list N → result (N * N).
Variable fuel : nat.
Variable files : gmap (list N) (list N).

Local Abbreviation main :=
  (main AVATAR_DEST_DIR https_get imagemin_buffer sharp_toBuffer
     sharp_metadata).
Local Abbreviation st0 := (initial AVATAR_DEST_DIR files).
Local Abbreviation base := (AVATAR_DEST_DIR ++ str "/avatar").

Lemma initial_dest :
  path_join AVATAR_DEST_DIR (str "avatar.png") = base ++ 46 :: str "png".
Proof. unfold path_join. by rewrite <- app_assoc. Qed.

Lemma page_off_base s : HTML_FILE AVATAR_DEST_DIR ≠ base ++ s.
Proof.
  unfold HTML_FILE, path_join. rewrite <- app_assoc.
  by intros ?%(inj (app AVATAR_DEST_DIR)).
Qed.

(** The avatar is stored under one of the two names. *)
Lemma master_name_known imageData : master_name imageData ∈ names.
Proof.
  unfold master_name, detect, names.
  destruct (isPNG imageData), (isJPEG imageData); cbn [snd];
    apply (bool_decide_unpack _); by vm_compute.
Qed.

(** The state in which [optimizeImage] starts. *)
Lemma downloaded imageData st1 :
  downloadAvatar https_get fuel st0 = (Val (Returned imageData), st1) →
  let st2 :=
    record (Console (Downloaded (length imageData)))
      (with_fs <[AVATAR_DEST st1 := imageData]>
         (record (WriteFile (AVATAR_DEST st1) imageData) st1)) in
  AVATAR_DEST st1 = base ++ 46 :: str "png"
  ∧ fs st2 !! (base ++ 46 :: str "png") = Some imageData
  ∧ (∀ p, p ≠ base ++ 46 :: str "png" → fs st2 !! p = files !! p)
  ∧ AVATAR_FILENAME st2 = str "avatar.png"
  ∧ AVATAR_DEST st2 = base ++ 46 :: str "png"
  ∧ webp_named (str "avatar.webp") st0 st2.
Proof.
  intros Hdl. cbv zeta.
  destruct (Pipeline.download_only_requests https_get fuel false
              (Some AVATAR_URL) st0) as (Hfs & Hname & Hwebp & Hdest & Ht).
  fold (downloadAvatar https_get fuel) in *. rewrite Hdl in *.
  cbn [snd] in *. cbn [fs AVATAR_FILENAME AVATAR_DEST initial] in *.
  rewrite initial_dest in Hdest. rewrite Hdest.
  cbn [fs record with_fs AVATAR_FILENAME AVATAR_DEST].
  split; [done|]. split; [by rewrite lookup_insert_eq|].
  split; [intros p Hp; by rewrite lookup_insert_ne, Hfs|].
  split; [done|]. split; [done|].
  etransitivity; [by apply fetches_named|].
  split; [by left|]. cbn [trace record with_fs].
  rewrite <- app_assoc. eexists. split; [reflexivity|].
  by repeat constructor.
Qed.

Lemma webp_path :
  basename (base ++ str ".webp") = str "avatar.webp".
Proof.
  replace (base ++ str ".webp")
    with (path_join AVATAR_DEST_DIR (str "avatar.webp"))
    by (unfold path_join; by rewrite <- app_assoc).
  apply basename_join. apply (bool_decide_unpack _). by vm_compute.
Qed.

(** The whole run keeps the WebP file name and prints no warning. *)
Lemma main_named :
  webp_named (str "avatar.webp") st0 (main fuel st0).2.
Proof.
  rewrite Fallback.avatar_main_run. cbv zeta.
  pose proof (Pipeline.download_only_requests https_get fuel false
                (Some AVATAR_URL) st0) as (_ & _ & Hwebp & _ & Ht).
  fold (downloadAvatar https_get fuel) in *.
  destruct (downloadAvatar https_get fuel st0)
    as [[[imageData|code]|e'|] st1] eqn:Hdl; cbn [snd] in *.
  - destruct (downloaded imageData st1 Hdl)
      as (-> & Hfile & _ & _ & _ & H2).
    set (st2 := record _ _) in *.
    assert (AVATAR_WEBP_FILENAME st2 ≠ []) as Hset.
    { destruct H2 as [[-> | ->] _]; done. }
    pose proof (optimizeImage_named imagemin_buffer sharp_toBuffer base
                  (str "png") imageData st2
                  ltac:(apply (bool_decide_unpack _); by vm_compute)
                  Hfile Hset) as H3.
    rewrite webp_path in H3.
    destruct (optimizeImage _ _ _ _) as [[[]|e3|] st3]; cbn [snd] in *.
    + pose proof (updateHTMLReferences_named (str "avatar.webp")
                    AVATAR_DEST_DIR sharp_metadata st3) as H4.
      destruct (updateHTMLReferences _ _ _) as [[[]|e4|] st4];
        cbn [snd] in *.
      * do 2 (etransitivity; [|by apply record_named]).
        etransitivity; [exact H2|]. by etransitivity.
      * do 3 (etransitivity; [|by apply record_named]).
        etransitivity; [exact H2|]. by etransitivity.
      * etransitivity; [exact H2|]. by etransitivity.
    + do 3 (etransitivity; [|by apply record_named]).
      by etransitivity.
    + by etransitivity.
  - by apply fetches_named.
  - do 3 (etransitivity; [|by apply record_named]).
    by apply fetches_named.
  - by apply fetches_named.
Qed.

(** The state after [optimizeImage], when [imagemin] and the sized
    encodings deliver. *)
Lemma optimized_state imageData st1 optimized :
  downloadAvatar https_get fuel st0 = (Val (Returned imageData), st1) →
  imagemin_buffer imageData (plugins imageData) = Ok optimized →
  first_error
    (sharp_toBuffer (master imageData optimized)
     <$> (sizes ≫= sized_pipelines)) = None →
  let st2 :=
    record (Console (Downloaded (length imageData)))
      (with_fs <[AVATAR_DEST st1 := imageData]>
         (record (WriteFile (AVATAR_DEST st1) imageData) st1)) in
  let r :=
    optimizeImage imagemin_buffer sharp_toBuffer (AVATAR_DEST st1) st2 in
  r.1 = Val tt
  ∧ AVATAR_FILENAME r.2 = master_name imageData
  ∧ AVATAR_DEST r.2 = path_join AVATAR_DEST_DIR (master_name imageData)
  ∧ AVATAR_WEBP_FILENAME r.2 = str "avatar.webp"
  ∧ fs r.2 !! path_join AVATAR_DEST_DIR (master_name imageData)
    = Some (master imageData optimized)
  ∧ fs r.2 !! HTML_FILE AVATAR_DEST_DIR = files !! HTML_FILE AVATAR_DEST_DIR
  ∧ ∀ size, size ∈ sizes →
      is_Some (fs r.2 !! jpgPath base size)
      ∧ is_Some (fs r.2 !! webpResPath base size).
Proof.
  intros Hdl Himagemin Hsized. cbv zeta.
  destruct (downloaded imageData st1 Hdl)
    as (Hdest1 & Hfile & Hothers & Hname2 & Hdest2 & H2).
  set (st2 := record _ _) in *. rewrite Hdest1.
  assert (str "png" ∈ image_extensions) as Hpng
    by (apply (bool_decide_unpack _); by vm_compute).
  assert (AVATAR_WEBP_FILENAME st2 ≠ []) as Hset.
  { destruct H2 as [[-> | ->] _]; done. }
  pose proof (optimizeImage_outcome imagemin_buffer sharp_toBuffer base
                (str "png") imageData st2 Hpng Hfile) as Hout.
  rewrite Himagemin, Hsized in Hout.
  pose proof (optimizeImage_master imagemin_buffer sharp_toBuffer base
                (str "png") imageData st2 Hpng Hfile optimized Hdest2
                Himagemin) as [Hdest3 Hmaster].
  pose proof (optimizeImage_named imagemin_buffer sharp_toBuffer base
                (str "png") imageData st2 Hpng Hfile Hset) as [Hwebp _].
  rewrite webp_path in Hwebp.
  pose proof (optimizeImage_others imagemin_buffer sharp_toBuffer base
                (str "png") imageData st2 Hpng Hfile
                (HTML_FILE AVATAR_DEST_DIR) page_off_base) as Hpage.
  pose proof (optimizeImage_names imagemin_buffer sharp_toBuffer
                AVATAR_DEST_DIR (str "avatar") (str "png") imageData st2
                Hpng) as Hnames.
  rewrite Hname2, Hdest2 in Hnames.
  destruct Hnames as (Hname3 & _ & _).
  { apply (bool_decide_unpack _). by vm_compute. }
  { done. }
  { symmetry. apply initial_dest. }
  { done. }
  assert (path_join AVATAR_DEST_DIR (master_name imageData)
          = base ++ (detect imageData).2) as Hjoin.
  { unfold path_join, master_name. by rewrite <- !app_assoc. }
  rewrite Hjoin. split; [done|]. split; [done|]. split; [done|].
  split.
  { destruct Hwebp as [-> | ->]; [|done].
    by destruct H2 as [[-> | ->] _]. }
  split; [done|]. split.
  { rewrite Hpage. apply Hothers, page_off_base. }
  destruct (optimizeImage_shape imagemin_buffer sharp_toBuffer base
              (str "png") imageData st2 Hpng Hfile)
    as (x & st3 & Hx & Hext & Hst3 & ->).
  rewrite Himagemin.
  assert (x ∈ image_extensions) as Hx'
    by (by apply QualitySearch.detected_image).
  intros size Hsize.
  destruct (Sized.createWebP_files sharp_toBuffer base x
              (master imageData optimized) (length imageData)
              (kept (base ++ 46 :: x) imageData optimized st3) Hx')
    with (size := size) as (j & w & _ & _ & -> & ->); [|done|done|done].
  unfold kept, master. destruct (_ <? _)%nat; cbn [fs record with_fs].
  - apply lookup_insert_eq.
  - rewrite Hst3. cbn [fs record]. by apply moved_file.
Qed.
End Script.

(** X10: a run that succeeds, end to end.  From the state the module
    starts in, when the download delivers, [imagemin] delivers, no sized
    encoding fails, the page is there and [sharp] measures the stored
    master, [main] fulfils, and the last lines printed are the ready line
    and the note that follows it; the master is stored under [avatar] with
    the detected extension and holds the shorter of the optimized and the
    downloaded bytes, and the page holds the encoding of the rewriting of
    its text with the local path, [/avatar.webp], the absolute URL and the
    measured dimensions. *)
Theorem main_stores_master_and_rewrites_page
    (AVATAR_DEST_DIR : list N) (https_get : option (list N) → response)
    (imagemin_buffer : list N → list plugin → result (list N))
    (sharp_toBuffer : list N → pipeline → result (list N))
    (sharp_metadata : list N → result (N * N)) (fuel : nat)
    (files : gmap (list N) (list N))
    (imageData optimized html : list N) (width height : N) :
  (downloadAvatar https_get fuel (initial AVATAR_DEST_DIR files)).1
  = Val (Returned imageData) →
  imagemin_buffer imageData (plugins imageData) = Ok optimized →
  first_error
    (sharp_toBuffer (master imageData optimized)
     <$> (sizes ≫= sized_pipelines)) = None →
  files !! HTML_FILE AVATAR_DEST_DIR = Some html →
  sharp_metadata (master imageData optimized) = Ok (width, height) →
  let r :=
    main AVATAR_DEST_DIR https_get imagemin_buffer sharp_toBuffer
      sharp_metadata fuel (initial AVATAR_DEST_DIR files) in
  let avatarPath := str "/" ++ master_name imageData in
  r.1 = Val (Returned tt)
  ∧ [Console AvatarReady; Console NotPreCompressed] `suffix_of` trace r.2
  ∧ fs r.2 !! path_join AVATAR_DEST_DIR (master_name imageData)
    = Some (master imageData optimized)
  ∧ fs r.2 !! HTML_FILE AVATAR_DEST_DIR
    = Some (utf8_encode
              (rewriteReferences avatarPath (Some (str "/avatar.webp"))
                 (str "https://bmarwell.de" ++ avatarPath) width height
                 (utf8_decode html))).
Proof.
  intros Hdl Himagemin Hsized Hhtml Hmeta. cbv zeta.
  rewrite Fallback.avatar_main_run. cbv zeta.
  destruct (downloadAvatar https_get fuel (initial AVATAR_DEST_DIR files))
    as [o st1] eqn:Hrun.
  cbn [fst] in Hdl. subst o.
  destruct (optimized_state AVATAR_DEST_DIR https_get imagemin_buffer
              sharp_toBuffer fuel files imageData st1 optimized Hrun
              Himagemin Hsized)
    as (Hret & Hname & Hdest & Hwebp & Hmaster & Hpage & _).
  destruct (optimizeImage _ _ _ _) as [o st3]. cbn [fst snd] in *. subst o.
  rewrite (Rewriter.updateHTMLReferences_run _ _ _ html
             (master imageData optimized) width height);
    [|congruence|congruence|done].
  cbv zeta. cbn [fst snd trace fs record with_fs].
  split; [done|]. split.
  { rewrite <- app_assoc. by eexists. }
  split.
  - rewrite lookup_insert_ne; [done|].
    unfold HTML_FILE, path_join, master_name.
    intros H%(inj (app AVATAR_DEST_DIR)). revert H.
    destruct (Optimizer.detect_extension imageData) as (x & -> & _).
    by intros [=].
  - rewrite lookup_insert_eq, Hname, Hwebp. done.
Qed.

Lemma main_stores_master_and_rewrites_page_witness :
  let r :=
    main Sample.dist Sample.serving Sample.imagemin Sample.sharp
      Sample.metadata 5
      (initial Sample.dist {[ HTML_FILE Sample.dist := Sample.page ]}) in
  let avatarPath := str "/" ++ master_name Sample.png in
  r.1 = Val (Returned tt)
  ∧ [Console AvatarReady; Console NotPreCompressed] `suffix_of` trace r.2
  ∧ fs r.2 !! path_join Sample.dist (master_name Sample.png)
    = Some (master Sample.png [0x4E; 0x47; 0x0D; 0x0A])
  ∧ fs r.2 !! HTML_FILE Sample.dist
    = Some (utf8_encode
              (rewriteReferences avatarPath (Some (str "/avatar.webp"))
                 (str "https://bmarwell.de" ++ avatarPath) 460 460
                 (utf8_decode Sample.page))).
Proof.
  apply (main_stores_master_and_rewrites_page Sample.dist Sample.serving
           Sample.imagemin Sample.sharp Sample.metadata 5
           {[ HTML_FILE Sample.dist := Sample.page ]} Sample.png
           [0x4E; 0x47; 0x0D; 0x0A] Sample.page 460 460).
  - by vm_compute.
  - reflexivity.
  - reflexivity.
  - by vm_compute.
  - reflexivity.
Defined.

(** X11: the file names in the two [srcset] texts, written out in
    [updateHTMLReferences], are the names the loop over the sizes in
    [createWebP] computes.  Both texts list the candidates
    [/avatar-<size>w.<format> <size>w] of the sizes 150, 300 and 460; and
    after a run in which the download, [imagemin] and the sized encodings
    succeed, the file of each candidate is in the build directory, and so
    is the file the [src] attribute names. *)
Theorem rewritten_srcsets_name_written_variants
    (AVATAR_DEST_DIR : list N) (https_get : option (list N) → response)
    (imagemin_buffer : list N → list plugin → result (list N))
    (sharp_toBuffer : list N → pipeline → result (list N))
    (sharp_metadata : list N → result (N * N)) (fuel : nat)
    (files : gmap (list N) (list N)) (imageData optimized : list N) :
  (downloadAvatar https_get fuel (initial AVATAR_DEST_DIR files)).1
  = Val (Returned imageData) →
  imagemin_buffer imageData (plugins imageData) = Ok optimized →
  first_error
    (sharp_toBuffer (master imageData optimized)
     <$> (sizes ≫= sized_pipelines)) = None →
  let st' :=
    (main AVATAR_DEST_DIR https_get imagemin_buffer sharp_toBuffer
       sharp_metadata fuel (initial AVATAR_DEST_DIR files)).2 in
  new_srcset = str "srcset=" ++ dq (srcset_value "webp") ++ sizes_attr
  ∧ (∀ avatarPath,
       new_src avatarPath
       = str "srcset=" ++ dq (srcset_value "jpg") ++ sizes_attr
         ++ str " src=" ++ dq avatarPath)
  ∧ (∀ size, size ∈ sizes →
       is_Some (fs st' !! (AVATAR_DEST_DIR ++ candidate "webp" size))
       ∧ is_Some (fs st' !! (AVATAR_DEST_DIR ++ candidate "jpg" size)))
  ∧ is_Some (fs st' !! (AVATAR_DEST_DIR ++ str "/" ++ AVATAR_FILENAME st')).
Proof.
  intros Hdl Himagemin Hsized. cbv zeta.
  split; [done|]. split; [done|].
  rewrite Fallback.avatar_main_run. cbv zeta.
  destruct (downloadAvatar https_get fuel (initial AVATAR_DEST_DIR files))
    as [o st1] eqn:Hrun.
  cbn [fst] in Hdl. subst o.
  destruct (optimized_state AVATAR_DEST_DIR https_get imagemin_buffer
              sharp_toBuffer fuel files imageData st1 optimized Hrun
              Himagemin Hsized)
    as (Hret & Hname & Hdest & _ & Hmaster & _ & Hvariants).
  destruct (optimizeImage _ _ _ _) as [o st3]. cbn [fst snd] in *. subst o.
  destruct (Rewrites.updateHTMLReferences_writes_page_or_nothing
              AVATAR_DEST_DIR sharp_metadata st3)
    as (Hothers & Hname4 & _ & _ & _ & _).
  assert (HTML_FILE AVATAR_DEST_DIR
          ≠ AVATAR_DEST_DIR ++ str "/" ++ master_name imageData) as Hoff.
  { unfold HTML_FILE, path_join, master_name.
    intros H%(inj (app AVATAR_DEST_DIR)). revert H.
    destruct (Optimizer.detect_extension imageData) as (x & -> & _).
    by intros [=]. }
  assert (∀ format size,
            HTML_FILE AVATAR_DEST_DIR
            ≠ AVATAR_DEST_DIR ++ candidate format size) as Hoff'.
  { intros format size. unfold HTML_FILE, path_join.
    by intros ?%(inj (app AVATAR_DEST_DIR)). }
  destruct (updateHTMLReferences _ _ _) as [[[]|e|] st4];
    cbn [fst snd fs record AVATAR_FILENAME] in *;
    (split;
     [intros size Hsize; destruct (Hvariants size Hsize) as [Hjpg Hwebp];
      rewrite !Hothers by done;
      unfold webpResPath in Hwebp; unfold jpgPath in Hjpg;
      rewrite <- app_assoc in Hwebp; rewrite <- app_assoc in Hjpg; done
     |rewrite Hname4, Hname, Hothers by done;
      unfold path_join in Hmaster; by rewrite Hmaster]).
Qed.

Lemma rewritten_srcsets_name_written_variants_witness :
  let st' :=
    (main Sample.dist Sample.serving Sample.imagemin Sample.sharp
       Sample.metadata 5
       (initial Sample.dist {[ HTML_FILE Sample.dist := Sample.page ]})).2 in
  new_srcset = str "srcset=" ++ dq (srcset_value "webp") ++ sizes_attr
  ∧ (∀ avatarPath,
       new_src avatarPath
       = str "srcset=" ++ dq (srcset_value "jpg") ++ sizes_attr
         ++ str " src=" ++ dq avatarPath)
  ∧ (∀ size, size ∈ sizes →
       is_Some (fs st' !! (Sample.dist ++ candidate "webp" size))
       ∧ is_Some (fs st' !! (Sample.dist ++ candidate "jpg" size)))
  ∧ is_Some (fs st' !! (Sample.dist ++ str "/" ++ AVATAR_FILENAME st')).
Proof.
  apply (rewritten_srcsets_name_written_variants Sample.dist Sample.serving
           Sample.imagemin Sample.sharp Sample.metadata 5
           {[ HTML_FILE Sample.dist := Sample.page ]} Sample.png
           [0x4E; 0x47; 0x0D; 0x0A]).
  - by vm_compute.
  - reflexivity.
  - reflexivity.
Defined.

(** X12: [AVATAR_WEBP_FILENAME] starts as [avatar.webp] and is only
    ever assigned the base name of the WebP path.  So whatever the network,
    [imagemin] and [sharp] do, after a run from the state the module starts
    in it is [avatar.webp], and the warning that no WebP file smaller than
    the original could be created is never printed: its guard is never
    true. *)
Theorem webp_warning_is_never_printed
    (AVATAR_DEST_DIR : list N) (https_get : option (list N) → response)
    (imagemin_buffer : list N → list plugin → result (list N))
    (sharp_toBuffer : list N → pipeline → result (list N))
    (sharp_metadata : list N → result (N * N)) (fuel : nat)
    (files : gmap (list N) (list N)) :
  let st' :=
    (main AVATAR_DEST_DIR https_get imagemin_buffer sharp_toBuffer
       sharp_metadata fuel (initial AVATAR_DEST_DIR files)).2 in
  AVATAR_WEBP_FILENAME st' = str "avatar.webp"
  ∧ ∀ originalSize, Console (WebPNotSmaller originalSize) ∉ trace st'.
Proof.
  cbv zeta.
  destruct (main_named AVATAR_DEST_DIR https_get imagemin_buffer
              sharp_toBuffer sharp_metadata fuel files)
    as (Hname & t & Ht & Hquiet).
  split; [by destruct Hname|].
  intros originalSize Hin. rewrite Ht in Hin. cbn [trace initial app] in Hin.
  rewrite Forall_forall in Hquiet. by apply Hquiet in Hin.
Qed.

(** X13: a run from the state the module starts in that ends on the
    failure line and the two lines on the fallback has left the page as it
    was; whichever stage failed, the page keeps the references it had. *)
Theorem failed_run_keeps_page
    (AVATAR_DEST_DIR : list N) (https_get : option (list N) → response)
    (imagemin_buffer : list N → list plugin → result (list N))
    (sharp_toBuffer : list N → pipeline → result (list N))
    (sharp_metadata : list N → result (N * N)) (fuel : nat)
    (files : gmap (list N) (list N)) (e : list N) :
  let st' :=
    (main AVATAR_DEST_DIR https_get imagemin_buffer sharp_toBuffer
       sharp_metadata fuel (initial AVATAR_DEST_DIR files)).2 in
  [Console (FailedToDownload e); Console KeepingExternalURL;
   Console SiteStillWorks] `suffix_of` trace st' →
  fs st' !! HTML_FILE AVATAR_DEST_DIR = files !! HTML_FILE AVATAR_DEST_DIR.
Proof.
  cbv zeta. rewrite Fallback.avatar_main_run. cbv zeta.
  assert (∀ t : list event,
            [Console (FailedToDownload e); Console KeepingExternalURL;
             Console SiteStillWorks] `suffix_of` t →
            last t = Some (Console SiteStillWorks)) as Hlast.
  { intros t [k ->].
    change [Console (FailedToDownload e); Console KeepingExternalURL;
            Console SiteStillWorks]
      with ([Console (FailedToDownload e); Console KeepingExternalURL]
            ++ [Console SiteStillWorks]).
    by rewrite app_assoc, last_snoc. }
  destruct (downloadAvatar https_get fuel (initial AVATAR_DEST_DIR files))
    as [[[imageData|code]|e'|] st1] eqn:Hdl.
  - destruct (downloaded AVATAR_DEST_DIR https_get fuel files imageData st1
                Hdl) as (-> & Hfile & Hothers & _ & _ & _).
    set (st2 := record _ _) in *.
    pose proof (optimizeImage_others imagemin_buffer sharp_toBuffer
                  (AVATAR_DEST_DIR ++ str "/avatar") (str "png") imageData
                  st2 ltac:(apply (bool_decide_unpack _); by vm_compute)
                  Hfile (HTML_FILE AVATAR_DEST_DIR)
                  (page_off_base AVATAR_DEST_DIR)) as Hpage.
    pose proof (Settled.optimizeImage_settles imagemin_buffer sharp_toBuffer
                  ((AVATAR_DEST_DIR ++ str "/avatar") ++ 46 :: str "png")
                  st2) as H3.
    destruct (optimizeImage _ _ _ _) as [[[]|e3|] st3]; cbn [snd] in *.
    + pose proof (Rewrites.updateHTMLReferences_writes_page_or_nothing
                    AVATAR_DEST_DIR sharp_metadata st3)
        as (_ & _ & _ & _ & _ & Hkeep).
      pose proof (Settled.updateHTMLReferences_settles AVATAR_DEST_DIR
                    sharp_metadata st3) as H4.
      destruct (updateHTMLReferences _ _ _) as [[[]|e4|] st4];
        cbn [fst snd trace fs record] in *.
      * intros Hend%Hlast. rewrite last_snoc in Hend. by injection Hend.
      * intros _. rewrite Hkeep by done. rewrite Hpage.
        apply Hothers, page_off_base.
      * done.
    + cbn [fs record]. intros _. rewrite Hpage.
      apply Hothers, page_off_base.
    + done.
  - intros _. cbn [snd fs record].
    destruct (Pipeline.download_only_requests https_get fuel false
                (Some AVATAR_URL) (initial AVATAR_DEST_DIR files))
      as (Hfs & _).
    fold (downloadAvatar https_get fuel) in Hfs. rewrite Hdl in Hfs.
    cbn [snd] in Hfs. by rewrite Hfs.
  - intros _. cbn [snd fs record].
    destruct (Pipeline.download_only_requests https_get fuel false
                (Some AVATAR_URL) (initial AVATAR_DEST_DIR files))
      as (Hfs & _).
    fold (downloadAvatar https_get fuel) in Hfs. rewrite Hdl in Hfs.
    cbn [snd] in Hfs. by rewrite Hfs.
  - cbn [snd]. intros _.
    destruct (Pipeline.download_only_requests https_get fuel false
                (Some AVATAR_URL) (initial AVATAR_DEST_DIR files))
      as (Hfs & _).
    fold (downloadAvatar https_get fuel) in Hfs. rewrite Hdl in Hfs.
    cbn [snd] in Hfs. by rewrite Hfs.
Qed.

Lemma failed_run_keeps_page_witness :
  let st' :=
    (main Sample.dist Sample.serving Sample.imagemin Cases.flaky
       Sample.metadata 5
       (initial Sample.dist {[ HTML_FILE Sample.dist := Sample.page ]})).2 in
  fs st' !! HTML_FILE Sample.dist
  = ({[ HTML_FILE Sample.dist := Sample.page ]} : gmap (list N) (list N))
    !! HTML_FILE Sample.dist.
Proof.
  apply (failed_run_keeps_page Sample.dist Sample.serving Sample.imagemin
           Cases.flaky Sample.metadata 5
           {[ HTML_FILE Sample.dist := Sample.page ]}
           (str "out of memory")).
  match goal with
  | |- _ `suffix_of` ?t => exists (take (length t - 3) t)
  end.
  by vm_compute.
Defined.
End Runs.

(** ** The compression stage as an operation on the build directory *)

Module StageAlgebra.
Import JS Compress Turns Artifacts CompressionStage.

(** No source file of any list is an artifact of any algorithm. *)
Lemma sources_not_artifacts a b f g :
  f ∈ FILES_TO_COMPRESS a → g ∈ FILES_TO_COMPRESS b →
  path_join DIST_DIR f ≠ artifact b g.
Proof.
  intros Hf Hg. revert f Hf. apply Forall_forall.
  revert g Hg. apply Forall_forall.
  destruct a, b; apply (bool_decide_unpack _); by vm_compute.
Qed.

(** The artifacts of two algorithms are different files. *)
Lemma artifacts_apart a b f g :
  a ≠ b → f ∈ FILES_TO_COMPRESS a → g ∈ FILES_TO_COMPRESS b →
  artifact a f ≠ artifact b g.
Proof.
  intros Hab Hf Hg. revert f Hf. apply Forall_forall.
  revert g Hg. apply Forall_forall.
  destruct a, b; try done; apply (bool_decide_unpack _); by vm_compute.
Qed.

Section Stage.
Variable env : algorithm → option (list N).
Variable parseInt : list N → N.
Variable compress : call → list N → result (list N).

Local Abbreviation main := (main env parseInt compress).
Local Abbreviation after :=
  (λ a, artifact_after compress (library_call env parseInt a) a).

Lemma main_artifact a file st :
  file ∈ FILES_TO_COMPRESS a →
  fs (main a st).2 !! artifact a file = after a file (fs st).
Proof.
  intros Hfile.
  pose proof (main_each env parseInt compress a st file Hfile) as Hdone.
  unfold done_with, artifact_after, artifact in *. cbv zeta in Hdone.
  destruct (fs st !! path_join DIST_DIR file) as [content|].
  - destruct (compress _ content); [done | by destruct Hdone].
  - by destruct Hdone.
Qed.

Lemma main_other a p st :
  p ∉ artifacts a → fs (main a st).2 !! p = fs st !! p.
Proof.
  intros Hp. rewrite main_run. cbn [snd fs record].
  rewrite for_files_other; [done|].
  intros file Hfile ->. apply Hp.
  exact (list_elem_of_fmap_2 (artifact a) _ file Hfile).
Qed.

Lemma main_source a b file st :
  file ∈ FILES_TO_COMPRESS a →
  fs (main b st).2 !! path_join DIST_DIR file
  = fs st !! path_join DIST_DIR file.
Proof.
  intros Hfile. apply main_other.
  intros (g & Heq & Hg)%list_elem_of_fmap.
  by apply (sources_not_artifacts a b file g).
Qed.

Lemma after_unchanged a file m m' :
  m' !! path_join DIST_DIR file = m !! path_join DIST_DIR file →
  m' !! artifact a file = m !! artifact a file →
  after a file m' = after a file m.
Proof. unfold artifact_after. by intros -> ->. Qed.
End Stage.

(** X14: the compression stage of an algorithm changes no path but
    the artifacts of that algorithm, the paths of its source files with
    its suffix; it leaves its own source files as they are, and it removes
    no file. *)
Theorem stage_touches_its_artifacts_only
    (env : algorithm → option (list N)) (parseInt : list N → N)
    (compress : call → list N → result (list N))
    (a : algorithm) (st : state) :
  let st' := (main env parseInt compress a st).2 in
  (∀ p, p ∉ artifacts a → fs st' !! p = fs st !! p)
  ∧ (∀ file, file ∈ FILES_TO_COMPRESS a →
       fs st' !! path_join DIST_DIR file
       = fs st !! path_join DIST_DIR file)
  ∧ (∀ p, is_Some (fs st !! p) → is_Some (fs st' !! p)).
Proof.
  cbv zeta. split; [|split].
  - intros p Hp. by apply main_other.
  - intros file Hfile. by apply (main_source _ _ _ a).
  - intros p Hsome.
    destruct (decide (p ∈ artifacts a)) as [Hp|Hp];
      [|by rewrite main_other].
    apply list_elem_of_fmap in Hp as (file & -> & Hfile).
    rewrite main_artifact by done. unfold artifact_after.
    destruct (fs st !! path_join DIST_DIR file) as [content|]; [|done].
    by destruct (compress _ content).
Qed.

(** X15: the compression stage is idempotent on the build directory:
    a second run of the stage of an algorithm leaves the files as the first
    run left them. *)
Theorem stage_twice_is_stage_once
    (env : algorithm → option (list N)) (parseInt : list N → N)
    (compress : call → list N → result (list N))
    (a : algorithm) (st : state) :
  let once := (main env parseInt compress a st).2 in
  fs (main env parseInt compress a once).2 = fs once.
Proof.
  cbv zeta. apply map_eq. intros p.
  destruct (decide (p ∈ artifacts a)) as [Hp|Hp];
    [|by rewrite main_other].
  apply list_elem_of_fmap in Hp as (file & -> & Hfile).
  rewrite !main_artifact by done. unfold artifact_after at 1.
  rewrite (main_source _ _ _ a) by done.
  rewrite main_artifact by done. unfold artifact_after.
  destruct (fs st !! path_join DIST_DIR file) as [content|]; [|done].
  by destruct (compress _ content).
Qed.

(** X16: the stages of two algorithms do not depend on each other:
    run in either order, they leave the same files. *)
Theorem stages_commute
    (env : algorithm → option (list N)) (parseInt : list N → N)
    (compress : call → list N → result (list N))
    (a b : algorithm) (st : state) :
  fs (main env parseInt compress b (main env parseInt compress a st).2).2
  = fs (main env parseInt compress a (main env parseInt compress b st).2).2.
Proof.
  assert (a = b ∨ a ≠ b) as [->|Hab]
    by (destruct a, b; (by left) || (by right)); [done|].
  apply map_eq. intros p.
  destruct (decide (p ∈ artifacts a)) as [Ha|Ha].
  - apply list_elem_of_fmap in Ha as (file & -> & Hfile).
    rewrite (main_other _ _ _ b); last first.
    { intros (g & Heq & Hg)%list_elem_of_fmap.
      by apply (artifacts_apart a b file g). }
    rewrite !main_artifact by done.
    symmetry. apply after_unchanged.
    + by apply (main_source _ _ _ a).
    + apply main_other. intros (g & Heq & Hg)%list_elem_of_fmap.
      by apply (artifacts_apart a b file g).
  - rewrite (main_other _ _ _ a _ _ Ha).
    destruct (decide (p ∈ artifacts b)) as [Hb|Hb].
    + apply list_elem_of_fmap in Hb as (file & -> & Hfile).
      rewrite !main_artifact by done.
      apply after_unchanged.
      * by apply (main_source _ _ _ b).
      * by apply main_other.
    + by rewrite !main_other.
Qed.

Lemma for_files_call env parseInt env' parseInt' compress a files st :
  library_call env parseInt a = library_call env' parseInt' a →
  for_files env parseInt compress a files st
  = for_files env' parseInt' compress a files st.
Proof.
  intros Hcall. revert st.
  induction files as [|file rest IH]; intros st; [done|].
  by rewrite !for_files_cons, Hcall, IH.
Qed.

(** X17: the level variable is tested for truth before it is parsed.
    With the variable unset or set to the empty string the level is the
    default of the algorithm (11, 9, 22), and the stage runs as it runs with
    no environment at all, whatever [parseInt] would answer. *)
Theorem unset_or_empty_level_means_default
    (env : algorithm → option (list N)) (parseInt parseInt' : list N → N)
    (compress : call → list N → result (list N))
    (a : algorithm) (st : state) :
  env a = None ∨ env a = Some [] →
  COMPRESSION_LEVEL env parseInt a = default_level a
  ∧ main env parseInt compress a st
    = main (λ _, None) parseInt' compress a st.
Proof.
  intros Henv.
  assert (COMPRESSION_LEVEL env parseInt a = default_level a) as Hlevel
    by (unfold COMPRESSION_LEVEL; by destruct Henv as [-> | ->]).
  split; [done|]. rewrite !main_run. rewrite Hlevel.
  change (COMPRESSION_LEVEL (λ _, None) parseInt' a) with (default_level a).
  f_equal. f_equal. f_equal. apply for_files_call.
  unfold library_call. destruct a; by rewrite Hlevel.
Qed.

Lemma unset_or_empty_level_means_default_witness :
  COMPRESSION_LEVEL (λ _, Some []) SampleCodec.parseInt Gzip
  = default_level Gzip
  ∧ main (λ _, Some []) SampleCodec.parseInt SampleCodec.store Gzip
      (SampleCodec.dist (str "<html>"))
    = main (λ _, None) SampleCodec.parseInt SampleCodec.store Gzip
        (SampleCodec.dist (str "<html>")).
Proof.
  apply (unset_or_empty_level_means_default (λ _, Some [])
           SampleCodec.parseInt SampleCodec.parseInt SampleCodec.store Gzip
           (SampleCodec.dist (str "<html>"))).
  by right.
Defined.
End StageAlgebra.

(** ** [copy-fonts.js] *)

Module FontCopy.
Import JS Build Fonts Copies.

Lemma copied_snoc t e :
  copied (t ++ [e])
  = copied t ++ match e with
                | CopyFile src dest => [(src, dest)]
                | _ => []
                end.
Proof. unfold copied. rewrite omap_app. f_equal. by destruct e. Qed.

Lemma path_join_inj dir f g : path_join dir f = path_join dir g → f = g.
Proof. unfold path_join. by intros ?%app_inv_head%app_inv_head. Qed.

Section Script.
Variables FONT_SOURCE FONT_DEST : list N.

Local Abbreviation src := (path_join FONT_SOURCE).
Local Abbreviation dest := (path_join FONT_DEST).

(** One turn of the loop. *)
Lemma for_fonts_cons font rest st :
  for_fonts FONT_SOURCE FONT_DEST (font :: rest) st
  = match fs st !! src font with
    | Some content =>
        for_fonts FONT_SOURCE FONT_DEST rest
          (font_copied (src font) (dest font) font content st)
    | None =>
        (Val (Exited 1), record (Console (FontFailed font ENOENT)) st)
    end.
Proof.
  cbn [for_fonts].
  unfold and_then, copyFile, stat_size, readFile, console, emit, modify,
    get, process_exit, ret, throw.
  unfold bind, try_catch. cbv beta iota. cbn [fs record with_fs].
  destruct (fs st !! src font) as [content|]; [|done].
  cbv beta iota. cbn [fs record with_fs]. rewrite lookup_insert_eq. done.
Qed.

(** The loop copies the fonts up to the first missing one, and ends the
    process there. *)
Lemma for_fonts_run fonts st :
  (∀ f g, f ∈ fonts → g ∈ fonts → src f ≠ dest g) →
  let r := for_fonts FONT_SOURCE FONT_DEST fonts st in
  let done := leading (fs st) FONT_SOURCE fonts in
  r.1 = Val (if bool_decide (done = fonts) then Returned tt else Exited 1)
  ∧ (∀ font, font ∈ done → fs r.2 !! dest font = fs st !! src font)
  ∧ (∀ p, p ∉ dest <$> done → fs r.2 !! p = fs st !! p)
  ∧ copied (trace r.2)
    = copied (trace st) ++ ((λ font, (src font, dest font)) <$> done).
Proof.
  revert st. induction fonts as [|font rest IH]; intros st Hapart; cbv zeta.
  { cbn [for_fonts leading fmap list_fmap]. rewrite app_nil_r.
    split; [done|]. split; [by intros font ?%elem_of_nil|]. done. }
  rewrite for_fonts_cons. cbn [leading].
  destruct (fs st !! src font) as [content|] eqn:Hfont; last first.
  { cbn [fst snd fs record trace fmap list_fmap].
    rewrite copied_snoc, !app_nil_r.
    split; [done|]. split; [by intros f ?%elem_of_nil|]. done. }
  set (st1 := font_copied (src font) (dest font) font content st).
  assert (∀ f, f ∈ font :: rest → fs st1 !! src f = fs st !! src f)
    as Hsources.
  { intros f Hf. unfold st1, font_copied. cbn [fs record with_fs].
    apply lookup_insert_ne. intros Heq. apply (Hapart f font); [done|left|].
    done. }
  assert (leading (fs st1) FONT_SOURCE rest = leading (fs st) FONT_SOURCE rest)
    as Hleading.
  { assert (∀ f, f ∈ rest → fs st1 !! src f = fs st !! src f) as Hrest
      by (intros f Hf; apply Hsources; by right).
    clear -Hrest. induction rest as [|f rest IH]; [done|]. cbn [leading].
    rewrite Hrest by left. rewrite IH; [done|].
    intros g Hg. apply Hrest. by right. }
  destruct (IH st1) as (Hout & Hdone & Hothers & Hcopied).
  { intros f g Hf Hg. apply Hapart; by right. }
  rewrite Hleading in Hout, Hdone, Hothers, Hcopied.
  set (done := leading (fs st) FONT_SOURCE rest) in *.
  assert (done ⊆ rest) as Hsub.
  { unfold done. clear. induction rest as [|f rest IH]; [done|].
    cbn [leading]. destruct (fs st !! src f).
    - intros x [->|Hx]%elem_of_cons; [left | right; by apply IH].
    - by intros x ?%elem_of_nil. }
  split; [|split; [|split]].
  - rewrite Hout. repeat case_bool_decide; congruence.
  - intros f [->|Hf]%elem_of_cons.
    + destruct (decide (font ∈ done)) as [Hin|Hin].
      * rewrite Hdone by done. apply Hsources. left.
      * rewrite Hothers.
        -- unfold st1, font_copied. cbn [fs record with_fs].
           by rewrite lookup_insert_eq.
        -- intros (g & Heq & Hg)%list_elem_of_fmap.
           apply path_join_inj in Heq. by subst.
    + rewrite Hdone by done. apply Hsources. right. by apply Hsub.
  - intros p Hp. rewrite fmap_cons, not_elem_of_cons in Hp.
    destruct Hp as [Hp1 Hp2]. rewrite Hothers by done.
    unfold st1, font_copied. cbn [fs record with_fs].
    by rewrite lookup_insert_ne.
  - rewrite Hcopied. unfold st1, font_copied. cbn [trace record with_fs].
    rewrite !copied_snoc, app_nil_r, <- app_assoc. done.
Qed.

(** The loop never throws: its [catch] turns every failure into an exit. *)
Lemma for_fonts_completes fonts st :
  ∃ c, (for_fonts FONT_SOURCE FONT_DEST fonts st).1 = Val c.
Proof.
  revert st. induction fonts as [|font rest IH]; intros st; [by eexists|].
  rewrite for_fonts_cons. destruct (fs st !! src font); [apply IH|].
  by eexists.
Qed.

Lemma fonts_script_run st :
  script FONT_SOURCE FONT_DEST st
  = for_fonts FONT_SOURCE FONT_DEST FONTS_TO_COPY
      (record (Mkdir FONT_DEST) st).
Proof.
  unfold script, copyFonts, mkdir, emit, modify, try_catch.
  unfold bind at 1. cbv beta iota.
  destruct (for_fonts_completes FONTS_TO_COPY (record (Mkdir FONT_DEST) st))
    as [c Hc].
  destruct (for_fonts _ _ _ _) as [o st']. simpl in Hc. by subst o.
Qed.
End Script.

(** X18: with every font of the list in the package directory,
    [copy-fonts.js] returns without ending the process, each font of the
    list is in the font directory of the build with the bytes of the
    package, and no other path has changed. *)
Theorem fonts_are_copied_when_all_are_there
    (FONT_SOURCE FONT_DEST : list N) (st : state) :
  (∀ f g, f ∈ FONTS_TO_COPY → g ∈ FONTS_TO_COPY →
          path_join FONT_SOURCE f ≠ path_join FONT_DEST g) →
  (∀ font, font ∈ FONTS_TO_COPY →
           is_Some (fs st !! path_join FONT_SOURCE font)) →
  let r := script FONT_SOURCE FONT_DEST st in
  r.1 = Val (Returned tt)
  ∧ (∀ font, font ∈ FONTS_TO_COPY →
       fs r.2 !! path_join FONT_DEST font
       = fs st !! path_join FONT_SOURCE font)
  ∧ (∀ p, p ∉ path_join FONT_DEST <$> FONTS_TO_COPY →
       fs r.2 !! p = fs st !! p).
Proof.
  intros Hapart Hpresent. cbv zeta. rewrite fonts_script_run.
  destruct (for_fonts_run FONT_SOURCE FONT_DEST FONTS_TO_COPY
              (record (Mkdir FONT_DEST) st) Hapart)
    as (Hout & Hdone & Hothers & _).
  cbn [fs record] in *.
  assert (leading (fs st) FONT_SOURCE FONTS_TO_COPY = FONTS_TO_COPY) as Hall.
  { revert Hpresent. generalize FONTS_TO_COPY. intros fonts Hpresent.
    induction fonts as [|font rest IH]; [done|]. cbn [leading].
    destruct (Hpresent font) as [content ->]; [left|].
    rewrite IH; [done|]. intros f Hf. apply Hpresent. by right. }
  rewrite Hall in *. rewrite bool_decide_eq_true_2 in Hout by done.
  done.
Qed.

(** No font of the package is a copy in the build directory. *)
Lemma sample_fonts_apart f g :
  f ∈ FONTS_TO_COPY → g ∈ FONTS_TO_COPY →
  path_join BuildCases.fontsource f ≠ path_join BuildCases.fonts g.
Proof.
  intros _ _ Heq. vm_compute in Heq. discriminate Heq.
Qed.

Lemma fonts_are_copied_when_all_are_there_witness :
  let r :=
    script BuildCases.fontsource BuildCases.fonts BuildCases.installed in
  r.1 = Val (Returned tt)
  ∧ (∀ font, font ∈ FONTS_TO_COPY →
       fs r.2 !! path_join BuildCases.fonts font
       = fs BuildCases.installed !! path_join BuildCases.fontsource font)
  ∧ (∀ p, p ∉ path_join BuildCases.fonts <$> FONTS_TO_COPY →
       fs r.2 !! p = fs BuildCases.installed !! p).
Proof.
  apply (fonts_are_copied_when_all_are_there BuildCases.fontsource
           BuildCases.fonts BuildCases.installed).
  - apply sample_fonts_apart.
  - apply Forall_forall. apply (bool_decide_unpack _). by vm_compute.
Defined.

(** X19: the first font of the list that is missing ends the process
    with exit code 1, from within the loop.  The fonts before it are copied,
    the fonts after it are not looked at: no path but the copies of the
    fonts before it has changed, and the copies made are those of the fonts
    before it, in the order of the list. *)
Theorem missing_font_fails_the_build
    (FONT_SOURCE FONT_DEST : list N) (st : state)
    (before after : list (list N)) (font : list N) :
  (∀ f g, f ∈ FONTS_TO_COPY → g ∈ FONTS_TO_COPY →
          path_join FONT_SOURCE f ≠ path_join FONT_DEST g) →
  FONTS_TO_COPY = before ++ font :: after →
  (∀ f, f ∈ before → is_Some (fs st !! path_join FONT_SOURCE f)) →
  fs st !! path_join FONT_SOURCE font = None →
  let r := script FONT_SOURCE FONT_DEST st in
  r.1 = Val (Exited 1)
  ∧ (∀ f, f ∈ before →
       fs r.2 !! path_join FONT_DEST f = fs st !! path_join FONT_SOURCE f)
  ∧ (∀ p, p ∉ path_join FONT_DEST <$> before → fs r.2 !! p = fs st !! p)
  ∧ copied (trace r.2)
    = copied (trace st)
      ++ ((λ f, (path_join FONT_SOURCE f, path_join FONT_DEST f))
          <$> before).
Proof.
  intros Hapart Hfonts Hpresent Hmissing. cbv zeta. rewrite fonts_script_run.
  destruct (for_fonts_run FONT_SOURCE FONT_DEST FONTS_TO_COPY
              (record (Mkdir FONT_DEST) st) Hapart)
    as (Hout & Hdone & Hothers & Hcopied).
  cbn [fs trace record] in *. rewrite copied_snoc, app_nil_r in Hcopied.
  assert (leading (fs st) FONT_SOURCE FONTS_TO_COPY = before) as Hlead.
  { rewrite Hfonts. clear -Hpresent Hmissing.
    induction before as [|f before IH]; cbn [app leading].
    - by rewrite Hmissing.
    - destruct (Hpresent f) as [content ->]; [left|].
      rewrite IH; [done|]. intros g Hg. apply Hpresent. by right. }
  rewrite Hlead in *. rewrite bool_decide_eq_false_2 in Hout; [done|].
  rewrite Hfonts. intros Heq. apply (f_equal length) in Heq.
  rewrite length_app in Heq. simpl in Heq. lia.
Qed.

Lemma missing_font_fails_the_build_witness :
  let st := BuildCases.installed_without_400 in
  let r := script BuildCases.fontsource BuildCases.fonts st in
  let before := [str "roboto-latin-300-normal.woff2"] in
  r.1 = Val (Exited 1)
  ∧ (∀ f, f ∈ before →
       fs r.2 !! path_join BuildCases.fonts f
       = fs st !! path_join BuildCases.fontsource f)
  ∧ (∀ p, p ∉ path_join BuildCases.fonts <$> before →
       fs r.2 !! p = fs st !! p)
  ∧ copied (trace r.2)
    = copied (trace st)
      ++ ((λ f, (path_join BuildCases.fontsource f,
                 path_join BuildCases.fonts f))
          <$> before).
Proof.
  apply (missing_font_fails_the_build BuildCases.fontsource BuildCases.fonts
           BuildCases.installed_without_400
           [str "roboto-latin-300-normal.woff2"]
           [str "roboto-latin-500-normal.woff2"]
           (str "roboto-latin-400-normal.woff2")).
  - apply sample_fonts_apart.
  - reflexivity.
  - apply Forall_forall. apply (bool_decide_unpack _). by vm_compute.
  - by vm_compute.
Defined.
End FontCopy.

(** ** [build-html.js] *)

Module HtmlBuild.
Import JS JSFacts Patterns Build Html Copies FontCopy.



Section Script.
Variables SRC_DIR DIST_DIR : list N.
Variable currentYear : N.
Variable html_minifier_terser : list N → result (list N).

Local Abbreviation src := (path_join SRC_DIR).
Local Abbreviation dest := (path_join DIST_DIR).
Local Abbreviation tempFile := (path_join DIST_DIR (str "index.temp.html")).
Local Abbreviation output := (DIST_DIR ++ str "/index.html").
Local Abbreviation main :=
  (main SRC_DIR DIST_DIR currentYear html_minifier_terser).
Local Abbreviation script :=
  (script SRC_DIR DIST_DIR currentYear html_minifier_terser).








End Script.








End HtmlBuild.

(** ** [generate-sitemap.js] *)

Module SitemapFacts.
Import JS Build Sitemap.

Lemma trimStart_spec s :
  ∃ u, s = u ++ trimStart s
       ∧ Forall (λ c, is_space c = true) u
       ∧ ∀ c, head (trimStart s) = Some c → is_space c = false.
Proof.
  induction s as [|c s (u & Hs & Hu & Hhead)]; [by exists []|].
  cbn [trimStart]. destruct (is_space c) eqn:Hc.
  - exists (c :: u). split; [by rewrite Hs at 1|]. split; [|done].
    by constructor.
  - exists []. split; [done|]. split; [constructor|].
    by intros ? [= <-].
Qed.

Lemma trimEnd_spec s :
  ∃ v, s = trimEnd s ++ v
       ∧ Forall (λ c, is_space c = true) v
       ∧ ∀ c, last (trimEnd s) = Some c → is_space c = false.
Proof.
  induction s as [|c s (v & Hs & Hv & Hlast)]; [by exists []|].
  cbn [trimEnd]. destruct (trimEnd s) as [|d t] eqn:Ht.
  - destruct (is_space c) eqn:Hc.
    + exists (c :: v). simpl in Hs. subst s. split; [done|].
      split; [by constructor | done].
    + exists v. simpl in Hs. subst s. split; [done|]. split; [done|].
      by intros ? [= <-].
  - exists v. split; [by rewrite Hs at 1|]. split; [done|].
    intros x. rewrite last_cons. destruct (last (d :: t)) eqn:Hl.
    + apply Hlast.
    + by rewrite last_None in Hl.
Qed.

Lemma trimEnd_head s c :
  head (trimEnd s) = Some c → head s = Some c.
Proof.
  destruct s as [|d s]; [done|]. cbn [trimEnd].
  destruct (trimEnd s); [|done]. by destruct (is_space d).
Qed.

(** [trim] drops white space at both ends, and nothing else. *)
Lemma trim_spec s :
  ∃ u v,
    s = u ++ trim s ++ v
    ∧ Forall (λ c, is_space c = true) u
    ∧ Forall (λ c, is_space c = true) v
    ∧ (∀ c, head (trim s) = Some c → is_space c = false)
    ∧ (∀ c, last (trim s) = Some c → is_space c = false).
Proof.
  destruct (trimStart_spec s) as (u & Hs & Hu & Hhead).
  destruct (trimEnd_spec (trimStart s)) as (v & Ht & Hv & Hlast).
  exists u, v. unfold trim. split; [by rewrite <- Ht|].
  split; [done|]. split; [done|]. split; [|done].
  intros c Hc. by apply Hhead, trimEnd_head.
Qed.

(** X24: [generate-sitemap.js] always writes the sitemap, and that is
    the one change to the files.  When [git log] fails, the script prints a
    warning and dates the page with the current time instead of failing;
    when it delivers, the date is its output without the white space at
    both ends, and nothing else is cut off: the output is the date between
    two runs of white space, and the date neither starts nor ends with
    white space. *)
Theorem sitemap_is_written_with_trimmed_date_or_fallback
    (DIST_DIR : list N) (git_log : result (list N)) (toISOString : list N)
    (st : state) :
  let r := script DIST_DIR git_log toISOString st in
  let lastmod :=
    match git_log with
    | Ok output => trim output
    | Error _ => toISOString
    end in
  r.1 = Val (Returned tt)
  ∧ fs r.2
    = <[path_join DIST_DIR (str "sitemap.xml") := sitemap lastmod]> (fs st)
  ∧ trace r.2
    = trace st
      ++ GitLog
         :: (if git_log is Ok _ then [] else [Console NoGitLastmod])
      ++ [WriteFile (path_join DIST_DIR (str "sitemap.xml"))
            (sitemap lastmod);
          Console (SitemapWritten lastmod)]
  ∧ ∀ output,
      git_log = Ok output →
      ∃ u v,
        output = u ++ lastmod ++ v
        ∧ Forall (λ c, is_space c = true) u
        ∧ Forall (λ c, is_space c = true) v
        ∧ (∀ c, head lastmod = Some c → is_space c = false)
        ∧ (∀ c, last lastmod = Some c → is_space c = false).
Proof.
  cbv zeta.
  unfold script, main, returning, writeFile, console, emit, modify, await,
    process_exit, ret.
  unfold try_catch, bind. cbv beta iota.
  destruct git_log as [output|e]; cbn [fst snd fs trace record with_fs].
  - split; [done|]. split; [done|]. split; [by rewrite <- !app_assoc|].
    intros ? [= <-]. apply trim_spec.
  - split; [done|]. split; [done|]. split; [by rewrite <- !app_assoc|].
    done.
Qed.
End SitemapFacts.
